(** * Gofra: the static stack type-checker and the ARM64/macOS backend

    A shallow embedding of [gofra/typecheck/type_safety.py] and
    [gofra/codegen/backends/arm64_macos.py].

    Python exceptions become the [Raise] branch of an outcome type; the
    mutable abstract stack of the type-checker is threaded through a small
    state-and-error monad; the code generator threads its output, its string
    table and the operators it mutates. *)

From Stdlib Require Import List String Ascii ZArith Bool Arith Lia.
From Stdlib Require Import DecimalString DecimalPos DecimalZ.
Import ListNotations.

Local Open Scope list_scope.

(** ** Data model *)

(** Modelled from the spec: the enumeration [GofraType] of
    [gofra.typecheck.types], whose declaration is not at hand; "a closed
    enumeration with variants INTEGER, POINTER, BOOLEAN". *)
Inductive GofraType : Type := INTEGER | POINTER | BOOLEAN.

Definition GofraType_eqb (a b : GofraType) : bool :=
  match a, b with
  | INTEGER, INTEGER | POINTER, POINTER | BOOLEAN, BOOLEAN => true
  | _, _ => false
  end.

Definition GofraType_name (t : GofraType) : string :=
  match t with
  | INTEGER => "INTEGER"
  | POINTER => "POINTER"
  | BOOLEAN => "BOOLEAN"
  end.

(** Modelled from the spec: the enumeration [OperatorType] of
    [gofra.parser], whose declaration is not at hand; the eight kinds the
    specification lists are the ones the two modules match on. *)
Inductive OperatorType : Type :=
  PUSH_INTEGER | PUSH_STRING | INTRINSIC | IF | DO | WHILE | END | CALL.

Definition OperatorType_name (t : OperatorType) : string :=
  match t with
  | PUSH_INTEGER => "PUSH_INTEGER"
  | PUSH_STRING => "PUSH_STRING"
  | INTRINSIC => "INTRINSIC"
  | IF => "IF"
  | DO => "DO"
  | WHILE => "WHILE"
  | END => "END"
  | CALL => "CALL"
  end.

(** Modelled from the spec: the enumeration [Intrinsic] of
    [gofra.parser.intrinsics], whose declaration is not at hand; the
    members the specification lists are the ones the two modules match
    on. *)
Inductive Intrinsic : Type :=
| PLUS | MINUS | MULTIPLY | DIVIDE | MODULUS
| INCREMENT | DECREMENT
| EQUAL | NOT_EQUAL | LESS_THAN | LESS_EQUAL_THAN
| GREATER_THAN | GREATER_EQUAL_THAN
| DROP | COPY | SWAP
| MEMORY_LOAD | MEMORY_STORE
| SYSCALL0 | SYSCALL1 | SYSCALL2 | SYSCALL3
| SYSCALL4 | SYSCALL5 | SYSCALL6.

Definition Intrinsic_name (i : Intrinsic) : string :=
  match i with
  | PLUS => "PLUS" | MINUS => "MINUS" | MULTIPLY => "MULTIPLY"
  | DIVIDE => "DIVIDE" | MODULUS => "MODULUS"
  | INCREMENT => "INCREMENT" | DECREMENT => "DECREMENT"
  | EQUAL => "EQUAL" | NOT_EQUAL => "NOT_EQUAL"
  | LESS_THAN => "LESS_THAN" | LESS_EQUAL_THAN => "LESS_EQUAL_THAN"
  | GREATER_THAN => "GREATER_THAN"
  | GREATER_EQUAL_THAN => "GREATER_EQUAL_THAN"
  | DROP => "DROP" | COPY => "COPY" | SWAP => "SWAP"
  | MEMORY_LOAD => "MEMORY_LOAD" | MEMORY_STORE => "MEMORY_STORE"
  | SYSCALL0 => "SYSCALL0" | SYSCALL1 => "SYSCALL1"
  | SYSCALL2 => "SYSCALL2" | SYSCALL3 => "SYSCALL3"
  | SYSCALL4 => "SYSCALL4" | SYSCALL5 => "SYSCALL5"
  | SYSCALL6 => "SYSCALL6"
  end.

(** The digit that ends the name of a syscall intrinsic. *)
Definition syscall_digit (i : Intrinsic) : option nat :=
  match i with
  | SYSCALL0 => Some 0 | SYSCALL1 => Some 1 | SYSCALL2 => Some 2
  | SYSCALL3 => Some 3 | SYSCALL4 => Some 4 | SYSCALL5 => Some 5
  | SYSCALL6 => Some 6
  | _ => None
  end.

(** Modelled from the spec: the operand of an operator, "integer / string
    / intrinsic / function-name, disjoint by kind"; an operator of a kind
    without operand has none. *)
Inductive OperatorOperand : Type :=
| OInt (n : Z)
| OStr (s : string)
| OIntrinsic (i : Intrinsic)
| ONone.

(** Modelled from the spec: the source token of an operator, "text +
    location".  The location is kept as the text that [str(location)]
    gives. *)
Record Token : Type := mkToken {
  text : string;
  location : string
}.

(** Modelled from the spec: the class [Operator] of [gofra.parser], whose
    source is not at hand.  Fields as the two modules read them: kind,
    operand, token, the optional control-flow link and the optimization
    annotations ([syscall_optimization_injected_args] is an optional list
    whose slots are [None] or a concrete integer). *)
Record Operator : Type := mkOperator {
  type : OperatorType;
  token : Token;
  operand : OperatorOperand;
  jumps_to_operator_idx : option Z;
  has_optimizations : bool;
  infer_type_after_optimization : option GofraType;
  syscall_optimization_omit_result : bool;
  syscall_optimization_injected_args : option (list (option Z))
}.

(** Modelled from the spec: [Operator.get_syscall_arguments_count], whose
    source is not at hand; "arity = index + 1 including the syscall number
    slot".  The method is only called on syscall intrinsics; on anything
    else the model raises (a [None] here). *)
Definition get_syscall_arguments_count (operator : Operator) : option nat :=
  match operand operator with
  | OIntrinsic i => option_map S (syscall_digit i)
  | _ => None
  end.

(** Modelled from the spec: [Operator.is_syscall], whose source is not at
    hand. *)
Definition is_syscall (operator : Operator) : bool :=
  match type operator, operand operator with
  | INTRINSIC, OIntrinsic i =>
      match syscall_digit i with Some _ => true | None => false end
  | _, _ => false
  end.

(** Modelled from the spec: the function record of the function table,
    whose source is not at hand. *)
Record Function : Type := mkFunction {
  name : string;
  source : list Operator;
  type_contract_in : list GofraType;
  type_contract_out : list GofraType;
  emit_inline_body : bool;
  is_externally_defined : bool
}.

(** Modelled from the spec: [gofra.context.ProgramContext], whose source
    is not at hand.  The function table is a Python dict, kept here as an
    association list in insertion order (the backend iterates over its
    values); the external names are a set, kept as the list of its
    members. *)
Record ProgramContext : Type := mkProgramContext {
  operators : list Operator;
  functions : list (string * Function);
  extern_functions : list string
}.

(** [name in program_context.functions] and
    [program_context.functions[name]]. *)
Fixpoint functions_get (key : string) (table : list (string * Function))
  : option Function :=
  match table with
  | [] => None
  | (k, f) :: rest =>
      if String.eqb k key then Some f else functions_get key rest
  end.

Definition in_extern_functions (name : string) (pc : ProgramContext) : bool :=
  existsb (String.eqb name) (extern_functions pc).

(** ** Exceptions *)

(** What a run can raise: the type-checker's own errors and the Python
    runtime's.  [InsufficientOperandsError] and [InvalidArgumentTypeError]
    are raised inside the type-check context, whose source is not at
    hand; they
    carry what section 7 of the specification lists. *)
Inductive Raised : Type :=
| InsufficientOperandsError (operator : Operator) (required_args : nat)
| InvalidArgumentTypeError (expected_type actual_type : GofraType)
                           (operator : Operator)
| TypecheckInvalidPointerArithmeticsError
    (actual_lhs_type actual_rhs_type : GofraType) (operator : Operator)
| TypecheckInvalidBinaryMathArithmeticsError
    (actual_lhs_type actual_rhs_type : GofraType) (operator : Operator)
| TypecheckNonEmptyStackAtEndError (stack_size : nat)
| IndexError
| KeyError (key : string)
| AssertionError
| TypeError
| NotImplementedError (message : string).

Inductive outcome (A : Type) : Type :=
| Ok (a : A)
| Raise (e : Raised).

Arguments Ok {A} a.
Arguments Raise {A} e.

(** ** The type-check context *)

(** The abstract stack: a Python list whose right end is the top. *)
Definition type_stack : Type := list GofraType.

(** A computation over the abstract stack that may raise. *)
Definition TC (A : Type) : Type := type_stack -> outcome (A * type_stack).

Definition tc_ret {A : Type} (a : A) : TC A := fun st => Ok (a, st).

Definition tc_bind {A B : Type} (m : TC A) (k : A -> TC B) : TC B :=
  fun st =>
    match m st with
    | Ok (a, st') => k a st'
    | Raise e => Raise e
    end.

Definition tc_raise {A : Type} (e : Raised) : TC A := fun _ => Raise e.

Declare Scope tc_scope.
Delimit Scope tc_scope with tc.
Notation "x <- m ;; k" := (tc_bind m (fun x => k))
  (at level 61, m at next level, right associativity) : tc_scope.
Notation "m ;; k" := (tc_bind m (fun _ => k))
  (at level 61, right associativity) : tc_scope.

Local Open Scope tc_scope.

Module TypecheckContext.

(** The class [TypecheckContext] of [gofra/typecheck/_context.py], whose
    source is not at hand: its methods are modelled from the
    specification.  The abstract stack is the Python list
    [emulated_stack_types]. *)

(** Modelled from the spec: [push_types]; "push appends to the right
    (top)". *)
Definition push_types (types : list GofraType) : TC unit :=
  fun st => Ok (tt, st ++ types).

(** Modelled from the spec: [pop_argument_type]; "pop removes from the
    right".  It is Python's [list.pop], which raises [IndexError] on an
    empty list. *)
Definition pop_argument_type : TC GofraType :=
  fun st =>
    match rev st with
    | [] => Raise IndexError
    | t :: below => Ok (t, rev below)
    end.

(** Modelled from the spec: [raise_for_enough_arguments]; a "shortfall
    raises an insufficient-operands error annotated with the offending
    operator", which "carries the operator and required count". *)
Definition raise_for_enough_arguments
    (operator : Operator) (required_args : nat) : TC unit :=
  fun st =>
    if List.length st <? required_args
    then Raise (InsufficientOperandsError operator required_args)
    else Ok (tt, st).

(** Modelled from the spec: [consume_n_arguments]; that many pops. *)
Fixpoint consume_n_arguments (args_to_consume : nat) : TC unit :=
  match args_to_consume with
  | O => tc_ret tt
  | S n => _ <- pop_argument_type ;; consume_n_arguments n
  end.

(** Modelled from the spec: [pop_and_raise_for_argument_type]; a pop
    whose type must be the expected one, or else the invalid-argument-type
    error, which "carries expected type, actual type, operator". *)
Definition pop_and_raise_for_argument_type
    (expected_type : GofraType) (operator : Operator) : TC unit :=
  argument_type <- pop_argument_type ;;
  if GofraType_eqb argument_type expected_type
  then tc_ret tt
  else tc_raise
         (InvalidArgumentTypeError expected_type argument_type operator).

End TypecheckContext.

Import TypecheckContext.

(** ** [validate_type_safety] *)

Section Typecheck.

(** [str(member)] for a member of the [Intrinsic] enumeration, whose
    declaration is not at hand.  Only a [CALL] whose operand is an
    intrinsic reads it. *)
Variable str_of_Intrinsic : Intrinsic -> string.

(** Python's [str] on an operand. *)
Definition str_of_operand (o : OperatorOperand) : string :=
  match o with
  | OInt n => NilZero.string_of_int (Z.to_int n)
  | OStr s => s
  | OIntrinsic i => str_of_Intrinsic i
  | ONone => "None"
  end.

(** The [INTRINSIC] arm of the loop body. *)
Definition check_intrinsic (operator : Operator) (i : Intrinsic) : TC unit :=
  match i with
  | MEMORY_STORE =>
      raise_for_enough_arguments operator 2 ;;
      consume_n_arguments 2
  | MEMORY_LOAD =>
      raise_for_enough_arguments operator 2 ;;
      consume_n_arguments 2 ;;
      push_types [INTEGER]
  | INCREMENT | DECREMENT =>
      raise_for_enough_arguments operator 1 ;;
      pop_and_raise_for_argument_type INTEGER operator ;;
      push_types [INTEGER]
  | DROP =>
      raise_for_enough_arguments operator 1 ;;
      consume_n_arguments 1
  | EQUAL | LESS_EQUAL_THAN | LESS_THAN
  | GREATER_EQUAL_THAN | GREATER_THAN | NOT_EQUAL =>
      raise_for_enough_arguments operator 2 ;;
      consume_n_arguments 2 ;;
      push_types [BOOLEAN]
  | MINUS | PLUS =>
      raise_for_enough_arguments operator 2 ;;
      b <- pop_argument_type ;;
      a <- pop_argument_type ;;
      if GofraType_eqb a POINTER then
        (* Pointer arithmetics *)
        if negb (GofraType_eqb b INTEGER) then
          tc_raise (TypecheckInvalidPointerArithmeticsError a b operator)
        else
          push_types [POINTER] (* continue *)
      else
        push_types [b; a] ;;
        pop_and_raise_for_argument_type INTEGER operator ;;
        pop_and_raise_for_argument_type INTEGER operator ;;
        push_types [INTEGER]
  | MULTIPLY | DIVIDE | MODULUS =>
      raise_for_enough_arguments operator 2 ;;
      b <- pop_argument_type ;;
      a <- pop_argument_type ;;
      if negb (GofraType_eqb b INTEGER) || negb (GofraType_eqb a INTEGER)
      then tc_raise (TypecheckInvalidBinaryMathArithmeticsError a b operator)
      else push_types [INTEGER]
  | SYSCALL0 | SYSCALL1 | SYSCALL2 | SYSCALL3
  | SYSCALL4 | SYSCALL5 | SYSCALL6 =>
      match get_syscall_arguments_count operator with
      | None => tc_raise AssertionError
      | Some args_count =>
          match syscall_optimization_injected_args operator with
          | Some ((_ :: _) as injected_args) =>
              push_types
                (map (fun _ => INTEGER)
                     (filter (fun injected_arg_value =>
                                match injected_arg_value with
                                | Some _ => true
                                | None => false
                                end) injected_args))
          | _ => tc_ret tt
          end ;;
          raise_for_enough_arguments operator args_count ;;
          consume_n_arguments args_count ;;
          if negb (syscall_optimization_omit_result operator)
          then push_types [INTEGER]
          else tc_ret tt
      end
  | COPY =>
      raise_for_enough_arguments operator 1 ;;
      arg_type <- pop_argument_type ;;
      push_types [arg_type; arg_type]
  | SWAP =>
      raise_for_enough_arguments operator 1 ;;
      a <- pop_argument_type ;;
      b <- pop_argument_type ;;
      push_types [a; b]
  end.

(** [for type_in in reversed(contract): pop_and_raise_for_argument_type]. *)
Fixpoint pop_contract (reversed_contract : list GofraType)
    (operator : Operator) : TC unit :=
  match reversed_contract with
  | [] => tc_ret tt
  | type_in :: rest =>
      pop_and_raise_for_argument_type type_in operator ;;
      pop_contract rest operator
  end.

(** One turn of the loop [for operator in operators]. *)
Definition check_operator (program_context : ProgramContext)
    (operator : Operator) : TC unit :=
  match type operator with
  | WHILE | END => tc_ret tt
  | PUSH_INTEGER =>
      let push_type :=
        match has_optimizations operator,
              infer_type_after_optimization operator with
        | true, Some t => t
        | _, _ => INTEGER
        end in
      push_types [push_type]
  | PUSH_STRING => push_types [POINTER; INTEGER]
  | INTRINSIC =>
      match operand operator with
      | OIntrinsic i => check_intrinsic operator i
      | _ => tc_raise AssertionError
      end
  | IF =>
      raise_for_enough_arguments operator 1 ;;
      pop_and_raise_for_argument_type BOOLEAN operator
  | CALL =>
      let func_name := str_of_operand (operand operator) in
      if in_extern_functions func_name program_context then
        raise_for_enough_arguments operator 1 ;;
        pop_and_raise_for_argument_type INTEGER operator ;;
        push_types [INTEGER] (* continue *)
      else
        match functions_get func_name (functions program_context) with
        | None => tc_raise (KeyError func_name)
        | Some function =>
            raise_for_enough_arguments operator
              (List.length (type_contract_in function)) ;;
            pop_contract (rev (type_contract_in function)) operator ;;
            push_types (type_contract_out function)
        end
  | DO =>
      raise_for_enough_arguments operator 1 ;;
      pop_and_raise_for_argument_type BOOLEAN operator
  end.

(** The loop over the operator sequence. *)
Fixpoint check_operators (program_context : ProgramContext)
    (ops : list Operator) : TC unit :=
  match ops with
  | [] => tc_ret tt
  | operator :: rest =>
      check_operator program_context operator ;;
      check_operators program_context rest
  end.

(** [validate_type_safety(program_context, operators)]: the context is
    created with an empty abstract stack, the loop runs, and a stack
    that is not empty afterwards is an error. *)
Definition validate_type_safety (program_context : ProgramContext)
    (ops : list Operator) : outcome unit :=
  match check_operators program_context ops [] with
  | Raise e => Raise e
  | Ok (_, emulated_stack_types) =>
      match emulated_stack_types with
      | [] => Ok tt
      | _ :: _ =>
          Raise (TypecheckNonEmptyStackAtEndError
                   (List.length emulated_stack_types))
      end
  end.

End Typecheck.

(** ** The code generation context *)

(** Python's ["%d" % n] and ["%s" % n] on integers. *)
Definition fmt_Z (n : Z) : string := NilZero.string_of_int (Z.to_int n).
Definition fmt_nat (n : nat) : string := fmt_Z (Z.of_nat n).

Definition newline : string := String (ascii_of_nat 10) EmptyString.
Definition quote : string := String (ascii_of_nat 34) EmptyString.

(** Python's [text[1:-1]]. *)
Definition strip_first_last (s : string) : string :=
  substring 1 (String.length s - 2) s.

(** Python's [l[-k]] for [k >= 1]: [None] stands for [IndexError]. *)
Definition index_from_end {A : Type} (l : list A) (k : nat) : option A :=
  if k <=? List.length l then nth_error l (List.length l - k) else None.

(** One piece of emitted text: a line given to [context.write], or text
    given to [fd.write] as it is (its newline included). *)
Inductive asm_line : Type :=
| Ins (line : string)
| Raw (content : string).

(** Modelled from the spec: the class [CodegenContext] of
    [gofra/codegen/_context.py], whose source is not at hand.  It holds
    "an output sink plus a string intern table mapping a unique label name
    (str_0, str_1, ... assigned in first-seen order) to the literal's
    payload"; the table is a Python dict in insertion order. *)
Record CodegenContext : Type := mkCodegenContext {
  fd : list asm_line;
  strings : list (string * string)
}.

(** A step of the generator: it changes the context and may raise; what
    was written before a raise stays written. *)
Definition CG (A : Type) : Type :=
  CodegenContext -> CodegenContext * outcome A.

Definition cg_ret {A : Type} (a : A) : CG A := fun c => (c, Ok a).

Definition cg_bind {A B : Type} (m : CG A) (k : A -> CG B) : CG B :=
  fun c =>
    match m c with
    | (c', Ok a) => k a c'
    | (c', Raise e) => (c', Raise e)
    end.

Definition cg_raise {A : Type} (e : Raised) : CG A := fun c => (c, Raise e).

Declare Scope cg_scope.
Delimit Scope cg_scope with cg.
Notation "x <- m ;; k" := (cg_bind m (fun x => k))
  (at level 61, m at next level, right associativity) : cg_scope.
Notation "m ;; k" := (cg_bind m (fun _ => k))
  (at level 61, right associativity) : cg_scope.

(** Modelled from the spec: [CodegenContext.write]; each of its lines
    goes to the sink as one instruction line. *)
Definition write (lines : list string) : CG unit :=
  fun c => (mkCodegenContext (fd c ++ map Ins lines) (strings c), Ok tt).

(** [fd.write(text)]. *)
Definition fd_write (content : string) : CG unit :=
  fun c => (mkCodegenContext (fd c ++ [Raw content]) (strings c), Ok tt).

(** Modelled from the spec: [CodegenContext.load_string]; labels are
    "assigned on first insertion in encounter order (str_0, str_1, ...)"
    and "the reference implementation returns a fresh label per
    PUSH_STRING occurrence". *)
Definition load_string (payload : string) : CG string :=
  fun c =>
    let string_key := ("str_" ++ fmt_nat (List.length (strings c)))%string in
    (mkCodegenContext (fd c) (strings c ++ [(string_key, payload)]),
     Ok string_key).

(** The text of the output for a given indentation of instructions:
    "each emitted line ends with a newline; labels sit at column zero;
    instructions are indented by whitespace consistent across the file". *)
Fixpoint render (indent : string) (out : list asm_line) : string :=
  match out with
  | [] => EmptyString
  | Ins line :: rest =>
      (indent ++ line ++ newline ++ render indent rest)%string
  | Raw content :: rest => (content ++ render indent rest)%string
  end.

(** The change of SP, in bytes, that a sequence of emitted lines makes:
    [add SP, SP, #16] frees a slot, [sub SP, SP, #16] takes one. *)
Definition sp_change_of_line (l : asm_line) : Z :=
  match l with
  | Ins line =>
      if String.eqb line "add SP, SP, #16" then 16%Z
      else if String.eqb line "sub SP, SP, #16" then (-16)%Z
      else 0%Z
  | Raw _ => 0%Z
  end.

Definition sp_change (out : list asm_line) : Z :=
  fold_right (fun l acc => (sp_change_of_line l + acc)%Z) 0%Z out.

(** The registers a sequence of lines loads from the data stack
    ([ldr Xr, [SP]]). *)
Definition loads_from_stack (register : string) (out : list asm_line) : bool :=
  existsb (fun l =>
             match l with
             | Ins line =>
                 String.eqb line ("ldr " ++ register ++ ", [SP]")%string
             | Raw _ => false
             end) out.

(** ** The ARM64/macOS backend *)

Local Open Scope string_scope.

(** [repr] of the values the debug comment formats with [%s]. *)
Definition repr_bool (b : bool) : string := if b then "True" else "False".

Definition repr_slot (slot : option Z) : string :=
  match slot with
  | None => "None"
  | Some n => fmt_Z n
  end.

Definition repr_injected_args (args : option (list (option Z))) : string :=
  match args with
  | None => "None"
  | Some l => "[" ++ String.concat ", " (map repr_slot l) ++ "]"
  end.

(** Writing the field [syscall_optimization_injected_args] of an
    operator. *)
Definition set_injected_args (operator : Operator)
    (args : option (list (option Z))) : Operator :=
  mkOperator (type operator) (token operator) (operand operator)
    (jumps_to_operator_idx operator) (has_optimizations operator)
    (infer_type_after_optimization operator)
    (syscall_optimization_omit_result operator) args.

Local Open Scope cg_scope.

(** The loop [for arg_n in range(syscall_arguments - 1)] of the syscall
    arm, over the values of [arg_n] still to come. *)
Fixpoint syscall_load_registers (syscall_arguments : nat)
    (injected_args : list (option Z)) (arg_ns : list nat) : CG unit :=
  match arg_ns with
  | [] => cg_ret tt
  | arg_n :: rest =>
      (* Load register in reversed order of stack so top of the stack is
         max register *)
      let arg_register := (syscall_arguments - arg_n - 2)%nat in
      injected_arg <-
        match arg_n with
        | O => cg_ret None
        | S _ =>
            match index_from_end injected_args arg_n with
            | Some slot => cg_ret slot
            | None => cg_raise IndexError
            end
        end ;;
      match injected_arg with
      | None =>
          write ["ldr X" ++ fmt_nat arg_register ++ ", [SP]"] ;;
          write ["add SP, SP, #16"]
      | Some value =>
          write ["mov X" ++ fmt_nat arg_register ++ ", #" ++ fmt_Z value]
      end ;;
      syscall_load_registers syscall_arguments injected_args rest
  end.

(** The syscall arm.  [injected_args] is the operator's own list when
    that list is not empty (Python's [or] returns its left operand, not a
    copy), and a fresh list of [None] otherwise; [injected_args.pop()]
    then removes the last slot of whichever list it is.  The operator is
    returned as the arm leaves it. *)
Definition write_syscall (operator : Operator)
  : CodegenContext -> CodegenContext * Operator * outcome unit :=
  fun c =>
    match get_syscall_arguments_count operator with
    | None => (c, operator, Raise AssertionError)
    | Some syscall_arguments =>
        let '(injected_args, aliased) :=
          match syscall_optimization_injected_args operator with
          | Some ((_ :: _) as own) => (own, true)
          | _ => (repeat None syscall_arguments, false)
          end in
        let '(c1, _) :=
          match last injected_args None with
          | None => write ["ldr X16, [SP]"; "add SP, SP, #16"] c
          | Some number => write ["mov X16, #" ++ fmt_Z number] c
          end in
        let injected_args := removelast injected_args in
        let operator' :=
          if aliased
          then set_injected_args operator (Some injected_args)
          else operator in
        let '(c2, result) :=
          (syscall_load_registers syscall_arguments injected_args
             (seq 0 (syscall_arguments - 1)) ;;
           write ["svc #0"] ;;
           if negb (syscall_optimization_omit_result operator)
           then
             (* Do not store result on stack if optimization is applied
                for omitting result *)
             write ["sub SP, SP, #16"; "str X0, [SP]"]
           else cg_ret tt) c1 in
        (c2, operator', result)
    end.

(** An arm that leaves the operator as it found it. *)
Definition unchanged (operator : Operator) (m : CG unit)
  : CodegenContext -> CodegenContext * Operator * outcome unit :=
  fun c => let '(c', result) := m c in (c', operator, result).

(** [match operator.operand] of the [INTRINSIC] arm. *)
Definition write_intrinsic (operator : Operator) (i : Intrinsic)
  : CodegenContext -> CodegenContext * Operator * outcome unit :=
  match i with
  | MEMORY_LOAD =>
      unchanged operator
        (write ["ldr X0, [SP]"; "ldr X1, [X0]"; "str X1, [SP]"])
  | MEMORY_STORE =>
      unchanged operator
        (write ["ldr X0, [SP]"; "add SP, SP, #16"; "ldr X1, [SP]";
                "str X0, [X1]"])
  | DROP =>
      unchanged operator
        (write ["add SP, SP, #16"])
  | PLUS =>
      unchanged operator
        (write ["ldr X0, [SP]"; "add SP, SP, #16"; "ldr X1, [SP]";
                "add SP, SP, #16"; "add X0, X1, X0"; "sub SP, SP, #16";
                "str X0, [SP]"])
  | MINUS =>
      unchanged operator
        (write ["ldr X0, [SP]"; "add SP, SP, #16"; "ldr X1, [SP]";
                "add SP, SP, #16"; "sub X0, X1, X0"; "sub SP, SP, #16";
                "str X0, [SP]"])
  | COPY =>
      unchanged operator
        (write ["ldr X0, [SP]"; "str X0, [SP]"; "sub SP, SP, #16";
                "str X0, [SP]"])
  | INCREMENT =>
      unchanged operator
        (write ["ldr X0, [SP]"; "add X0, X0, #1"; "str X0, [SP]"])
  | DECREMENT =>
      unchanged operator
        (write ["ldr X0, [SP]"; "sub X0, X0, #1"; "str X0, [SP]"])
  | MULTIPLY =>
      unchanged operator
        (write ["ldr X0, [SP]"; "add SP, SP, #16"; "ldr X1, [SP]";
                "add SP, SP, #16"; "mul X0, X1, X0"; "sub SP, SP, #16";
                "str X0, [SP]"])
  | DIVIDE =>
      unchanged operator
        (write ["ldr X0, [SP]"; "add SP, SP, #16"; "ldr X1, [SP]";
                "add SP, SP, #16"; "sdiv X0, X1, X0"; "sub SP, SP, #16";
                "str X0, [SP]"])
  | MODULUS =>
      unchanged operator
        (write ["ldr X0, [SP]"; "add SP, SP, #16"; "ldr X1, [SP]";
                "add SP, SP, #16"; "udiv X2, X1, X0"; "mul X2, X2, X0";
                "sub X0, X1, X2"; "sub SP, SP, #16"; "str X0, [SP]"])
  | NOT_EQUAL =>
      unchanged operator
        (write ["ldr X1, [SP]"; "add SP, SP, #16"; "ldr X0, [SP]";
                "add SP, SP, #16"; "cmp X0, X1"; "cset X0, ne";
                "sub SP, SP, #16"; "str X0, [SP]"])
  | GREATER_EQUAL_THAN =>
      unchanged operator
        (write ["ldr X0, [SP]"; "add SP, SP, #16"; "ldr X1, [SP]";
                "add SP, SP, #16"; "cmp X0, X1"; "cset X0, ge";
                "sub SP, SP, #16"; "str X0, [SP]"])
  | LESS_EQUAL_THAN =>
      unchanged operator
        (write ["ldr X1, [SP]"; "add SP, SP, #16"; "ldr X0, [SP]";
                "add SP, SP, #16"; "cmp X0, X1"; "cset X0, le";
                "sub SP, SP, #16"; "str X0, [SP]"])
  | LESS_THAN =>
      unchanged operator
        (write ["ldr X1, [SP]"; "add SP, SP, #16"; "ldr X0, [SP]";
                "add SP, SP, #16"; "cmp X0, X1"; "cset X0, lt";
                "sub SP, SP, #16"; "str X0, [SP]"])
  | GREATER_THAN =>
      unchanged operator
        (write ["ldr X1, [SP]"; "add SP, SP, #16"; "ldr X0, [SP]";
                "add SP, SP, #16"; "cmp X0, X1"; "cset X0, gt";
                "sub SP, SP, #16"; "str X0, [SP]"])
  | EQUAL =>
      unchanged operator
        (write ["ldr X1, [SP]"; "add SP, SP, #16"; "ldr X0, [SP]";
                "add SP, SP, #16"; "cmp X0, X1"; "cset X0, eq";
                "sub SP, SP, #16"; "str X0, [SP]"])
  | SWAP =>
      unchanged operator
        (write ["ldr X0, [SP]"; "add SP, SP, #16"; "ldr X1, [SP]";
                "str X0, [SP]"; "sub SP, SP, #16"; "str X1, [SP]"])
  | SYSCALL0 | SYSCALL1 | SYSCALL2 | SYSCALL3
  | SYSCALL4 | SYSCALL5 | SYSCALL6 => write_syscall operator
  end.

(** [for arg_register in range(n - 1, -1, -1)] of the [CALL] arm, over
    the registers still to come. *)
Fixpoint pop_into_registers (arg_registers : list nat) : CG unit :=
  match arg_registers with
  | [] => cg_ret tt
  | arg_register :: rest =>
      write ["ldr X" ++ fmt_nat arg_register ++ ", [SP]"] ;;
      write ["add SP, SP, #16"] ;;
      pop_into_registers rest
  end.

(** The text that [_write_debug_operator_comment] builds; the assertion
    on the operand of an [INTRINSIC] operator can fail. *)
Definition debug_operator_comment (operator : Operator) : outcome string :=
  let location := location (token operator) in
  match
    match type operator with
    | INTRINSIC =>
        match operand operator with
        | OIntrinsic i => Ok ("// * Intrinsic " ++ Intrinsic_name i)
        | _ => Raise AssertionError
        end
    | t => Ok ("// * Operator " ++ OperatorType_name t)
    end
  with
  | Raise e => Raise e
  | Ok comment =>
      let comment := comment ++ " from " ++ location in
      Ok (if has_optimizations operator then
            if is_syscall operator then
              comment ++ " [optimized, omit result: "
                ++ repr_bool (syscall_optimization_omit_result operator)
                ++ ", injected args: "
                ++ repr_injected_args
                     (syscall_optimization_injected_args operator)
                ++ "]"
            else
              comment ++ " [optimized, infer type: "
                ++ match infer_type_after_optimization operator with
                   | Some t => GofraType_name t
                   | None => "as-is"
                   end
                ++ "]"
          else comment)
  end.

(** [_write_debug_operator_comment]. *)
Definition _write_debug_operator_comment (operator : Operator) : CG unit :=
  match debug_operator_comment operator with
  | Ok comment => write [comment]
  | Raise e => cg_raise e
  end.

(** The lines that the debug comment of an operator adds to the output. *)
Definition debug_lines (debug_comments : bool) (operator : Operator)
  : list asm_line :=
  if debug_comments then
    match debug_operator_comment operator with
    | Ok comment => [Ins comment]
    | Raise _ => []
    end
  else [].

Section Backend.

(** The integer that ["%d"] formats for a member of the [Intrinsic]
    enumeration, if the enumeration is an integer one; its declaration
    is not at hand.  Only a [PUSH_INTEGER] whose operand is an intrinsic
    reads it. *)
Variable int_of_Intrinsic : Intrinsic -> option Z.

(** One turn of the loop [for idx, operator in enumerate(operators)]:
    the lowering of one operator.  The operator comes back as the turn
    leaves it. *)
Definition write_operator (program_context : ProgramContext)
    (debug_comments : bool) (idx : nat) (operator : Operator)
  : CodegenContext -> CodegenContext * Operator * outcome unit :=
  fun c =>
    match (if debug_comments
           then _write_debug_operator_comment operator
           else cg_ret tt) c with
    | (c, Raise e) => (c, operator, Raise e)
    | (c, Ok _) =>
        match type operator with
        | PUSH_INTEGER =>
            match
              match operand operator with
              | OInt n => Some n
              | OIntrinsic i => int_of_Intrinsic i
              | _ => None
              end
            with
            | Some n =>
                unchanged operator
                  (write ["sub SP, SP, #16"; "mov X0, #" ++ fmt_Z n;
                          "str X0, [SP]"]) c
            | None => (c, operator, Raise TypeError)
            end
        | PUSH_STRING =>
            match operand operator with
            | OStr s =>
                unchanged operator
                  (string_key <-
                     load_string (strip_first_last (text (token operator))) ;;
                   write ["sub SP, SP, #16"; "adr X0, " ++ string_key;
                          "str X0, [SP]"; "sub SP, SP, #16";
                          "mov X0, #" ++ fmt_nat (String.length s);
                          "str X0, [SP]"]) c
            | _ => (c, operator, Raise AssertionError)
            end
        | DO =>
            match jumps_to_operator_idx operator with
            | Some target =>
                unchanged operator
                  (write ["ldr X0, [SP]"; "add SP, SP, #16"; "cmp X0, #1";
                          "bne .ctx_" ++ fmt_Z target ++ "_over"]) c
            | None => (c, operator, Raise AssertionError)
            end
        | END | WHILE =>
            match jumps_to_operator_idx operator with
            | Some target =>
                unchanged operator
                  (write ["b .ctx_" ++ fmt_Z target] ;;
                   fd_write (".ctx_" ++ fmt_nat idx ++ "_over:" ++ newline))
                  c
            | None =>
                unchanged operator
                  (fd_write (".ctx_" ++ fmt_nat idx ++ ":" ++ newline)) c
            end
        | IF =>
            match jumps_to_operator_idx operator with
            | Some target =>
                unchanged operator
                  (write ["ldr X0, [SP]"; "add SP, SP, #16"; "cmp X0, #1";
                          "bne .ctx_" ++ fmt_Z target]) c
            | None => (c, operator, Raise AssertionError)
            end
        | INTRINSIC =>
            match operand operator with
            | OIntrinsic i => write_intrinsic operator i c
            | _ => (c, operator, Raise AssertionError)
            end
        | CALL =>
            match operand operator with
            | OStr function_name =>
                match functions_get function_name
                        (functions program_context) with
                | Some function =>
                    unchanged operator
                      ((if is_externally_defined function
                        then pop_into_registers
                               (rev (seq 0 (List.length
                                              (type_contract_in function))))
                        else cg_ret tt) ;;
                       write ["bl " ++ function_name] ;;
                       match type_contract_out function with
                       | _ :: _ => write ["sub SP, SP, #16"; "str X0, [SP]"]
                       | [] => cg_ret tt
                       end) c
                | None =>
                    if in_extern_functions function_name program_context
                    then
                      unchanged operator
                        (write ["ldr X0, [SP]"] ;;
                         write ["add SP, SP, #16"] ;;
                         write ["bl " ++ function_name] ;;
                         write ["sub SP, SP, #16"] ;;
                         write ["str X0, [SP]"]) c
                    else (c, operator, Raise (KeyError function_name))
                end
            | _ => (c, operator, Raise AssertionError)
            end
        end
    end.

(** [_write_executable_body_instruction_set]: the loop over the operator
    sequence, from index [idx] on.  The sequence comes back with the
    operators as the run leaves them; a raise stops the loop. *)
Fixpoint write_operators_from (program_context : ProgramContext)
    (debug_comments : bool) (idx : nat) (ops : list Operator)
  : CodegenContext -> CodegenContext * list Operator * outcome unit :=
  fun c =>
    match ops with
    | [] => (c, [], Ok tt)
    | operator :: rest =>
        match write_operator program_context debug_comments idx operator c
        with
        | (c1, operator', Raise e) => (c1, operator' :: rest, Raise e)
        | (c1, operator', Ok _) =>
            let '(c2, rest', result) :=
              write_operators_from program_context debug_comments
                (S idx) rest c1 in
            (c2, operator' :: rest', result)
        end
    end.

Definition _write_executable_body_instruction_set
    (program_context : ProgramContext) (debug_comments : bool)
    (ops : list Operator)
  : CodegenContext -> CodegenContext * list Operator * outcome unit :=
  write_operators_from program_context debug_comments 0 ops.

(** Writing the field [source] of a function record. *)
Definition set_source (function : Function) (ops : list Operator)
  : Function :=
  mkFunction (name function) ops (type_contract_in function)
    (type_contract_out function) (emit_inline_body function)
    (is_externally_defined function).

(** [_write_function_declarations]: the loop over the functions that are
    neither inline nor externally defined, in the order of the table.
    The table comes back with the bodies as the run leaves them. *)
Fixpoint write_function_table (program_context : ProgramContext)
    (debug_comments : bool) (table : list (string * Function))
  : CodegenContext ->
    CodegenContext * list (string * Function) * outcome unit :=
  fun c =>
    match table with
    | [] => (c, [], Ok tt)
    | (key, function) :: rest =>
        if negb (emit_inline_body function)
           && negb (is_externally_defined function)
        then
          let '(c0, _) := fd_write (name function ++ ":" ++ newline) c in
          match _write_executable_body_instruction_set program_context
                  debug_comments (source function) c0 with
          | (c1, body, Raise e) =>
              (c1, (key, set_source function body) :: rest, Raise e)
          | (c1, body, Ok _) =>
              let '(c2, _) := write ["ret"] c1 in
              let '(c3, rest', result) :=
                write_function_table program_context debug_comments
                  rest c2 in
              (c3, (key, set_source function body) :: rest', result)
          end
        else
          let '(c1, rest', result) :=
            write_function_table program_context debug_comments rest c in
          (c1, (key, function) :: rest', result)
    end.

Definition _write_function_declarations
    (program_context : ProgramContext) (debug_comments : bool)
  : CodegenContext ->
    CodegenContext * list (string * Function) * outcome unit :=
  write_function_table program_context debug_comments
    (functions program_context).

(** [_write_debug_header_comment]; [now] is the text of
    [datetime.now()]. *)
Definition _write_debug_header_comment (now : string) : CG unit :=
  fd_write ("// Assembly generated by Gofra codegen backend"
              ++ newline ++ newline) ;;
  fd_write ("// Generated at: " ++ now ++ newline) ;;
  fd_write ("// Target: ARM64, MacOS" ++ newline ++ newline).

Definition _write_program_epilogue (debug_comments : bool) : CG unit :=
  (if debug_comments
   then write ["// Program epilogue "; "// (exit return-code 0)";
               "// (always included)"]
   else cg_ret tt) ;;
  write ["mov X0, #0"; "mov X16, #1"; "svc #0"].

Fixpoint write_strings (items : list (string * string)) : CG unit :=
  match items with
  | [] => cg_ret tt
  | (string_key, string_value) :: rest =>
      fd_write (string_key ++ ": .string " ++ quote
                  ++ string_value ++ quote ++ newline) ;;
      write_strings rest
  end.

Definition _write_static_segment : CG unit :=
  fd_write ("mem_buffer: .space 1000" ++ newline) ;;
  fun c => write_strings (strings c) c.

Definition _write_entry_header : CG unit :=
  fd_write (".global _start" ++ newline) ;;
  fd_write (".align 4" ++ newline ++ newline) ;;
  fd_write ("_start:" ++ newline).

(** What a run of the backend leaves behind: the text written to the
    sink, the program context as the run left it, and what was raised,
    if anything. *)
Record generated : Type := mkGenerated {
  output : list asm_line;
  context_after : ProgramContext;
  raised : option Raised
}.

(** [generate_ARM64_MacOS_backend], on an empty sink. *)
Definition generate_ARM64_MacOS_backend (now : string)
    (program_context : ProgramContext) (debug_comments : bool)
  : generated :=
  let context := mkCodegenContext [] [] in
  let '(context, _) :=
    (if debug_comments then _write_debug_header_comment now
     else cg_ret tt) context in
  match _write_function_declarations program_context debug_comments context
  with
  | (context, table, Raise e) =>
      mkGenerated (fd context)
        (mkProgramContext (operators program_context) table
           (extern_functions program_context))
        (Some e)
  | (context, table, Ok _) =>
      let '(context, _) := _write_entry_header context in
      match _write_executable_body_instruction_set program_context
              debug_comments (operators program_context) context with
      | (context, ops, Raise e) =>
          mkGenerated (fd context)
            (mkProgramContext ops table (extern_functions program_context))
            (Some e)
      | (context, ops, Ok _) =>
          let '(context, _) :=
            (_write_program_epilogue debug_comments ;;
             _write_static_segment) context in
          mkGenerated (fd context)
            (mkProgramContext ops table (extern_functions program_context))
            None
      end
  end.

End Backend.

(** ** Concrete operators and programs *)

(** An operator without control-flow link and without optimizations. *)
Definition plain_operator (t : OperatorType) (token_text : string)
    (o : OperatorOperand) : Operator :=
  mkOperator t (mkToken token_text "main.gof:1:1") o None false None false None.

Definition push_integer (n : Z) : Operator :=
  plain_operator PUSH_INTEGER (fmt_Z n) (OInt n).

Definition push_string (token_text value : string) : Operator :=
  plain_operator PUSH_STRING token_text (OStr value).

Definition intrinsic (i : Intrinsic) : Operator :=
  plain_operator INTRINSIC (Intrinsic_name i) (OIntrinsic i).

(** A syscall intrinsic that carries an injected-args block. *)
Definition optimized_syscall (i : Intrinsic) (omit_result : bool)
    (injected_args : list (option Z)) : Operator :=
  mkOperator INTRINSIC (mkToken (Intrinsic_name i) "main.gof:1:1")
    (OIntrinsic i)
    None true None omit_result (Some injected_args).

Definition call (function_name : string) : Operator :=
  plain_operator CALL function_name (OStr function_name).

(** A host in which [str] of an intrinsic is its qualified name and the
    enumeration is not an integer one. *)
Definition qualified_name (i : Intrinsic) : string :=
  "Intrinsic." ++ Intrinsic_name i.

Definition not_an_integer (i : Intrinsic) : option Z := None.

Definition empty_context : ProgramContext := mkProgramContext [] [] [].

(** [PUSH_INTEGER 5, PUSH_STRING "x", INTRINSIC DROP, INTRINSIC PLUS]. *)
Definition integer_plus_pointer : list Operator :=
  [push_integer 5; push_string (quote ++ "x" ++ quote) "x";
   intrinsic DROP; intrinsic PLUS].

(** [PUSH_STRING "x", INTRINSIC DROP, PUSH_INTEGER 1, INTRINSIC PLUS,
    INTRINSIC DROP]. *)
Definition pointer_plus_integer : list Operator :=
  [push_string (quote ++ "x" ++ quote) "x"; intrinsic DROP;
   push_integer 1; intrinsic PLUS; intrinsic DROP].

(** [PUSH_INTEGER 1, INTRINSIC SWAP]: a swap over a stack of depth 1. *)
Definition swap_at_depth_one : list Operator :=
  [push_integer 1; intrinsic SWAP].

(** A function of the table whose body drops from an empty stack, in a
    program whose top-level sequence is empty. *)
Definition dropping_function : Function :=
  mkFunction "f" [intrinsic DROP] [] [] false false.

Definition program_with_ill_typed_body : ProgramContext :=
  mkProgramContext [] [("f", dropping_function)] [].

(** The program context with the body and the two flags of every function
    of the table replaced; names and type contracts stay. *)
Definition with_bodies (body : Function -> list Operator)
    (inline external : Function -> bool) (pc : ProgramContext)
  : ProgramContext :=
  mkProgramContext (operators pc)
    (map (fun entry : string * Function =>
            (fst entry,
             mkFunction (name (snd entry)) (body (snd entry))
               (type_contract_in (snd entry)) (type_contract_out (snd entry))
               (inline (snd entry)) (external (snd entry))))
         (functions pc))
    (extern_functions pc).

(** What the CALL arm of the loop reads of the program context for a
    name: whether the name is in the external set and, when it is not,
    whether the function table has a record for it, and the two
    contracts of that record. *)
Inductive callee : Type :=
| ExternalCallee
| TableCallee (contract_in contract_out : list GofraType)
| UnknownCallee.

Definition callee_of (pc : ProgramContext) (func_name : string) : callee :=
  if in_extern_functions func_name pc then ExternalCallee
  else
    match functions_get func_name (functions pc) with
    | Some function =>
        TableCallee (type_contract_in function) (type_contract_out function)
    | None => UnknownCallee
    end.

(** Two program contexts that give the same reading at every CALL of a
    sequence; they may differ in everything else: their top-level
    operators, the records of the names that the sequence does not call,
    and the names, bodies and flags of the records that it does call. *)
Definition same_at_call_sites (str_of_Intrinsic : Intrinsic -> string)
    (ops : list Operator) (pc pc' : ProgramContext) : Prop :=
  forall operator : Operator,
    In operator ops ->
    type operator = CALL ->
    callee_of pc (str_of_operand str_of_Intrinsic (operand operator))
    = callee_of pc' (str_of_operand str_of_Intrinsic (operand operator)).

(** A sequence that calls a function of the table and an external name,
    and two program contexts that agree on these two and on nothing
    else. *)
Definition two_calls : list Operator :=
  [push_integer 1; push_integer 2; call "sum"; call "puts"; intrinsic DROP].

Definition context_of_two_calls : ProgramContext :=
  mkProgramContext []
    [("sum", mkFunction "sum" [intrinsic PLUS] [INTEGER; INTEGER] [INTEGER]
               false false);
     ("f", dropping_function)]
    ["puts"].

Definition other_context_of_two_calls : ProgramContext :=
  mkProgramContext [push_integer 7]
    [("f", mkFunction "f" [] [BOOLEAN] [POINTER; POINTER] true false);
     ("sum", mkFunction "plus" [intrinsic DROP] [INTEGER; INTEGER] [INTEGER]
               true true);
     ("g", dropping_function)]
    ["exit"; "puts"].

(** The reading of the specification under which validation covers the
    function table: whenever validation of the top level accepts, every
    function that is neither external nor inline has a body that takes
    its input contract to its output contract. *)
Definition validation_covers_function_bodies
    (str_of_Intrinsic : Intrinsic -> string) : Prop :=
  forall pc : ProgramContext,
    validate_type_safety str_of_Intrinsic pc (operators pc) = Ok tt ->
    forall (key : string) (f : Function),
      In (key, f) (functions pc) ->
      is_externally_defined f = false ->
      emit_inline_body f = false ->
      check_operators str_of_Intrinsic pc (source f) (type_contract_in f)
      = Ok (tt, type_contract_out f).

(** The instructions the backend writes for MEMORY_LOAD. *)
Definition memory_load_template : list string :=
  ["ldr X0, [SP]"; "ldr X1, [X0]"; "str X1, [SP]"].

(** The instructions of a pop from the data stack into a register, and of
    a move of an immediate into a register. *)
Definition pop_into (register : string) : list string :=
  ["ldr " ++ register ++ ", [SP]"; "add SP, SP, #16"].

Definition move_into (register : string) (value : Z) : list string :=
  ["mov " ++ register ++ ", #" ++ fmt_Z value].

(** How the specification fills a syscall register from an injected
    slot: a pop when the slot is [None], an immediate otherwise. *)
Definition fill_register (register : string) (slot : option Z)
  : list string :=
  match slot with
  | None => pop_into register
  | Some value => move_into register value
  end.

(** The push of X0 that ends a lowering with a result. *)
Definition push_X0 : list string := ["sub SP, SP, #16"; "str X0, [SP]"].

(** The lowering of a syscall with three slots as the specification
    describes it: X16 from slot 2, X1 from slot 1, X0 from slot 0. *)
Definition syscall2_lowering_of_spec (s0 s1 s2 : option Z)
    (omit_result : bool) : list string :=
  (fill_register "X16" s2 ++ fill_register "X1" s1 ++ fill_register "X0" s0
   ++ ["svc #0"] ++ (if omit_result then [] else push_X0))%list.

(** SYSCALL2 with the slots [5, None, 1]: the number and the first
    argument are injected, the second argument comes from the stack. *)
Definition syscall2_injected : Operator :=
  optimized_syscall SYSCALL2 true [Some 5%Z; None; Some 1%Z].

(** A program that is one syscall with its number injected and its result
    omitted. *)
Definition exit_program : ProgramContext :=
  mkProgramContext [optimized_syscall SYSCALL0 true [Some 60%Z]] [] [].

(** The lowering of a CALL from the record of the callee. *)
Definition call_lowering_of_record (function_name : string) (f : Function)
  : list string :=
  ((if is_externally_defined f
    then flat_map (fun r => pop_into ("X" ++ fmt_nat r)%string)
           (rev (seq 0 (List.length (type_contract_in f))))
    else [])
   ++ [("bl " ++ function_name)%string]
   ++ match type_contract_out f with
      | [] => []
      | _ :: _ => push_X0
      end)%list.

(** The lowering of a CALL by the single-argument convention of the
    external path. *)
Definition call_lowering_of_extern (function_name : string) : list string :=
  ["ldr X0, [SP]"; "add SP, SP, #16"; "bl " ++ function_name;
   "sub SP, SP, #16"; "str X0, [SP]"].

(** A name that is both in the function table, with the contract
    (BOOLEAN, POINTER) -> (), and in the external set. *)
Definition shadowed_function : Function :=
  mkFunction "puts" [] [BOOLEAN; POINTER] [] false true.

Definition program_with_shadowed_name : ProgramContext :=
  mkProgramContext [] [("puts", shadowed_function)] ["puts"].

(** A string literal with an escape: the token text holds the backslash
    and the letter, the operand holds the newline they stand for. *)
Definition escaped_literal : Operator :=
  push_string (quote ++ "a\n" ++ quote) ("a" ++ newline).

(** Whether an operator carries an injected-args list that is not empty
    (the lists the syscall arm of the backend writes to). *)
Definition has_injected_args (operator : Operator) : bool :=
  match syscall_optimization_injected_args operator with
  | Some (_ :: _) => true
  | _ => false
  end.

(** Whether some operator of the program, at top level or in a function
    body, carries such a list. *)
Definition program_has_injected_args (pc : ProgramContext) : bool :=
  existsb has_injected_args (operators pc)
  || existsb (fun entry : string * Function =>
                existsb has_injected_args (source (snd entry)))
       (functions pc).

(** A computation over the abstract stack is local to the top of the
    stack when a run that succeeds on a stack succeeds in the same way on
    that stack with more slots below it, and leaves those slots alone. *)
Definition framed {A : Type} (m : TC A) : Prop :=
  forall (st : type_stack) (a : A) (st' : type_stack),
    m st = Ok (a, st') ->
    forall below : type_stack,
      m (below ++ st)%list = Ok (a, below ++ st')%list.

(** A function of the table with the contract (INTEGER, INTEGER) ->
    (INTEGER), and a program that calls it. *)
Definition adder : Function :=
  mkFunction "add" [intrinsic PLUS] [INTEGER; INTEGER] [INTEGER] false false.

Definition program_with_adder : ProgramContext :=
  mkProgramContext
    [push_integer 1; push_integer 2; call "add"; intrinsic DROP]
    [("add", adder)] [].

(** The number of slots of the injected-args block of an operator that
    hold a concrete integer; none when the block is absent or empty. *)
Definition injected_count (operator : Operator) : nat :=
  match syscall_optimization_injected_args operator with
  | Some ((_ :: _) as injected_args) =>
      List.length
        (filter (fun slot : option Z =>
                   match slot with Some _ => true | None => false end)
           injected_args)
  | _ => 0
  end.

(** A computation over the abstract stack raises nothing but exceptions
    that satisfy a given property. *)
Definition raises_only {A : Type} (P : Raised -> Prop) (m : TC A) : Prop :=
  forall (st : type_stack) (e : Raised), m st = Raise e -> P e.

(** What the check of one operator can raise, and on which operator: the
    errors of the type-checker carry the operator that is being checked;
    the pointer-arithmetics error needs POINTER below a type that is not
    INTEGER; of the exceptions of the Python runtime, [IndexError] needs
    SWAP, [KeyError] a CALL of a name that is in neither table, and
    [AssertionError] an INTRINSIC whose operand is not an intrinsic. *)
Definition may_raise (str_of_Intrinsic : Intrinsic -> string)
    (pc : ProgramContext) (operator : Operator) (e : Raised) : Prop :=
  match e with
  | InsufficientOperandsError o _ => o = operator
  | InvalidArgumentTypeError _ _ o => o = operator
  | TypecheckInvalidPointerArithmeticsError lhs rhs o =>
      o = operator /\ lhs = POINTER /\ rhs <> INTEGER
  | TypecheckInvalidBinaryMathArithmeticsError lhs rhs o =>
      o = operator /\ (lhs <> INTEGER \/ rhs <> INTEGER)
  | TypecheckNonEmptyStackAtEndError _ => False
  | IndexError =>
      type operator = INTRINSIC /\ operand operator = OIntrinsic SWAP
  | KeyError key =>
      type operator = CALL
      /\ key = str_of_operand str_of_Intrinsic (operand operator)
      /\ in_extern_functions key pc = false
      /\ functions_get key (functions pc) = None
  | AssertionError =>
      type operator = INTRINSIC
      /\ forall i : Intrinsic, operand operator <> OIntrinsic i
  | TypeError => False
  | NotImplementedError _ => False
  end.

(** An exception other than the pointer-arithmetics error. *)
Definition not_pointer_arithmetics (e : Raised) : Prop :=
  match e with
  | TypecheckInvalidPointerArithmeticsError _ _ _ => False
  | _ => True
  end.

(** The intrinsics that take two slots of any type, and the types they
    push. *)
Definition untyped_binary (i : Intrinsic) : option (list GofraType) :=
  match i with
  | EQUAL | NOT_EQUAL | LESS_THAN | LESS_EQUAL_THAN
  | GREATER_THAN | GREATER_EQUAL_THAN => Some [BOOLEAN]
  | MEMORY_LOAD => Some [INTEGER]
  | MEMORY_STORE => Some []
  | _ => None
  end.

(** A context with more text before what it holds. *)
Definition shifted (out : list asm_line) (c : CodegenContext)
  : CodegenContext :=
  mkCodegenContext (out ++ fd c)%list (strings c).

(** A step of the generator is local when what it does after some text
    is what it does on an empty sink, after that text: it appends, and
    what it appends does not depend on what was written before. *)
Definition cg_local {A : Type} (m : CG A) : Prop :=
  forall (out : list asm_line) (table : list (string * string)),
    m (mkCodegenContext out table)
    = let '(c', result) := m (mkCodegenContext [] table) in
      (shifted out c', result).

(** The same for a lowering that returns what it has lowered as well. *)
Definition lowering_local {B : Type}
    (f : CodegenContext -> CodegenContext * B * outcome unit) : Prop :=
  forall (out : list asm_line) (table : list (string * string)),
    f (mkCodegenContext out table)
    = let '(c', lowered, result) := f (mkCodegenContext [] table) in
      (shifted out c', lowered, result).

(** A step of the generator that leaves the string table as it is. *)
Definition cg_keeps_strings {A : Type} (m : CG A) : Prop :=
  forall c : CodegenContext, strings (fst (m c)) = strings c.

(** The payload an operator has interned when its lowering is over: the
    stripped token text for a PUSH_STRING whose operand is a string,
    nothing for any other operator. *)
Definition interned_by (operator : Operator) : list string :=
  match type operator, operand operator with
  | PUSH_STRING, OStr _ => [strip_first_last (text (token operator))]
  | _, _ => []
  end.

(** The label of the string interned when the table holds [n] entries. *)
Definition string_label (n : nat) : string := "str_" ++ fmt_nat n.

(** The entries of the string table for payloads interned one after the
    other, the first of them when the table holds [start] entries. *)
Fixpoint intern_all (start : nat) (payloads : list string)
  : list (string * string) :=
  match payloads with
  | [] => []
  | payload :: rest =>
      (string_label start, payload) :: intern_all (S start) rest
  end.

(** A sequence with two string literals. *)
Definition two_literals : list Operator :=
  [push_string (quote ++ "hi" ++ quote) "hi"; intrinsic DROP;
   escaped_literal; intrinsic DROP; intrinsic DROP; intrinsic DROP].

(** The payloads interned by the bodies that the backend declares: those
    of the functions that are neither inline nor externally defined, in
    the order of the table. *)
Definition function_payloads (table : list (string * Function))
  : list string :=
  flat_map (fun entry : string * Function =>
              if negb (emit_inline_body (snd entry))
                 && negb (is_externally_defined (snd entry))
              then flat_map interned_by (source (snd entry))
              else [])
    table.

(** The line of the static segment for one entry of the string table. *)
Definition string_directive (entry : string * string) : asm_line :=
  Raw (fst entry ++ ": .string " ++ quote ++ snd entry ++ quote ++ newline).

(** The lines of the program epilogue. *)
Definition epilogue_lines (debug_comments : bool) : list asm_line :=
  ((if debug_comments
    then map Ins ["// Program epilogue "; "// (exit return-code 0)";
                  "// (always included)"]
    else [])
   ++ map Ins ["mov X0, #0"; "mov X16, #1"; "svc #0"])%list.

(** A program with a string literal in a declared function and two at
    top level. *)
Definition greeter : Function :=
  mkFunction "greet"
    [push_string (quote ++ "yo" ++ quote) "yo"; intrinsic DROP;
     intrinsic DROP]
    [] [] false false.

Definition program_with_literals : ProgramContext :=
  mkProgramContext (call "greet" :: two_literals) [("greet", greeter)] [].

(** The operators whose lowering is a fixed template that moves SP by as
    many slots as the type-checker moves the abstract stack: the pushes,
    the control-flow operators, and every intrinsic but the two memory
    intrinsics and the syscalls. *)
Definition has_balanced_template (operator : Operator) : bool :=
  match type operator, operand operator with
  | INTRINSIC, OIntrinsic i =>
      match i with
      | MEMORY_LOAD | MEMORY_STORE
      | SYSCALL0 | SYSCALL1 | SYSCALL2 | SYSCALL3
      | SYSCALL4 | SYSCALL5 | SYSCALL6 => false
      | _ => true
      end
  | INTRINSIC, _ => false
  | CALL, _ => false
  | _, _ => true
  end.

(** The number of slots by which such an operator changes the depth of
    the stack. *)
Definition net_slots (operator : Operator) : Z :=
  match type operator, operand operator with
  | PUSH_INTEGER, _ => 1
  | PUSH_STRING, _ => 2
  | IF, _ | DO, _ => -1
  | INTRINSIC, OIntrinsic i =>
      match i with
      | COPY => 1
      | INCREMENT | DECREMENT | SWAP => 0
      | _ => -1
      end
  | _, _ => 0
  end%Z.

(** The lowering of a syscall of arity [S d] that takes every argument
    from the data stack: the number into X16, then the registers from
    X(d-1) down to X0, the trap, and the push of the result unless it is
    omitted. *)
Definition syscall_lowering_from_stack (d : nat) (omit_result : bool)
  : list string :=
  (pop_into "X16"
   ++ flat_map (fun r => pop_into ("X" ++ fmt_nat r)%string) (rev (seq 0 d))
   ++ ["svc #0"]
   ++ (if omit_result then [] else push_X0))%list.

(** The functions that the backend declares: those of the table that are
    neither inline nor externally defined, in the order of the table. *)
Definition declared_functions (table : list (string * Function))
  : list Function :=
  filter (fun f => negb (emit_inline_body f)
                   && negb (is_externally_defined f))
    (map snd table).

(** The text of the declaration of a function around the text of its
    body: the label, the body, the return. *)
Definition declaration_block (f : Function) (body : list asm_line)
  : list asm_line :=
  (Raw (name f ++ ":" ++ newline) :: body ++ [Ins "ret"])%list.

(** The text that the lowering of a sequence adds to the sink, and the
    string table that it leaves, when it starts with a given string
    table. *)
Definition body_text (int_of_Intrinsic : Intrinsic -> option Z)
    (pc : ProgramContext) (debug_comments : bool) (ops : list Operator)
    (table : list (string * string)) : list asm_line :=
  fd (fst (fst (_write_executable_body_instruction_set int_of_Intrinsic pc
                  debug_comments ops (mkCodegenContext [] table)))).

Definition body_strings (int_of_Intrinsic : Intrinsic -> option Z)
    (pc : ProgramContext) (debug_comments : bool) (ops : list Operator)
    (table : list (string * string)) : list (string * string) :=
  strings (fst (fst (_write_executable_body_instruction_set
                       int_of_Intrinsic pc debug_comments ops
                       (mkCodegenContext [] table)))).

(** The blocks of a list of functions, one after the other: the body of
    each is the text of the lowering of its source, from the string
    table that the bodies before it have left. *)
Fixpoint declarations_text (int_of_Intrinsic : Intrinsic -> option Z)
    (pc : ProgramContext) (debug_comments : bool)
    (declared : list Function) (table : list (string * string))
  : list asm_line :=
  match declared with
  | [] => []
  | f :: rest =>
      (declaration_block f
         (body_text int_of_Intrinsic pc debug_comments (source f) table)
       ++ declarations_text int_of_Intrinsic pc debug_comments rest
            (body_strings int_of_Intrinsic pc debug_comments (source f)
               table))%list
  end.

(** A table with two functions to declare, the first with a string
    literal, around one that is externally defined. *)
Definition table_of_three : list (string * Function) :=
  [("greet", greeter); ("puts", shadowed_function); ("add", adder)].

(** A line of the output that is a comment: an instruction line that
    starts with two slashes. *)
Definition is_comment (l : asm_line) : bool :=
  match l with
  | Ins (String "/"%char (String "/"%char _)) => true
  | _ => false
  end.

(** The output without its comment lines. *)
Definition code_lines (out : list asm_line) : list asm_line :=
  filter (fun l => negb (is_comment l)) out.

(** Control-flow operators with their link, and a small sequence: WHILE
    at 0, a condition, DO at 2 linked to the END at 4, END at 4 linked
    back to the WHILE at 0; then a condition and an IF at 6 linked to the
    END at 7. *)
Definition linked (t : OperatorType) (target : option Z) : Operator :=
  mkOperator t (mkToken (OperatorType_name t) "main.gof:1:1") ONone
    target false None false None.

Definition boolean_constant (n : Z) : Operator :=
  mkOperator PUSH_INTEGER (mkToken (fmt_Z n) "main.gof:1:1") (OInt n)
    None true (Some BOOLEAN) false None.

Definition loop_then_if : list Operator :=
  [linked WHILE None; boolean_constant 0; linked DO (Some 4%Z);
   push_integer 1; linked END (Some 0%Z);
   boolean_constant 1; linked IF (Some 7%Z); linked END None].

(** A program whose external set holds a name that the function table
    does not. *)
Definition program_with_external : ProgramContext :=
  mkProgramContext [push_integer 0; call "puts"; intrinsic DROP] []
    ["puts"].

(** A step of the generator that appends lines with a given property and
    nothing else. *)
Definition writes_only {A : Type} (P : asm_line -> Prop) (m : CG A)
  : Prop :=
  forall c : CodegenContext,
  exists new : list asm_line,
    fd (fst (m c)) = (fd c ++ new)%list /\ Forall P new.

(** The same for a lowering that returns what it has lowered as well. *)
Definition lowering_writes_only {B : Type} (P : asm_line -> Prop)
    (f : CodegenContext -> CodegenContext * B * outcome unit) : Prop :=
  forall c : CodegenContext,
  exists new : list asm_line,
    fd (fst (fst (f c))) = (fd c ++ new)%list /\ Forall P new.

(** A line that is not a comment. *)
Definition is_code (l : asm_line) : Prop := is_comment l = false.

(** The operators whose lowering holds no branch and no label: the
    pushes and the intrinsics. *)
Definition straight_line (operator : Operator) : bool :=
  match type operator with
  | PUSH_INTEGER | PUSH_STRING | INTRINSIC => true
  | _ => false
  end.

(** The straight-line operators on whose stack depth the two passes
    agree: those with a balanced template, and the syscalls that carry
    no injected args. *)
Definition depth_faithful (operator : Operator) : bool :=
  straight_line operator
  && (has_balanced_template operator
      || (is_syscall operator && negb (has_injected_args operator))).

(** A line that is a branch (its mnemonic starts with the letter b: b,
    bne, bl) or text written to the sink as it is (the labels). *)
Definition is_branch_or_label (l : asm_line) : bool :=
  match l with
  | Ins (String "b"%char _) => true
  | Ins _ => false
  | Raw _ => true
  end.

(** A line after which the next line is executed. *)
Definition falls_through (l : asm_line) : Prop :=
  is_branch_or_label l = false.

(** A straight sequence of such operators. *)
Definition sum_program : list Operator :=
  [push_integer 2; push_integer 3; intrinsic PLUS; push_integer 1;
   intrinsic SYSCALL1; intrinsic DROP].

(** * Properties *)

(** ** Formatting of integers *)

Lemma fmt_Z_parses (n : Z) :
  NilZero.int_of_string (fmt_Z n) = Some (Z.to_int n).
Proof.
  unfold fmt_Z. apply NilZero.isi.
  - destruct n; simpl; try discriminate.
    intros [= H]. now apply (DecimalPos.Unsigned.to_uint_nonnil p).
  - destruct n; simpl; try discriminate.
    intros [= H]. now apply (DecimalPos.Unsigned.to_uint_nonnil p).
Qed.

(** Two integers with the same decimal text are equal. *)
Lemma fmt_Z_inj (n m : Z) : fmt_Z n = fmt_Z m -> n = m.
Proof.
  intros H. apply DecimalZ.to_int_inj.
  apply (f_equal NilZero.int_of_string) in H.
  rewrite !fmt_Z_parses in H. congruence.
Qed.

Lemma fmt_nat_inj (n m : nat) : fmt_nat n = fmt_nat m -> n = m.
Proof. intros H. apply fmt_Z_inj in H. lia. Qed.

(** ** The type-check context *)

Lemma pop_argument_type_top (st : type_stack) (t : GofraType) :
  pop_argument_type (st ++ [t])%list = Ok (t, st).
Proof.
  unfold pop_argument_type.
  rewrite rev_app_distr; simpl.
  now rewrite rev_involutive.
Qed.

Lemma pop_argument_type_empty : pop_argument_type [] = Raise IndexError.
Proof. reflexivity. Qed.

Lemma raise_for_enough_arguments_ok (operator : Operator) (n : nat)
    (st : type_stack) :
  n <= List.length st ->
  raise_for_enough_arguments operator n st = Ok (tt, st).
Proof.
  intros H. unfold raise_for_enough_arguments.
  destruct (Nat.ltb_spec (List.length st) n); [lia | reflexivity].
Qed.

Lemma raise_for_enough_arguments_short (operator : Operator) (n : nat)
    (st : type_stack) :
  List.length st < n ->
  raise_for_enough_arguments operator n st
  = Raise (InsufficientOperandsError operator n).
Proof.
  intros H. unfold raise_for_enough_arguments.
  destruct (Nat.ltb_spec (List.length st) n); [reflexivity | lia].
Qed.

Lemma GofraType_eqb_eq (a b : GofraType) :
  GofraType_eqb a b = true <-> a = b.
Proof. destruct a, b; simpl; split; congruence. Qed.

Lemma pop_and_raise_top (expected actual : GofraType) (operator : Operator)
    (st : type_stack) :
  pop_and_raise_for_argument_type expected operator (st ++ [actual])%list
  = if GofraType_eqb actual expected then Ok (tt, st)
    else Raise (InvalidArgumentTypeError expected actual operator).
Proof.
  unfold pop_and_raise_for_argument_type, tc_bind.
  rewrite pop_argument_type_top.
  now destruct (GofraType_eqb actual expected).
Qed.

(** A stack of depth at least two ends with its two top slots. *)
Lemma two_top_slots (st : type_stack) :
  2 <= List.length st ->
  exists rest a b, st = (rest ++ [a; b])%list.
Proof.
  intros H.
  destruct (rev st) as [|b [|a r]] eqn:E.
  - apply (f_equal (@List.length _)) in E. rewrite length_rev in E.
    simpl in E. lia.
  - apply (f_equal (@List.length _)) in E. rewrite length_rev in E.
    simpl in E. lia.
  - exists (rev r), a, b.
    rewrite <- (rev_involutive st), E. simpl.
    now rewrite <- app_assoc.
Qed.

Lemma app_two_slots {A : Type} (rest : list A) (a b : A) :
  (rest ++ [a; b] = (rest ++ [a]) ++ [b])%list.
Proof. now rewrite <- app_assoc. Qed.

(** Running the depth check and the two top pops of a binary operator. *)
Ltac tc_two_pops :=
  unfold tc_bind;
  rewrite raise_for_enough_arguments_ok
    by (rewrite length_app; simpl; lia);
  rewrite app_two_slots, !pop_argument_type_top.

(** ** PLUS and MINUS *)

(** What the [PLUS]/[MINUS] arm does on a stack whose two top slots are
    [a] (lower) and [b] (upper). *)
Lemma check_plus_minus (operator : Operator) (i : Intrinsic)
    (rest : type_stack) (a b : GofraType) :
  i = PLUS \/ i = MINUS ->
  check_intrinsic operator i (rest ++ [a; b])%list
  = match a, b with
    | POINTER, INTEGER => Ok (tt, rest ++ [POINTER])%list
    | POINTER, _ =>
        Raise (TypecheckInvalidPointerArithmeticsError a b operator)
    | INTEGER, INTEGER => Ok (tt, rest ++ [INTEGER])%list
    | INTEGER, _ => Raise (InvalidArgumentTypeError INTEGER b operator)
    | BOOLEAN, _ => Raise (InvalidArgumentTypeError INTEGER BOOLEAN operator)
    end.
Proof.
  intros [-> | ->]; simpl check_intrinsic; tc_two_pops;
    destruct a, b; cbn [GofraType_eqb negb]; try reflexivity;
    unfold push_types;
    rewrite app_two_slots, pop_and_raise_top; cbn [GofraType_eqb];
    try reflexivity;
    rewrite pop_and_raise_top; reflexivity.
Qed.

(** C7: for a PLUS or MINUS intrinsic over a stack of depth at least two,
    with [b] the upper popped type and [a] the lower popped type: POINTER
    below INTEGER is accepted and pushes POINTER, two INTEGERs are accepted
    and push INTEGER, and every other combination is rejected with an
    error; so POINTER + INTEGER is accepted and INTEGER + POINTER is
    rejected. *)
Theorem plus_minus_rule (str_of_Intrinsic : Intrinsic -> string)
    (program_context : ProgramContext) (operator : Operator) (i : Intrinsic)
    (st : type_stack) :
  type operator = INTRINSIC ->
  operand operator = OIntrinsic i ->
  i = PLUS \/ i = MINUS ->
  2 <= List.length st ->
  exists rest a b,
    st = (rest ++ [a; b])%list /\
    let result := check_operator str_of_Intrinsic program_context operator st in
    (a = POINTER -> b = INTEGER -> result = Ok (tt, rest ++ [POINTER])%list) /\
    (a = INTEGER -> b = INTEGER -> result = Ok (tt, rest ++ [INTEGER])%list) /\
    (~ (a = POINTER /\ b = INTEGER) -> ~ (a = INTEGER /\ b = INTEGER) ->
     exists e, result = Raise e) /\
    (a = INTEGER -> b = POINTER -> exists e, result = Raise e).
Proof.
  intros Htype Hoperand Hi Hdepth.
  destruct (two_top_slots st Hdepth) as (rest & a & b & ->).
  exists rest, a, b. split; [reflexivity|].
  unfold check_operator. rewrite Htype, Hoperand.
  rewrite (check_plus_minus operator i rest a b Hi).
  repeat split.
  - intros -> ->. reflexivity.
  - intros -> ->. reflexivity.
  - intros H1 H2. destruct a, b; eauto; exfalso; tauto.
  - intros -> ->. eauto.
Qed.

Lemma plus_minus_rule_witness :
  exists rest a b,
    [POINTER; INTEGER] = (rest ++ [a; b])%list /\
    let result :=
      check_operator qualified_name empty_context (intrinsic PLUS)
        [POINTER; INTEGER] in
    (a = POINTER -> b = INTEGER -> result = Ok (tt, rest ++ [POINTER])%list) /\
    (a = INTEGER -> b = INTEGER -> result = Ok (tt, rest ++ [INTEGER])%list) /\
    (~ (a = POINTER /\ b = INTEGER) -> ~ (a = INTEGER /\ b = INTEGER) ->
     exists e, result = Raise e) /\
    (a = INTEGER -> b = POINTER -> exists e, result = Raise e).
Proof.
  apply (plus_minus_rule qualified_name empty_context (intrinsic PLUS) PLUS
           [POINTER; INTEGER]).
  - reflexivity.
  - reflexivity.
  - left; reflexivity.
  - simpl; lia.
Defined.

(** C5 as stated fails: the scenario [PUSH_INTEGER 5, PUSH_STRING "x",
    INTRINSIC DROP, INTRINSIC PLUS] is rejected, but with the argument-type
    error of the typed pop, not with the pointer-arithmetics error: that
    one is raised only when the lower slot is POINTER. *)
Lemma integer_plus_pointer_error_kind :
  validate_type_safety qualified_name empty_context integer_plus_pointer
  = Raise (InvalidArgumentTypeError INTEGER POINTER (intrinsic PLUS))
  /\ (forall lhs rhs operator,
        validate_type_safety qualified_name empty_context integer_plus_pointer
        <> Raise (TypecheckInvalidPointerArithmeticsError lhs rhs operator)).
Proof.
  assert (E : validate_type_safety qualified_name empty_context
                integer_plus_pointer
              = Raise (InvalidArgumentTypeError INTEGER POINTER
                         (intrinsic PLUS)))
    by reflexivity.
  split; [exact E|].
  intros lhs rhs operator. rewrite E. discriminate.
Qed.

(** ** The check at the end *)

(** C8: top-level validation succeeds only if the abstract stack is empty
    after the whole operator sequence has been processed; otherwise it
    raises the non-empty-stack error carrying the residual stack size;
    the program [PUSH_INTEGER 1] fails with that error and size 1. *)
Theorem non_empty_stack_at_end (str_of_Intrinsic : Intrinsic -> string)
    (program_context : ProgramContext) (ops : list Operator)
    (u : unit) (st : type_stack) :
  check_operators str_of_Intrinsic program_context ops [] = Ok (u, st) ->
  (validate_type_safety str_of_Intrinsic program_context ops = Ok tt
   <-> st = [])
  /\ (st <> [] ->
      validate_type_safety str_of_Intrinsic program_context ops
      = Raise (TypecheckNonEmptyStackAtEndError (List.length st)))
  /\ validate_type_safety str_of_Intrinsic program_context [push_integer 1]
     = Raise (TypecheckNonEmptyStackAtEndError 1).
Proof.
  intros Hrun. unfold validate_type_safety at 1 2. rewrite Hrun.
  destruct st as [|t st].
  - repeat split; congruence.
  - repeat split; congruence.
Qed.

Lemma non_empty_stack_at_end_witness :
  (validate_type_safety qualified_name empty_context
     [push_integer 1; push_integer 2] = Ok tt
   <-> [INTEGER; INTEGER] = [])
  /\ ([INTEGER; INTEGER] <> [] ->
      validate_type_safety qualified_name empty_context
        [push_integer 1; push_integer 2]
      = Raise (TypecheckNonEmptyStackAtEndError 2))
  /\ validate_type_safety qualified_name empty_context [push_integer 1]
     = Raise (TypecheckNonEmptyStackAtEndError 1).
Proof.
  apply (non_empty_stack_at_end qualified_name empty_context
           [push_integer 1; push_integer 2] tt [INTEGER; INTEGER]).
  reflexivity.
Defined.

(** A run that raises inside the loop never reaches the check at the end:
    validation raises the same exception. *)
Lemma validate_type_safety_raises_in_loop
    (str_of_Intrinsic : Intrinsic -> string)
    (program_context : ProgramContext) (ops : list Operator) (e : Raised) :
  check_operators str_of_Intrinsic program_context ops [] = Raise e ->
  validate_type_safety str_of_Intrinsic program_context ops = Raise e.
Proof. intros H. unfold validate_type_safety. now rewrite H. Qed.

(** ** Function bodies *)

Lemma functions_get_with_bodies (body : Function -> list Operator)
    (inline external : Function -> bool) (pc : ProgramContext)
    (key : string) :
  functions_get key (functions (with_bodies body inline external pc))
  = option_map
      (fun f => mkFunction (name f) (body f) (type_contract_in f)
                  (type_contract_out f) (inline f) (external f))
      (functions_get key (functions pc)).
Proof.
  unfold with_bodies; simpl.
  induction (functions pc) as [|[k f] table IH]; simpl.
  - reflexivity.
  - destruct (String.eqb k key); [reflexivity | exact IH].
Qed.

Lemma check_operator_with_bodies (str_of_Intrinsic : Intrinsic -> string)
    (body : Function -> list Operator) (inline external : Function -> bool)
    (pc : ProgramContext) (operator : Operator) (st : type_stack) :
  check_operator str_of_Intrinsic (with_bodies body inline external pc)
    operator st
  = check_operator str_of_Intrinsic pc operator st.
Proof.
  unfold check_operator.
  destruct (type operator); try reflexivity.
  rewrite functions_get_with_bodies.
  change (in_extern_functions ?n (with_bodies body inline external pc))
    with (in_extern_functions n pc).
  destruct (in_extern_functions _ pc); [reflexivity|].
  destruct (functions_get _ (functions pc)); reflexivity.
Qed.

Lemma check_operators_with_bodies (str_of_Intrinsic : Intrinsic -> string)
    (body : Function -> list Operator) (inline external : Function -> bool)
    (pc : ProgramContext) (ops : list Operator) (st : type_stack) :
  check_operators str_of_Intrinsic (with_bodies body inline external pc)
    ops st
  = check_operators str_of_Intrinsic pc ops st.
Proof.
  revert st. induction ops as [|operator rest IH]; intros st; simpl.
  - reflexivity.
  - unfold tc_bind. rewrite check_operator_with_bodies.
    destruct (check_operator str_of_Intrinsic pc operator st) as [[? st']|];
      [apply IH | reflexivity].
Qed.

(** C1 as stated fails: validation of the top level accepts a program one
    of whose functions has a body that cannot be type-checked from its
    input contract: the bodies of the table are not visited. *)
Lemma ill_typed_body_accepted :
  validate_type_safety qualified_name program_with_ill_typed_body
    (operators program_with_ill_typed_body) = Ok tt
  /\ In ("f", dropping_function) (functions program_with_ill_typed_body)
  /\ is_externally_defined dropping_function = false
  /\ emit_inline_body dropping_function = false
  /\ check_operators qualified_name program_with_ill_typed_body
       (source dropping_function) (type_contract_in dropping_function)
     = Raise (InsufficientOperandsError (intrinsic DROP) 1)
  /\ ~ validation_covers_function_bodies qualified_name.
Proof.
  assert (Hin : In ("f", dropping_function)
                  (functions program_with_ill_typed_body))
    by (left; reflexivity).
  repeat split; try reflexivity; try exact Hin.
  intros Hclaim.
  specialize (Hclaim program_with_ill_typed_body eq_refl
                "f" dropping_function Hin eq_refl eq_refl).
  discriminate Hclaim.
Qed.

(** The CALL arm reads the program context through [callee_of] only. *)
Lemma check_operator_same_at_call_site
    (str_of_Intrinsic : Intrinsic -> string) (pc pc' : ProgramContext)
    (operator : Operator) (st : type_stack) :
  (type operator = CALL ->
   callee_of pc (str_of_operand str_of_Intrinsic (operand operator))
   = callee_of pc' (str_of_operand str_of_Intrinsic (operand operator))) ->
  check_operator str_of_Intrinsic pc' operator st
  = check_operator str_of_Intrinsic pc operator st.
Proof.
  unfold check_operator, callee_of. intros Hsame.
  destruct (type operator); try reflexivity.
  specialize (Hsame eq_refl).
  destruct (in_extern_functions _ pc), (in_extern_functions _ pc');
    try reflexivity;
    try (destruct (functions_get _ (functions pc)); discriminate Hsame);
    try (destruct (functions_get _ (functions pc')); discriminate Hsame).
  destruct (functions_get _ (functions pc)) as [f|],
           (functions_get _ (functions pc')) as [f'|];
    try discriminate Hsame; try reflexivity.
  injection Hsame as Hin Hout. now rewrite Hin, Hout.
Qed.

Lemma check_operators_same_at_call_sites
    (str_of_Intrinsic : Intrinsic -> string) (pc pc' : ProgramContext)
    (ops : list Operator) :
  same_at_call_sites str_of_Intrinsic ops pc pc' ->
  forall st : type_stack,
    check_operators str_of_Intrinsic pc' ops st
    = check_operators str_of_Intrinsic pc ops st.
Proof.
  induction ops as [|operator rest IH]; intros Hsame st; simpl.
  - reflexivity.
  - unfold tc_bind.
    rewrite (check_operator_same_at_call_site str_of_Intrinsic pc pc')
      by (apply Hsame; now left).
    destruct (check_operator str_of_Intrinsic pc operator st) as [[? st']|];
      [|reflexivity].
    apply IH. intros o Hin. apply Hsame. now right.
Qed.

(** C1, amended: the type-checker validates the operator sequence it is
    given and nothing else.  The abstract stack starts empty and the
    sequence is accepted exactly when the loop ends with an empty stack;
    the bodies and the inline/external flags of the functions of the table
    play no part in the result; and a function's contracts are read at
    its CALL sites only: two program contexts that give the same reading
    (external, or the two contracts of the record, or no record) for the
    names that the CALLs of the sequence name give the same result,
    whatever else they hold. *)
Theorem validation_checks_the_given_sequence_only
    (str_of_Intrinsic : Intrinsic -> string)
    (body : Function -> list Operator) (inline external : Function -> bool)
    (pc : ProgramContext) (ops : list Operator) :
  validate_type_safety str_of_Intrinsic
    (with_bodies body inline external pc) ops
  = validate_type_safety str_of_Intrinsic pc ops
  /\ (validate_type_safety str_of_Intrinsic pc ops = Ok tt
      <-> check_operators str_of_Intrinsic pc ops [] = Ok (tt, []))
  /\ (forall pc' : ProgramContext,
        same_at_call_sites str_of_Intrinsic ops pc pc' ->
        validate_type_safety str_of_Intrinsic pc' ops
        = validate_type_safety str_of_Intrinsic pc ops).
Proof.
  split; [|split].
  - unfold validate_type_safety.
    now rewrite check_operators_with_bodies.
  - unfold validate_type_safety.
    destruct (check_operators str_of_Intrinsic pc ops [])
      as [[[] [|t st]]|e]; split; intros H; try discriminate H;
      try reflexivity; inversion H.
  - intros pc' Hsame. unfold validate_type_safety.
    now rewrite (check_operators_same_at_call_sites _ _ _ _ Hsame).
Qed.

Lemma validation_checks_the_given_sequence_only_witness :
  same_at_call_sites qualified_name two_calls
    context_of_two_calls other_context_of_two_calls
  /\ validate_type_safety qualified_name other_context_of_two_calls two_calls
     = validate_type_safety qualified_name context_of_two_calls two_calls
  /\ validate_type_safety qualified_name context_of_two_calls two_calls
     = Ok tt.
Proof.
  assert (Hsame : same_at_call_sites qualified_name two_calls
                    context_of_two_calls other_context_of_two_calls).
  { intros operator Hin Htype. simpl in Hin.
    destruct Hin as [<- | [<- | [<- | [<- | [<- | []]]]]];
      try discriminate Htype; reflexivity. }
  destruct (validation_checks_the_given_sequence_only qualified_name
              source emit_inline_body is_externally_defined
              context_of_two_calls two_calls)
    as (_ & _ & Hcall_sites).
  split; [exact Hsame|].
  split; [exact (Hcall_sites other_context_of_two_calls Hsame)|].
  reflexivity.
Defined.

(** ** The backend, operator by operator *)

Lemma write_appends (lines : list string) (c : CodegenContext) :
  write lines c
  = (mkCodegenContext (fd c ++ map Ins lines)%list (strings c), Ok tt).
Proof. reflexivity. Qed.

Lemma unchanged_write (operator : Operator) (lines : list string)
    (c : CodegenContext) :
  unchanged operator (write lines) c
  = (mkCodegenContext (fd c ++ map Ins lines)%list (strings c),
     operator, Ok tt).
Proof. reflexivity. Qed.

(** The debug comment comes first and leaves the rest of the turn as it
    is without it. *)
Lemma write_operator_after_comment (int_of_Intrinsic : Intrinsic -> option Z)
    (pc : ProgramContext) (debug_comments : bool) (idx : nat)
    (operator : Operator) (c : CodegenContext) (comment : string) :
  debug_operator_comment operator = Ok comment ->
  write_operator int_of_Intrinsic pc debug_comments idx operator c
  = write_operator int_of_Intrinsic pc false idx operator
      (mkCodegenContext (fd c ++ debug_lines debug_comments operator)%list
         (strings c)).
Proof.
  intros Hcomment.
  unfold write_operator, debug_lines, _write_debug_operator_comment.
  rewrite Hcomment.
  destruct debug_comments.
  - reflexivity.
  - destruct c as [out table]; simpl. now rewrite app_nil_r.
Qed.

(** The comment of an operator that is not an intrinsic, or that is one
    with an intrinsic as its operand, does not raise. *)
Lemma debug_operator_comment_ok (operator : Operator) :
  (type operator = INTRINSIC ->
   exists i, operand operator = OIntrinsic i) ->
  exists comment, debug_operator_comment operator = Ok comment.
Proof.
  intros H. unfold debug_operator_comment.
  destruct (type operator); try (eexists; reflexivity).
  destruct (H eq_refl) as [i ->]. eexists; reflexivity.
Qed.

(** C2, on the code: the template written for MEMORY_LOAD reads the top
    slot and overwrites it in place; it holds no [add SP, SP, #16], so SP
    does not move and the depth of the data stack stays as it was, while
    the type-checker takes two slots and gives one back. *)
Theorem memory_load_template_keeps_depth
    (str_of_Intrinsic : Intrinsic -> string)
    (int_of_Intrinsic : Intrinsic -> option Z)
    (pc : ProgramContext) (debug_comments : bool) (idx : nat)
    (operator : Operator) (rest : type_stack) (a b : GofraType)
    (c : CodegenContext) :
  type operator = INTRINSIC ->
  operand operator = OIntrinsic MEMORY_LOAD ->
  check_operator str_of_Intrinsic pc operator (rest ++ [a; b])%list
  = Ok (tt, rest ++ [INTEGER])%list
  /\ write_operator int_of_Intrinsic pc debug_comments idx operator c
     = (mkCodegenContext
          (fd c ++ debug_lines debug_comments operator
             ++ map Ins memory_load_template)%list
          (strings c),
        operator, Ok tt)
  /\ sp_change (map Ins memory_load_template) = 0%Z
  /\ sp_change (map Ins memory_load_template) <> 16%Z.
Proof.
  intros Htype Hoperand. repeat split.
  - unfold check_operator. rewrite Htype, Hoperand.
    simpl check_intrinsic. tc_two_pops. reflexivity.
  - destruct (debug_operator_comment_ok operator) as [comment Hcomment].
    { intros _. now exists MEMORY_LOAD. }
    rewrite (write_operator_after_comment _ _ _ _ _ _ _ Hcomment).
    unfold write_operator. rewrite Htype, Hoperand.
    cbn [cg_ret write_intrinsic]. rewrite unchanged_write.
    cbn [fd strings]. now rewrite <- app_assoc.
  - discriminate.
Qed.

Lemma memory_load_template_keeps_depth_witness :
  check_operator qualified_name empty_context (intrinsic MEMORY_LOAD)
    ([] ++ [POINTER; INTEGER])%list
  = Ok (tt, [] ++ [INTEGER])%list
  /\ write_operator not_an_integer empty_context false 0
       (intrinsic MEMORY_LOAD) (mkCodegenContext [] [])
     = (mkCodegenContext
          (fd (mkCodegenContext [] [])
             ++ debug_lines false (intrinsic MEMORY_LOAD)
             ++ map Ins memory_load_template)%list
          (strings (mkCodegenContext [] [])),
        intrinsic MEMORY_LOAD, Ok tt)
  /\ sp_change (map Ins memory_load_template) = 0%Z
  /\ sp_change (map Ins memory_load_template) <> 16%Z.
Proof.
  apply (memory_load_template_keeps_depth qualified_name not_an_integer
           empty_context false 0 (intrinsic MEMORY_LOAD) [] POINTER INTEGER
           (mkCodegenContext [] []));
    reflexivity.
Defined.

(** ** Syscalls *)

(** In the loop of the syscall arm, for [arg_n >= 1], the register
    [arity - arg_n - 2] is filled from the slot one above it: after the
    last slot has been removed, [injected_args[-arg_n]] is slot
    [arity - arg_n - 1] of the original list. *)
Lemma syscall_register_reads_slot_above (own : list (option Z))
    (arg_n : nat) :
  1 <= arg_n ->
  arg_n + 2 <= List.length own ->
  index_from_end (removelast own) arg_n
  = nth_error own (S (List.length own - arg_n - 2)).
Proof.
  intros Hpos Hrange. unfold index_from_end.
  rewrite removelast_firstn_len, length_firstn.
  replace (Nat.min (Nat.pred (List.length own)) (List.length own))
    with (Nat.pred (List.length own)) by lia.
  destruct (Nat.leb_spec arg_n (Nat.pred (List.length own))); [|lia].
  rewrite nth_error_firstn.
  destruct (Nat.ltb_spec (Nat.pred (List.length own) - arg_n)
              (Nat.pred (List.length own))); [|lia].
  f_equal. lia.
Qed.

(** C3, on the code, for a syscall with three slots [s0, s1, s2]: X16 is
    filled from slot 2 as the specification says, but X1 is always popped
    from the data stack, whatever slot 1 holds, and X0 is filled from
    slot 1, not from slot 0; the last slot is removed from the operator's
    own list.  With the slots [5, None, 1] the code pops the stack into
    X0 where the specification moves the immediate 5 into it. *)
Theorem syscall2_registers_read_the_wrong_slots
    (int_of_Intrinsic : Intrinsic -> option Z)
    (pc : ProgramContext) (debug_comments : bool) (idx : nat)
    (operator : Operator) (s0 s1 s2 : option Z) (c : CodegenContext) :
  type operator = INTRINSIC ->
  operand operator = OIntrinsic SYSCALL2 ->
  syscall_optimization_injected_args operator = Some [s0; s1; s2] ->
  write_operator int_of_Intrinsic pc debug_comments idx operator c
  = (mkCodegenContext
       (fd c ++ debug_lines debug_comments operator
          ++ map Ins
               (fill_register "X16" s2 ++ pop_into "X1"
                  ++ fill_register "X0" s1 ++ ["svc #0"]
                  ++ (if syscall_optimization_omit_result operator
                      then [] else push_X0)))%list
       (strings c),
     set_injected_args operator (Some [s0; s1]), Ok tt)
  /\ write_operator int_of_Intrinsic pc false idx syscall2_injected
       (mkCodegenContext [] [])
     = (mkCodegenContext
          (map Ins ["mov X16, #1"; "ldr X1, [SP]"; "add SP, SP, #16";
                    "ldr X0, [SP]"; "add SP, SP, #16"; "svc #0"])
          [],
        set_injected_args syscall2_injected (Some [Some 5%Z; None]), Ok tt)
  /\ syscall2_lowering_of_spec (Some 5%Z) None (Some 1%Z) true
     = ["mov X16, #1"; "ldr X1, [SP]"; "add SP, SP, #16"; "mov X0, #5";
        "svc #0"].
Proof.
  intros Htype Hoperand Hinjected. repeat split.
  destruct (debug_operator_comment_ok operator) as [comment Hcomment].
  { intros _. now exists SYSCALL2. }
  rewrite (write_operator_after_comment _ _ _ _ _ _ _ Hcomment).
  unfold write_operator. rewrite Htype, Hoperand.
  cbn [cg_ret write_intrinsic].
  unfold write_syscall, get_syscall_arguments_count.
  rewrite Hoperand, Hinjected.
  destruct s0, s1, s2, (syscall_optimization_omit_result operator);
    cbn -[fmt_Z debug_lines]; rewrite <- ?app_assoc; reflexivity.
Qed.

Lemma syscall2_registers_read_the_wrong_slots_witness :
  write_operator not_an_integer empty_context false 0 syscall2_injected
    (mkCodegenContext [] [])
  = (mkCodegenContext
       (fd (mkCodegenContext [] []) ++ debug_lines false syscall2_injected
          ++ map Ins
               (fill_register "X16" (Some 1%Z) ++ pop_into "X1"
                  ++ fill_register "X0" None ++ ["svc #0"]
                  ++ (if syscall_optimization_omit_result syscall2_injected
                      then [] else push_X0)))%list
       (strings (mkCodegenContext [] [])),
     set_injected_args syscall2_injected (Some [Some 5%Z; None]), Ok tt).
Proof.
  apply (syscall2_registers_read_the_wrong_slots not_an_integer empty_context
           false 0 syscall2_injected (Some 5%Z) None (Some 1%Z)
           (mkCodegenContext [] []));
    reflexivity.
Defined.

(** ** Calls *)

Lemma pop_into_registers_appends (registers : list nat)
    (c : CodegenContext) :
  pop_into_registers registers c
  = (mkCodegenContext
       (fd c ++ map Ins
                  (flat_map (fun r => pop_into ("X" ++ fmt_nat r)%string)
                     registers))%list
       (strings c),
     Ok tt).
Proof.
  revert c. induction registers as [|r rest IH]; intros c.
  - destruct c; simpl. now rewrite app_nil_r.
  - simpl. unfold cg_bind. rewrite !write_appends, IH.
    cbn [fd strings map]. now rewrite <- !app_assoc.
Qed.

(** C9: for a CALL whose target is both in the function table and in the
    external set, the type-checker applies the external contract (one
    INTEGER popped, one INTEGER pushed) whatever the record declares,
    while the backend lowers the call from the record of the function. *)
Theorem call_of_shadowed_name
    (str_of_Intrinsic : Intrinsic -> string)
    (int_of_Intrinsic : Intrinsic -> option Z)
    (pc : ProgramContext) (debug_comments : bool) (idx : nat)
    (operator : Operator) (function_name : string) (f : Function)
    (c : CodegenContext) :
  type operator = CALL ->
  operand operator = OStr function_name ->
  in_extern_functions function_name pc = true ->
  functions_get function_name (functions pc) = Some f ->
  (check_operator str_of_Intrinsic pc operator []
   = Raise (InsufficientOperandsError operator 1))
  /\ (forall rest,
        check_operator str_of_Intrinsic pc operator (rest ++ [INTEGER])%list
        = Ok (tt, rest ++ [INTEGER])%list)
  /\ (forall rest t,
        t <> INTEGER ->
        check_operator str_of_Intrinsic pc operator (rest ++ [t])%list
        = Raise (InvalidArgumentTypeError INTEGER t operator))
  /\ write_operator int_of_Intrinsic pc debug_comments idx operator c
     = (mkCodegenContext
          (fd c ++ debug_lines debug_comments operator
             ++ map Ins (call_lowering_of_record function_name f))%list
          (strings c),
        operator, Ok tt).
Proof.
  intros Htype Hoperand Hextern Htable.
  assert (Hcheck : forall st,
             check_operator str_of_Intrinsic pc operator st
             = (raise_for_enough_arguments operator 1 ;;
                pop_and_raise_for_argument_type INTEGER operator ;;
                push_types [INTEGER])%tc st).
  { intros st. unfold check_operator.
    rewrite Htype, Hoperand. cbn [str_of_operand].
    now rewrite Hextern. }
  repeat split.
  - rewrite Hcheck. reflexivity.
  - intros rest. rewrite Hcheck. unfold tc_bind.
    rewrite raise_for_enough_arguments_ok
      by (rewrite length_app; simpl; lia).
    rewrite pop_and_raise_top. reflexivity.
  - intros rest t Ht. rewrite Hcheck. unfold tc_bind.
    rewrite raise_for_enough_arguments_ok
      by (rewrite length_app; simpl; lia).
    rewrite pop_and_raise_top.
    destruct t; try reflexivity. congruence.
  - destruct (debug_operator_comment_ok operator) as [comment Hcomment].
    { rewrite Htype. discriminate. }
    rewrite (write_operator_after_comment _ _ _ _ _ _ _ Hcomment).
    unfold write_operator. rewrite Htype, Hoperand, Htable.
    cbn [cg_ret]. unfold unchanged, cg_bind, call_lowering_of_record.
    destruct (is_externally_defined f), (type_contract_out f);
      rewrite ?pop_into_registers_appends; unfold cg_ret;
      rewrite ?write_appends; cbn [fd strings];
      rewrite ?map_app, <- ?app_assoc; reflexivity.
Qed.

Lemma call_of_shadowed_name_witness :
  check_operator qualified_name program_with_shadowed_name (call "puts")
    [INTEGER]
  = Ok (tt, [INTEGER])
  /\ write_operator not_an_integer program_with_shadowed_name false 0
       (call "puts") (mkCodegenContext [] [])
     = (mkCodegenContext
          (map Ins ["ldr X1, [SP]"; "add SP, SP, #16"; "ldr X0, [SP]";
                    "add SP, SP, #16"; "bl puts"])
          [],
        call "puts", Ok tt).
Proof.
  destruct (call_of_shadowed_name qualified_name not_an_integer
              program_with_shadowed_name false 0 (call "puts") "puts"
              shadowed_function (mkCodegenContext [] [])
              eq_refl eq_refl eq_refl eq_refl)
    as (_ & Haccepted & _ & Hlowered).
  split; [exact (Haccepted []) | exact Hlowered].
Defined.

(** ** String literals *)

(** C10: for a PUSH_STRING operator the backend interns the text of the
    token without its first and last character as the payload of the
    [.string] directive, and pushes as length the length of the operand
    string; the length comes from the operand, not from the payload, so
    the two disagree when operand and stripped token text differ, as they
    do for a literal with an escape. *)
Theorem push_string_payload_and_length
    (int_of_Intrinsic : Intrinsic -> option Z)
    (pc : ProgramContext) (debug_comments : bool) (idx : nat)
    (operator : Operator) (value : string) (c : CodegenContext) :
  type operator = PUSH_STRING ->
  operand operator = OStr value ->
  let label := ("str_" ++ fmt_nat (List.length (strings c)))%string in
  let payload := strip_first_last (text (token operator)) in
  write_operator int_of_Intrinsic pc debug_comments idx operator c
  = (mkCodegenContext
       (fd c ++ debug_lines debug_comments operator
          ++ map Ins
               ["sub SP, SP, #16"; ("adr X0, " ++ label)%string;
                "str X0, [SP]"; "sub SP, SP, #16";
                ("mov X0, #" ++ fmt_nat (String.length value))%string;
                "str X0, [SP]"])%list
       (strings c ++ [(label, payload)])%list,
     operator, Ok tt)
  /\ (String.length value <> String.length payload ->
      fmt_nat (String.length value) <> fmt_nat (String.length payload))
  /\ (operand escaped_literal = OStr ("a" ++ newline)
      /\ String.length ("a" ++ newline) = 2
      /\ String.length (strip_first_last (text (token escaped_literal))) = 3).
Proof.
  intros Htype Hoperand label payload. repeat split.
  - destruct (debug_operator_comment_ok operator) as [comment Hcomment].
    { rewrite Htype. discriminate. }
    rewrite (write_operator_after_comment _ _ _ _ _ _ _ Hcomment).
    unfold write_operator. rewrite Htype, Hoperand.
    cbn [cg_ret]. unfold unchanged, cg_bind, load_string.
    rewrite write_appends. cbn [fd strings].
    now rewrite <- app_assoc.
  - intros Hlen Hfmt. apply Hlen. now apply fmt_nat_inj.
Qed.

Lemma push_string_payload_and_length_witness :
  write_operator not_an_integer empty_context false 0 escaped_literal
    (mkCodegenContext [] [])
  = (mkCodegenContext
       (map Ins ["sub SP, SP, #16"; "adr X0, str_0"; "str X0, [SP]";
                 "sub SP, SP, #16"; "mov X0, #2"; "str X0, [SP]"])
       [("str_0", "a\n")],
     escaped_literal, Ok tt)
  /\ fmt_nat 2 <> fmt_nat 3.
Proof.
  destruct (push_string_payload_and_length not_an_integer empty_context
              false 0 escaped_literal ("a" ++ newline)
              (mkCodegenContext [] []) eq_refl eq_refl)
    as (Hwritten & Hdiffer & _).
  split; [exact Hwritten|].
  apply Hdiffer. simpl. lia.
Defined.

(** ** Running the backend twice *)

Lemma append_inv_head (p a b : string) :
  (p ++ a)%string = (p ++ b)%string -> a = b.
Proof.
  induction p as [|ch p IH]; simpl; intros H.
  - exact H.
  - injection H as H. now apply IH.
Qed.

(** C4, on the code: the syscall arm removes the last slot from the
    operator's own injected-args list, so a run of the backend changes
    the program context, and a second run on the same context writes a
    different text.  For the program that is one SYSCALL0 with the
    number 60 injected, the first run moves the immediate into X16 and
    the second run pops X16 from the data stack. *)
Theorem second_run_writes_another_text
    (str_of_Intrinsic : Intrinsic -> string)
    (int_of_Intrinsic : Intrinsic -> option Z) (now now' : string) :
  let first_run :=
    generate_ARM64_MacOS_backend int_of_Intrinsic now exit_program false in
  let second_run :=
    generate_ARM64_MacOS_backend int_of_Intrinsic now'
      (context_after first_run) false in
  validate_type_safety str_of_Intrinsic exit_program (operators exit_program)
  = Ok tt
  /\ raised first_run = None
  /\ raised second_run = None
  /\ In (Ins "mov X16, #60") (output first_run)
  /\ In (Ins "ldr X16, [SP]") (output second_run)
  /\ context_after first_run <> exit_program
  /\ output first_run <> output second_run
  /\ (forall indent : string,
        render indent (output first_run)
        <> render indent (output second_run)).
Proof.
  intros first_run second_run.
  assert (H1 : output first_run
               = [Raw (".global _start" ++ newline);
                  Raw (".align 4" ++ newline ++ newline);
                  Raw ("_start:" ++ newline);
                  Ins "mov X16, #60"; Ins "svc #0";
                  Ins "mov X0, #0"; Ins "mov X16, #1"; Ins "svc #0";
                  Raw ("mem_buffer: .space 1000" ++ newline)])
    by reflexivity.
  assert (H2 : output second_run
               = [Raw (".global _start" ++ newline);
                  Raw (".align 4" ++ newline ++ newline);
                  Raw ("_start:" ++ newline);
                  Ins "ldr X16, [SP]"; Ins "add SP, SP, #16"; Ins "svc #0";
                  Ins "mov X0, #0"; Ins "mov X16, #1"; Ins "svc #0";
                  Raw ("mem_buffer: .space 1000" ++ newline)])
    by reflexivity.
  repeat split.
  - rewrite H1. simpl. tauto.
  - rewrite H2. simpl. tauto.
  - discriminate.
  - rewrite H1, H2. discriminate.
  - intros indent. rewrite H1, H2. cbn [render]. intros H.
    do 4 apply append_inv_head in H.
    discriminate H.
Qed.

(** ** Where a pop can reach the bottom *)

Lemma one_top_slot (st : type_stack) :
  1 <= List.length st -> exists rest a, st = (rest ++ [a])%list.
Proof.
  intros H. destruct st as [|t st]; [simpl in H; lia|].
  destruct (exists_last (l := t :: st)) as (rest & a & E); [discriminate|].
  now exists rest, a.
Qed.

Lemma consume_n_arguments_ok (n : nat) (st : type_stack) :
  n <= List.length st ->
  consume_n_arguments n st = Ok (tt, firstn (List.length st - n) st).
Proof.
  revert st. induction n as [|n IH]; intros st H.
  - simpl. unfold tc_ret. now rewrite Nat.sub_0_r, firstn_all.
  - destruct (one_top_slot st) as (rest & a & ->); [lia|].
    simpl. unfold tc_bind. rewrite pop_argument_type_top.
    rewrite length_app in *. simpl in *.
    rewrite IH by lia.
    replace (List.length rest + 1 - S n) with (List.length rest - n) by lia.
    rewrite firstn_app.
    replace (List.length rest - n - List.length rest) with 0 by lia.
    simpl. now rewrite app_nil_r.
Qed.

Lemma pop_and_raise_not_index_error (expected : GofraType)
    (operator : Operator) (st : type_stack) :
  1 <= List.length st ->
  pop_and_raise_for_argument_type expected operator st
  = Ok (tt, removelast st)
  \/ exists actual,
       pop_and_raise_for_argument_type expected operator st
       = Raise (InvalidArgumentTypeError expected actual operator).
Proof.
  intros H. destruct (one_top_slot st H) as (rest & a & ->).
  rewrite pop_and_raise_top, removelast_last.
  destruct (GofraType_eqb a expected); [now left | right; now exists a].
Qed.

Lemma pop_contract_not_index_error (contract : list GofraType)
    (operator : Operator) (st : type_stack) :
  List.length contract <= List.length st ->
  pop_contract contract operator st <> Raise IndexError.
Proof.
  revert st. induction contract as [|t contract IH]; intros st H.
  - discriminate.
  - simpl in *. unfold tc_bind.
    destruct (pop_and_raise_not_index_error t operator st) as [E | [a E]];
      [lia | | ]; rewrite E.
    + apply IH.
      destruct (one_top_slot st) as (rest & x & ->); [lia|].
      rewrite removelast_last. rewrite length_app in H. simpl in H. lia.
    + discriminate.
Qed.

(** After the depth check for [k] slots either the check has raised its
    own error or the stack holds [k] slots. *)
Ltac tc_depth_check :=
  unfold tc_bind, raise_for_enough_arguments;
  match goal with
  | |- context [(List.length ?st <? ?k)%nat] =>
      destruct (Nat.ltb_spec (List.length st) k); cbv beta iota;
      [discriminate|]
  end.

(** The only pop that can reach the bottom of the abstract stack is the
    second pop of SWAP, on a stack of depth 1: every other arm checks for
    as many slots as it pops. *)
Lemma index_error_only_from_swap (str_of_Intrinsic : Intrinsic -> string)
    (pc : ProgramContext) (operator : Operator) (st : type_stack) :
  check_operator str_of_Intrinsic pc operator st = Raise IndexError ->
  type operator = INTRINSIC
  /\ operand operator = OIntrinsic SWAP
  /\ List.length st = 1.
Proof.
  unfold check_operator.
  destruct (type operator) eqn:Htype; try discriminate.
  - (* INTRINSIC *)
    destruct (operand operator) as [| |i|] eqn:Hoperand; try discriminate.
    destruct i; simpl check_intrinsic.
    all: try (tc_depth_check;
              destruct (two_top_slots st) as (rest & a & b & ->);
              [assumption|];
              rewrite app_two_slots, !pop_argument_type_top;
              try discriminate;
              destruct a, b; cbn [GofraType_eqb negb orb]; unfold push_types;
              rewrite ?app_two_slots, ?pop_and_raise_top;
              cbn [GofraType_eqb]; rewrite ?pop_and_raise_top;
              cbn [GofraType_eqb]; discriminate).
    all: try (tc_depth_check;
              destruct (one_top_slot st) as (rest & a & ->); [assumption|];
              rewrite ?pop_and_raise_top, ?pop_argument_type_top;
              try discriminate;
              destruct a; cbn [GofraType_eqb]; discriminate).
    all: try (destruct (get_syscall_arguments_count operator)
                as [args_count|];
      [|discriminate];
      destruct (syscall_optimization_injected_args operator) as [[|x l]|];
      unfold tc_bind at 1; unfold push_types at 1, tc_ret at 1;
      cbv beta iota; tc_depth_check;
      rewrite consume_n_arguments_ok by assumption;
      destruct (syscall_optimization_omit_result operator); discriminate).
    (* SWAP *)
    tc_depth_check.
    destruct (one_top_slot st) as (rest & a & ->); [assumption|].
    rewrite pop_argument_type_top.
    destruct rest as [|t rest].
    * intros _. repeat split; reflexivity.
    * destruct (one_top_slot (t :: rest)) as (below & b & ->);
        [simpl; lia|].
      rewrite pop_argument_type_top. discriminate.
  - (* IF *)
    tc_depth_check.
    destruct (pop_and_raise_not_index_error BOOLEAN operator st)
      as [E | [a E]]; [assumption| |]; rewrite E; discriminate.
  - (* DO *)
    tc_depth_check.
    destruct (pop_and_raise_not_index_error BOOLEAN operator st)
      as [E | [a E]]; [assumption| |]; rewrite E; discriminate.
  - (* CALL *)
    destruct (in_extern_functions _ pc).
    + tc_depth_check.
      destruct (pop_and_raise_not_index_error INTEGER operator st)
        as [E | [a E]]; [assumption| |]; rewrite E; discriminate.
    + destruct (functions_get _ (functions pc)) as [function|];
        [|discriminate].
      tc_depth_check.
      pose proof (pop_contract_not_index_error
                    (rev (type_contract_in function)) operator st) as Hsafe.
      rewrite length_rev in Hsafe. specialize (Hsafe ltac:(assumption)).
      destruct (pop_contract (rev (type_contract_in function)) operator st)
        as [[? st']|e]; [discriminate|].
      intros [= ->]. now elim Hsafe.
Qed.

(** C6, at the operator where it fails: SWAP checks for one slot and pops
    two, so on a stack of depth 1 the second pop is a pop from an empty
    list and the run ends with Python's [IndexError] instead of the
    insufficient-operands error.  It is the only such place: no other
    operator, and no other depth, makes the type-checker pop past the
    bottom of the stack. *)
Theorem swap_pops_past_the_bottom (str_of_Intrinsic : Intrinsic -> string)
    (program_context : ProgramContext) (operator : Operator)
    (t : GofraType) :
  type operator = INTRINSIC ->
  operand operator = OIntrinsic SWAP ->
  check_operator str_of_Intrinsic program_context operator [t]
  = Raise IndexError
  /\ validate_type_safety str_of_Intrinsic program_context swap_at_depth_one
     = Raise IndexError
  /\ (forall (other : Operator) (st : type_stack),
        check_operator str_of_Intrinsic program_context other st
        = Raise IndexError ->
        type other = INTRINSIC
        /\ operand other = OIntrinsic SWAP
        /\ List.length st = 1).
Proof.
  intros Htype Hoperand. split; [|split].
  - unfold check_operator. rewrite Htype, Hoperand. reflexivity.
  - reflexivity.
  - intros other st. apply index_error_only_from_swap.
Qed.

Lemma swap_pops_past_the_bottom_witness :
  check_operator qualified_name empty_context (intrinsic SWAP) [BOOLEAN]
  = Raise IndexError
  /\ validate_type_safety qualified_name empty_context swap_at_depth_one
     = Raise IndexError.
Proof.
  destruct (swap_pops_past_the_bottom qualified_name empty_context
              (intrinsic SWAP) BOOLEAN eq_refl eq_refl)
    as (Hstep & Hrun & _).
  split; [exact Hstep | exact Hrun].
Defined.

(** ** What a run of the backend leaves of the program context *)

Lemma unchanged_keeps (operator : Operator) (m : CG unit)
    (c : CodegenContext) :
  snd (fst (unchanged operator m c)) = operator.
Proof. unfold unchanged. now destruct (m c). Qed.

Lemma write_syscall_keeps (operator : Operator) (c : CodegenContext) :
  has_injected_args operator = false ->
  snd (fst (write_syscall operator c)) = operator.
Proof.
  unfold has_injected_args, write_syscall. intros H.
  destruct (get_syscall_arguments_count operator) as [n|]; [|reflexivity].
  destruct (syscall_optimization_injected_args operator) as [[|x l]|];
    try discriminate.
  all: destruct (last (repeat None n) None);
    match goal with
    | |- context [write ?ls ?c0] => destruct (write ls c0) as [c1 r1]
    end;
    match goal with
    | |- context [cg_bind ?m ?k ?c0] => destruct (cg_bind m k c0)
    end; reflexivity.
Qed.

(** The lowering of an operator without injected args returns the
    operator as it was. *)
Lemma write_operator_keeps (int_of_Intrinsic : Intrinsic -> option Z)
    (pc : ProgramContext) (debug_comments : bool) (idx : nat)
    (operator : Operator) (c : CodegenContext) :
  has_injected_args operator = false ->
  snd (fst (write_operator int_of_Intrinsic pc debug_comments idx operator c))
  = operator.
Proof.
  intros H. unfold write_operator.
  destruct debug_comments;
    [destruct (_write_debug_operator_comment operator c) as [c0 [[]|e]];
     [|reflexivity]
    |unfold cg_ret at 1; cbv beta iota].
  all: destruct (type operator).
  all: repeat first
    [ apply unchanged_keeps
    | reflexivity
    | apply write_syscall_keeps; assumption
    | match goal with
      | |- context [operand ?o] => destruct (operand o)
      | |- context [jumps_to_operator_idx ?o] =>
          destruct (jumps_to_operator_idx o)
      | |- context [functions_get ?n ?t] => destruct (functions_get n t)
      | |- context [in_extern_functions ?n ?p] =>
          destruct (in_extern_functions n p)
      | |- snd (fst match ?x with Some _ => _ | None => _ end) = _ =>
          destruct x
      | |- context [write_intrinsic ?o ?i] =>
          destruct i; cbn [write_intrinsic]
      end ].
Qed.

Lemma write_operators_from_keeps (int_of_Intrinsic : Intrinsic -> option Z)
    (pc : ProgramContext) (debug_comments : bool) (ops : list Operator) :
  existsb has_injected_args ops = false ->
  forall (idx : nat) (c : CodegenContext),
    snd (fst (write_operators_from int_of_Intrinsic pc debug_comments
                idx ops c))
    = ops.
Proof.
  induction ops as [|operator rest IH]; intros H idx c; simpl.
  - reflexivity.
  - simpl in H. apply orb_false_elim in H as [Hop Hrest].
    pose proof (write_operator_keeps int_of_Intrinsic pc debug_comments
                  idx operator c Hop) as Hkept.
    destruct (write_operator int_of_Intrinsic pc debug_comments idx
                operator c) as [[c1 operator'] [[]|e]];
      simpl in Hkept; subst operator'.
    + specialize (IH Hrest (S idx) c1).
      destruct (write_operators_from int_of_Intrinsic pc debug_comments
                  (S idx) rest c1) as [[c2 rest'] result].
      simpl in *. now subst.
    + reflexivity.
Qed.

Lemma set_source_same (f : Function) : set_source f (source f) = f.
Proof. now destruct f. Qed.

Lemma write_function_table_keeps
    (int_of_Intrinsic : Intrinsic -> option Z)
    (pc : ProgramContext) (debug_comments : bool)
    (table : list (string * Function)) :
  existsb (fun entry : string * Function =>
             existsb has_injected_args (source (snd entry))) table = false ->
  forall c : CodegenContext,
    snd (fst (write_function_table int_of_Intrinsic pc debug_comments
                table c))
    = table.
Proof.
  induction table as [|[key f] rest IH]; intros H c; simpl.
  - reflexivity.
  - simpl in H. apply orb_false_elim in H as [Hbody Hrest].
    destruct (negb (emit_inline_body f) && negb (is_externally_defined f)).
    + set (c0 := mkCodegenContext _ (strings c)).
      unfold _write_executable_body_instruction_set.
      pose proof (write_operators_from_keeps int_of_Intrinsic pc
                    debug_comments (source f) Hbody 0 c0) as Hkept.
      destruct (write_operators_from int_of_Intrinsic pc debug_comments 0
                  (source f) c0) as [[c1 body] [[]|e]];
        simpl in Hkept; subst body; rewrite set_source_same.
      * set (c2 := mkCodegenContext _ (strings c1)).
        specialize (IH Hrest c2).
        destruct (write_function_table int_of_Intrinsic pc debug_comments
                    rest c2) as [[c3 rest'] result].
        simpl in *. now subst.
      * reflexivity.
    + specialize (IH Hrest c).
      destruct (write_function_table int_of_Intrinsic pc debug_comments
                  rest c) as [[c1 rest'] result].
      simpl in *. now subst.
Qed.

(** Where no operator carries injected args, a run of the backend leaves
    the program context as it found it, and a second run without debug
    comments writes what the first one wrote: the list that the syscall
    arm pops is the only part of the context the backend writes to. *)
Lemma backend_keeps_context_without_injected_args
    (int_of_Intrinsic : Intrinsic -> option Z) (now now' : string)
    (pc : ProgramContext) (debug_comments : bool) :
  program_has_injected_args pc = false ->
  context_after
    (generate_ARM64_MacOS_backend int_of_Intrinsic now pc debug_comments)
  = pc
  /\ generate_ARM64_MacOS_backend int_of_Intrinsic now'
       (context_after
          (generate_ARM64_MacOS_backend int_of_Intrinsic now pc false))
       false
     = generate_ARM64_MacOS_backend int_of_Intrinsic now pc false.
Proof.
  intros H. unfold program_has_injected_args in H.
  apply orb_false_elim in H as [Htop Htable].
  assert (Hkept : forall dbg,
             context_after
               (generate_ARM64_MacOS_backend int_of_Intrinsic now pc dbg)
             = pc).
  { intros dbg. unfold generate_ARM64_MacOS_backend.
    destruct ((if dbg then _write_debug_header_comment now
               else cg_ret tt) (mkCodegenContext [] [])) as [c0 r0].
    unfold _write_function_declarations.
    pose proof (write_function_table_keeps int_of_Intrinsic pc dbg
                  (functions pc) Htable c0) as Hfunctions.
    destruct (write_function_table int_of_Intrinsic pc dbg (functions pc)
                c0) as [[c1 table] [[]|e]];
      simpl in Hfunctions; subst table.
    - destruct (_write_entry_header c1) as [c2 r2].
      unfold _write_executable_body_instruction_set.
      pose proof (write_operators_from_keeps int_of_Intrinsic pc dbg
                    (operators pc) Htop 0 c2) as Hops.
      destruct (write_operators_from int_of_Intrinsic pc dbg 0
                  (operators pc) c2) as [[c3 ops] [[]|e]];
        simpl in Hops; subst ops.
      + destruct (cg_bind _ _ c3) as [c4 r4]. now destruct pc.
      + now destruct pc.
    - now destruct pc. }
  split; [apply Hkept|].
  rewrite Hkept. reflexivity.
Qed.

(** * Further properties of the type-checker *)

(** ** The stack below the operands *)

(** The methods of the type-check context are local to the top of the
    stack, and locality is kept by sequencing. *)
Lemma framed_ret {A : Type} (a : A) : framed (tc_ret a).
Proof. intros st x st' [= <- <-] below. reflexivity. Qed.

Lemma framed_raise {A : Type} (e : Raised) : framed (@tc_raise A e).
Proof. intros st x st' H. discriminate H. Qed.

Lemma framed_bind {A B : Type} (m : TC A) (k : A -> TC B) :
  framed m -> (forall a, framed (k a)) -> framed (tc_bind m k).
Proof.
  intros Hm Hk st b st' H below. unfold tc_bind in *.
  destruct (m st) as [[a st1]|e] eqn:E; [|discriminate].
  rewrite (Hm st a st1 E below). now apply Hk.
Qed.

Lemma framed_push_types (types : list GofraType) : framed (push_types types).
Proof.
  intros st x st' [= <- <-] below. unfold push_types.
  now rewrite app_assoc.
Qed.

Lemma pop_argument_type_ok_inv (st st' : type_stack) (t : GofraType) :
  pop_argument_type st = Ok (t, st') -> st = (st' ++ [t])%list.
Proof.
  unfold pop_argument_type. intros H.
  destruct (rev st) as [|x below] eqn:E; [discriminate|].
  injection H as <- <-.
  rewrite <- (rev_involutive st), E. reflexivity.
Qed.

Lemma framed_pop_argument_type : framed pop_argument_type.
Proof.
  intros st t st' H below.
  apply pop_argument_type_ok_inv in H as ->.
  rewrite app_assoc. apply pop_argument_type_top.
Qed.

Lemma framed_raise_for_enough_arguments (operator : Operator) (n : nat) :
  framed (raise_for_enough_arguments operator n).
Proof.
  intros st x st' H below. unfold raise_for_enough_arguments in *.
  destruct (Nat.ltb_spec (List.length st) n); [discriminate|].
  injection H as <- <-.
  destruct (Nat.ltb_spec (List.length (below ++ st)%list) n);
    [rewrite length_app in *; lia | reflexivity].
Qed.

Lemma framed_consume_n_arguments (n : nat) : framed (consume_n_arguments n).
Proof.
  induction n as [|n IH]; simpl.
  - apply framed_ret.
  - apply framed_bind; [apply framed_pop_argument_type | intros _; exact IH].
Qed.

Lemma framed_pop_and_raise (expected : GofraType) (operator : Operator) :
  framed (pop_and_raise_for_argument_type expected operator).
Proof.
  unfold pop_and_raise_for_argument_type.
  apply framed_bind; [apply framed_pop_argument_type|].
  intros t. destruct (GofraType_eqb t expected);
    [apply framed_ret | apply framed_raise].
Qed.

Lemma framed_pop_contract (contract : list GofraType) (operator : Operator) :
  framed (pop_contract contract operator).
Proof.
  induction contract as [|t contract IH]; simpl.
  - apply framed_ret.
  - apply framed_bind; [apply framed_pop_and_raise | intros _; exact IH].
Qed.

(** Closes a goal [framed m] for a computation built from the methods of
    the context. *)
Ltac framed_steps :=
  repeat first
    [ apply framed_ret
    | apply framed_raise
    | apply framed_push_types
    | apply framed_pop_argument_type
    | apply framed_raise_for_enough_arguments
    | apply framed_consume_n_arguments
    | apply framed_pop_and_raise
    | apply framed_pop_contract
    | apply framed_bind
    | match goal with
      | |- forall _, _ => intro
      | |- framed (if ?b then _ else _) => destruct b
      | |- framed (match ?x with Some _ => _ | None => _ end) => destruct x
      | |- framed (match ?x with [] => _ | _ :: _ => _ end) => destruct x
      end ].

Lemma framed_check_operator (str_of_Intrinsic : Intrinsic -> string)
    (pc : ProgramContext) (operator : Operator) :
  framed (check_operator str_of_Intrinsic pc operator).
Proof.
  unfold check_operator.
  destruct (type operator); try solve [framed_steps].
  destruct (operand operator) as [| |i|]; try apply framed_raise.
  destruct i; simpl check_intrinsic; framed_steps.
Qed.

Lemma framed_check_operators (str_of_Intrinsic : Intrinsic -> string)
    (pc : ProgramContext) (ops : list Operator) :
  framed (check_operators str_of_Intrinsic pc ops).
Proof.
  induction ops as [|operator rest IH]; simpl.
  - apply framed_ret.
  - apply framed_bind;
      [apply framed_check_operator | intros _; exact IH].
Qed.

(** X1: the type-checker looks at the top of the stack only.  A sequence
    that is accepted from a stack, leaving some stack, is accepted from
    that stack with any slots below it, and leaves them in place. *)
Theorem check_operators_frame (str_of_Intrinsic : Intrinsic -> string)
    (pc : ProgramContext) (ops : list Operator)
    (st st' below : type_stack) :
  check_operators str_of_Intrinsic pc ops st = Ok (tt, st') ->
  check_operators str_of_Intrinsic pc ops (below ++ st)%list
  = Ok (tt, below ++ st')%list.
Proof. intros H. now apply framed_check_operators. Qed.

Lemma check_operators_frame_witness :
  check_operators qualified_name empty_context pointer_plus_integer
    ([BOOLEAN; POINTER] ++ [])%list
  = Ok (tt, [BOOLEAN; POINTER] ++ [])%list.
Proof.
  apply (check_operators_frame qualified_name empty_context
           pointer_plus_integer [] [] [BOOLEAN; POINTER]).
  reflexivity.
Defined.

(** ** Sequences of operators *)

(** The loop over a concatenation is the loop over its first part and
    then, from the stack that part leaves, over its second part. *)
Lemma check_operators_app (str_of_Intrinsic : Intrinsic -> string)
    (pc : ProgramContext) (ops1 ops2 : list Operator) (st : type_stack) :
  check_operators str_of_Intrinsic pc (ops1 ++ ops2)%list st
  = match check_operators str_of_Intrinsic pc ops1 st with
    | Ok (_, st1) => check_operators str_of_Intrinsic pc ops2 st1
    | Raise e => Raise e
    end.
Proof.
  revert st. induction ops1 as [|operator rest IH]; intros st; simpl.
  - reflexivity.
  - unfold tc_bind.
    destruct (check_operator str_of_Intrinsic pc operator st)
      as [[[] st1]|e]; [apply IH | reflexivity].
Qed.

(** X2: a sequence that validation accepts is neutral wherever it
    stands.  Put between two sequences, on any stack, it leaves the
    outcome of the check as it is without it: the same stack at the end
    or the same exception; so validation gives the same result with and
    without it.  (The depth checks are lower bounds and the pops take
    the top, so the slots that the first sequence has left are out of
    its reach.) *)
Theorem validated_sequence_is_neutral
    (str_of_Intrinsic : Intrinsic -> string) (pc : ProgramContext)
    (middle : list Operator) :
  validate_type_safety str_of_Intrinsic pc middle = Ok tt ->
  forall before after : list Operator,
    (forall st : type_stack,
        check_operators str_of_Intrinsic pc
          (before ++ middle ++ after)%list st
        = check_operators str_of_Intrinsic pc (before ++ after)%list st)
    /\ validate_type_safety str_of_Intrinsic pc
         (before ++ middle ++ after)%list
       = validate_type_safety str_of_Intrinsic pc (before ++ after)%list.
Proof.
  intros Hvalid before after.
  assert (Hmiddle : check_operators str_of_Intrinsic pc middle []
                    = Ok (tt, [])).
  { unfold validate_type_safety in Hvalid.
    destruct (check_operators str_of_Intrinsic pc middle [])
      as [[[] [|t st]]|e]; try discriminate Hvalid. reflexivity. }
  assert (Hcheck : forall st : type_stack,
             check_operators str_of_Intrinsic pc
               (before ++ middle ++ after)%list st
             = check_operators str_of_Intrinsic pc
                 (before ++ after)%list st).
  { intros st. rewrite !check_operators_app.
    destruct (check_operators str_of_Intrinsic pc before st)
      as [[[] st1]|e]; [|reflexivity].
    pose proof (framed_check_operators str_of_Intrinsic pc middle
                  [] tt [] Hmiddle st1) as Hframe.
    rewrite !app_nil_r in Hframe.
    now rewrite check_operators_app, Hframe. }
  split; [exact Hcheck|].
  unfold validate_type_safety. now rewrite Hcheck.
Qed.

Lemma validated_sequence_is_neutral_witness :
  check_operators qualified_name empty_context
    ([push_integer 1; push_integer 2] ++ pointer_plus_integer
       ++ [intrinsic PLUS])%list [BOOLEAN]
  = Ok (tt, [BOOLEAN; INTEGER]).
Proof.
  destruct (validated_sequence_is_neutral qualified_name empty_context
              pointer_plus_integer eq_refl
              [push_integer 1; push_integer 2] [intrinsic PLUS])
    as [Hcheck _].
  rewrite Hcheck. reflexivity.
Defined.

(** What one stack intrinsic does to a stack that holds its operands. *)
Lemma check_swap (str_of_Intrinsic : Intrinsic -> string)
    (pc : ProgramContext) (operator : Operator)
    (rest : type_stack) (a b : GofraType) :
  type operator = INTRINSIC ->
  operand operator = OIntrinsic SWAP ->
  check_operator str_of_Intrinsic pc operator (rest ++ [a; b])%list
  = Ok (tt, rest ++ [b; a])%list.
Proof.
  intros Htype Hoperand. unfold check_operator.
  rewrite Htype, Hoperand. simpl check_intrinsic. tc_two_pops.
  unfold push_types. reflexivity.
Qed.

Lemma check_copy (str_of_Intrinsic : Intrinsic -> string)
    (pc : ProgramContext) (operator : Operator)
    (rest : type_stack) (a : GofraType) :
  type operator = INTRINSIC ->
  operand operator = OIntrinsic COPY ->
  check_operator str_of_Intrinsic pc operator (rest ++ [a])%list
  = Ok (tt, rest ++ [a; a])%list.
Proof.
  intros Htype Hoperand. unfold check_operator.
  rewrite Htype, Hoperand. simpl check_intrinsic. unfold tc_bind.
  rewrite raise_for_enough_arguments_ok
    by (rewrite length_app; simpl; lia).
  rewrite pop_argument_type_top. reflexivity.
Qed.

Lemma check_drop (str_of_Intrinsic : Intrinsic -> string)
    (pc : ProgramContext) (operator : Operator)
    (rest : type_stack) (a : GofraType) :
  type operator = INTRINSIC ->
  operand operator = OIntrinsic DROP ->
  check_operator str_of_Intrinsic pc operator (rest ++ [a])%list
  = Ok (tt, rest).
Proof.
  intros Htype Hoperand. unfold check_operator.
  rewrite Htype, Hoperand. simpl check_intrinsic. unfold tc_bind.
  rewrite raise_for_enough_arguments_ok
    by (rewrite length_app; simpl; lia).
  now rewrite pop_argument_type_top.
Qed.

(** X3: on a stack of depth at least two, two SWAPs in a row leave the
    abstract stack as it was, whatever the types of the two top slots;
    on a stack that is not empty, the same holds for COPY followed by
    DROP. *)
Theorem swap_swap_and_copy_drop (str_of_Intrinsic : Intrinsic -> string)
    (pc : ProgramContext) (swap swap' copy drop : Operator)
    (st : type_stack) :
  type swap = INTRINSIC -> operand swap = OIntrinsic SWAP ->
  type swap' = INTRINSIC -> operand swap' = OIntrinsic SWAP ->
  type copy = INTRINSIC -> operand copy = OIntrinsic COPY ->
  type drop = INTRINSIC -> operand drop = OIntrinsic DROP ->
  (2 <= List.length st ->
   check_operators str_of_Intrinsic pc [swap; swap'] st = Ok (tt, st))
  /\ (1 <= List.length st ->
      check_operators str_of_Intrinsic pc [copy; drop] st = Ok (tt, st)).
Proof.
  intros Hs Hs' Hs2 Hs2' Hc Hc' Hd Hd'. split; intros Hdepth.
  - destruct (two_top_slots st Hdepth) as (rest & a & b & ->).
    simpl. unfold tc_bind.
    rewrite (check_swap _ _ swap rest a b Hs Hs').
    rewrite (check_swap _ _ swap' rest b a Hs2 Hs2'). reflexivity.
  - destruct (one_top_slot st Hdepth) as (rest & a & ->).
    simpl. unfold tc_bind.
    rewrite (check_copy _ _ copy rest a Hc Hc').
    rewrite app_two_slots.
    rewrite (check_drop _ _ drop (rest ++ [a])%list a Hd Hd'). reflexivity.
Qed.

Lemma swap_swap_and_copy_drop_witness :
  (2 <= List.length [BOOLEAN; POINTER] ->
   check_operators qualified_name empty_context
     [intrinsic SWAP; intrinsic SWAP] [BOOLEAN; POINTER]
   = Ok (tt, [BOOLEAN; POINTER]))
  /\ (1 <= List.length [BOOLEAN; POINTER] ->
      check_operators qualified_name empty_context
        [intrinsic COPY; intrinsic DROP] [BOOLEAN; POINTER]
      = Ok (tt, [BOOLEAN; POINTER])).
Proof.
  apply (swap_swap_and_copy_drop qualified_name empty_context
           (intrinsic SWAP) (intrinsic SWAP) (intrinsic COPY)
           (intrinsic DROP) [BOOLEAN; POINTER]);
    reflexivity.
Defined.

(** ** Calls of functions of the table *)

Lemma GofraType_eqb_refl (t : GofraType) : GofraType_eqb t t = true.
Proof. now destruct t. Qed.

Lemma pop_contract_matches (contract : list GofraType)
    (operator : Operator) (rest : type_stack) :
  pop_contract (rev contract) operator (rest ++ contract)%list
  = Ok (tt, rest).
Proof.
  induction contract as [|t contract IH] using rev_ind.
  - simpl. now rewrite app_nil_r.
  - rewrite rev_app_distr. simpl. unfold tc_bind.
    rewrite app_assoc, pop_and_raise_top, GofraType_eqb_refl.
    exact IH.
Qed.

Lemma pop_contract_ok_inv (contract : list GofraType)
    (operator : Operator) (st st' : type_stack) (u : unit) :
  pop_contract (rev contract) operator st = Ok (u, st') ->
  st = (st' ++ contract)%list.
Proof.
  revert st. induction contract as [|t contract IH] using rev_ind;
    intros st H.
  - simpl in H. injection H as _ <-. now rewrite app_nil_r.
  - rewrite rev_app_distr in H. simpl in H. unfold tc_bind in H.
    unfold pop_and_raise_for_argument_type, tc_bind in H.
    destruct (pop_argument_type st) as [[x st1]|e] eqn:Hpop;
      [|discriminate].
    apply pop_argument_type_ok_inv in Hpop as ->.
    destruct (GofraType_eqb x t) eqn:Heq; [|discriminate].
    apply GofraType_eqb_eq in Heq as ->.
    unfold tc_ret in H. apply IH in H as ->.
    now rewrite <- app_assoc.
Qed.

(** X4: a CALL of a function of the table whose name is not in the
    external set is accepted exactly on the stacks that end with the
    input contract of the function, in order, and it replaces those slots
    by the output contract. *)
Theorem call_applies_the_contract (str_of_Intrinsic : Intrinsic -> string)
    (pc : ProgramContext) (operator : Operator) (f : Function) :
  type operator = CALL ->
  in_extern_functions
    (str_of_operand str_of_Intrinsic (operand operator)) pc = false ->
  functions_get (str_of_operand str_of_Intrinsic (operand operator))
    (functions pc) = Some f ->
  (forall rest : type_stack,
      check_operator str_of_Intrinsic pc operator
        (rest ++ type_contract_in f)%list
      = Ok (tt, rest ++ type_contract_out f)%list)
  /\ (forall st st' : type_stack,
        check_operator str_of_Intrinsic pc operator st = Ok (tt, st') ->
        exists rest : type_stack,
          st = (rest ++ type_contract_in f)%list
          /\ st' = (rest ++ type_contract_out f)%list).
Proof.
  intros Htype Hextern Htable.
  assert (Hcheck : forall st,
             check_operator str_of_Intrinsic pc operator st
             = (raise_for_enough_arguments operator
                  (List.length (type_contract_in f)) ;;
                pop_contract (rev (type_contract_in f)) operator ;;
                push_types (type_contract_out f))%tc st).
  { intros st. unfold check_operator.
    now rewrite Htype, Hextern, Htable. }
  split.
  - intros rest. rewrite Hcheck. unfold tc_bind.
    rewrite raise_for_enough_arguments_ok by (rewrite length_app; lia).
    now rewrite pop_contract_matches.
  - intros st st' H. rewrite Hcheck in H. unfold tc_bind in H.
    destruct (raise_for_enough_arguments operator _ st) as [[[] st0]|e]
      eqn:Hdepth; [|discriminate].
    unfold raise_for_enough_arguments in Hdepth.
    destruct (_ <? _)%nat; [discriminate|]. injection Hdepth as <-.
    destruct (pop_contract _ operator st) as [[u rest]|e] eqn:Hpop;
      [|discriminate].
    apply pop_contract_ok_inv in Hpop. injection H as <-.
    now exists rest.
Qed.

Lemma call_applies_the_contract_witness :
  check_operator qualified_name program_with_adder (call "add")
    ([POINTER] ++ type_contract_in adder)%list
  = Ok (tt, [POINTER] ++ type_contract_out adder)%list.
Proof.
  destruct (call_applies_the_contract qualified_name program_with_adder
              (call "add") adder eq_refl eq_refl eq_refl)
    as [Haccepts _].
  exact (Haccepts [POINTER]).
Defined.

(** ** Syscalls in the type-checker *)

(** The depth check and the pops of a syscall, after [k] INTEGERs have
    been pushed for the injected slots. *)
Lemma syscall_pops_after_pushes (operator : Operator) (n k : nat)
    (st : type_stack) (tail : TC unit) :
  k <= n ->
  n - k <= List.length st ->
  (raise_for_enough_arguments operator n ;;
   consume_n_arguments n ;; tail)%tc (st ++ repeat INTEGER k)%list
  = tail (firstn (List.length st - (n - k)) st).
Proof.
  intros Hk Hdepth. unfold tc_bind.
  rewrite raise_for_enough_arguments_ok
    by (rewrite length_app, repeat_length; lia).
  rewrite consume_n_arguments_ok
    by (rewrite length_app, repeat_length; lia).
  rewrite length_app, repeat_length, firstn_app.
  replace (List.length st + k - n - List.length st) with 0 by lia.
  replace (List.length st + k - n) with (List.length st - (n - k)) by lia.
  simpl. now rewrite app_nil_r.
Qed.

Lemma syscall_short_after_pushes (operator : Operator) (n k : nat)
    (st : type_stack) (tail : TC unit) :
  List.length st + k < n ->
  (raise_for_enough_arguments operator n ;;
   consume_n_arguments n ;; tail)%tc (st ++ repeat INTEGER k)%list
  = Raise (InsufficientOperandsError operator n).
Proof.
  intros Hshort. unfold tc_bind.
  now rewrite raise_for_enough_arguments_short
    by (rewrite length_app, repeat_length; lia).
Qed.

(** The syscall arm as pushes for the injected slots followed by the
    check and the pops. *)
Lemma check_syscall_unfold (str_of_Intrinsic : Intrinsic -> string)
    (pc : ProgramContext) (operator : Operator) (i : Intrinsic) (d : nat)
    (st : type_stack) :
  type operator = INTRINSIC ->
  operand operator = OIntrinsic i ->
  syscall_digit i = Some d ->
  check_operator str_of_Intrinsic pc operator st
  = (raise_for_enough_arguments operator (S d) ;;
     consume_n_arguments (S d) ;;
     (if negb (syscall_optimization_omit_result operator)
      then push_types [INTEGER] else tc_ret tt))%tc
      (st ++ repeat INTEGER (injected_count operator))%list.
Proof.
  intros Htype Hoperand Hdigit. unfold check_operator.
  rewrite Htype, Hoperand.
  assert (Hcount : get_syscall_arguments_count operator = Some (S d)).
  { unfold get_syscall_arguments_count. now rewrite Hoperand, Hdigit. }
  destruct i; try discriminate Hdigit; simpl check_intrinsic;
    rewrite Hcount; unfold injected_count;
    destruct (syscall_optimization_injected_args operator) as [[|x l]|];
    unfold tc_bind at 1; unfold push_types at 1, tc_ret at 1;
    rewrite ?map_const, ?app_nil_r; reflexivity.
Qed.

(** X5: a syscall of arity [n] whose injected-args block holds [k <= n]
    concrete integers takes [n - k] slots from the abstract stack,
    whatever their types, and pushes one INTEGER unless its result is
    omitted; on a stack with fewer than [n - k] slots it raises the
    insufficient-operands error for [n] operands.  With every slot
    injected and the result omitted it leaves the stack as it was. *)
Theorem syscall_stack_effect (str_of_Intrinsic : Intrinsic -> string)
    (pc : ProgramContext) (operator : Operator) (i : Intrinsic) (d : nat)
    (st : type_stack) :
  type operator = INTRINSIC ->
  operand operator = OIntrinsic i ->
  syscall_digit i = Some d ->
  injected_count operator <= S d ->
  let taken := S d - injected_count operator in
  (taken <= List.length st ->
   check_operator str_of_Intrinsic pc operator st
   = Ok (tt,
         firstn (List.length st - taken) st
           ++ (if syscall_optimization_omit_result operator
               then [] else [INTEGER]))%list)
  /\ (List.length st < taken ->
      check_operator str_of_Intrinsic pc operator st
      = Raise (InsufficientOperandsError operator (S d)))
  /\ (injected_count operator = S d ->
      syscall_optimization_omit_result operator = true ->
      check_operator str_of_Intrinsic pc operator st = Ok (tt, st)).
Proof.
  intros Htype Hoperand Hdigit Hcount taken.
  rewrite (check_syscall_unfold _ _ _ _ _ _ Htype Hoperand Hdigit).
  assert (Hok : taken <= List.length st ->
                (raise_for_enough_arguments operator (S d) ;;
                 consume_n_arguments (S d) ;;
                 (if negb (syscall_optimization_omit_result operator)
                  then push_types [INTEGER] else tc_ret tt))%tc
                  (st ++ repeat INTEGER (injected_count operator))%list
                = Ok (tt,
                      firstn (List.length st - taken) st
                        ++ (if syscall_optimization_omit_result operator
                            then [] else [INTEGER]))%list).
  { intros Hdepth.
    rewrite syscall_pops_after_pushes by (assumption || exact Hdepth).
    destruct (syscall_optimization_omit_result operator); simpl.
    - unfold tc_ret. now rewrite app_nil_r.
    - reflexivity. }
  split; [exact Hok | split].
  - intros Hshort. apply syscall_short_after_pushes.
    unfold taken in Hshort. lia.
  - intros Hall Homit. rewrite Hok by (unfold taken; lia).
    rewrite Homit, app_nil_r.
    unfold taken. rewrite Hall, Nat.sub_diag, Nat.sub_0_r.
    now rewrite firstn_all.
Qed.

Lemma syscall_stack_effect_witness :
  check_operator qualified_name empty_context syscall2_injected
    [BOOLEAN; POINTER]
  = Ok (tt, [BOOLEAN]).
Proof.
  destruct (syscall_stack_effect qualified_name empty_context
              syscall2_injected SYSCALL2 2 [BOOLEAN; POINTER]
              eq_refl eq_refl eq_refl)
    as [Hok _].
  - cbv. lia.
  - apply Hok. cbv. lia.
Defined.

(** ** What the type-checker can raise *)

Lemma raises_only_ret {A : Type} (P : Raised -> Prop) (a : A) :
  raises_only P (tc_ret a).
Proof. intros st e H. discriminate H. Qed.

Lemma raises_only_raise {A : Type} (P : Raised -> Prop) (e : Raised) :
  P e -> raises_only P (@tc_raise A e).
Proof. intros HP st e' [= <-]. exact HP. Qed.

Lemma raises_only_bind {A B : Type} (P : Raised -> Prop)
    (m : TC A) (k : A -> TC B) :
  raises_only P m -> (forall a, raises_only P (k a)) ->
  raises_only P (tc_bind m k).
Proof.
  intros Hm Hk st e H. unfold tc_bind in H.
  destruct (m st) as [[a st1]|e1] eqn:E.
  - exact (Hk a st1 e H).
  - injection H as <-. exact (Hm st e1 E).
Qed.

Lemma raises_only_push_types (P : Raised -> Prop)
    (types : list GofraType) :
  raises_only P (push_types types).
Proof. intros st e H. discriminate H. Qed.

Lemma raises_only_pop_argument_type (P : Raised -> Prop) :
  P IndexError -> raises_only P pop_argument_type.
Proof.
  intros HP st e H. unfold pop_argument_type in H.
  destruct (rev st); [injection H as <-; exact HP | discriminate].
Qed.

Lemma raises_only_raise_for_enough_arguments (P : Raised -> Prop)
    (operator : Operator) (n : nat) :
  P (InsufficientOperandsError operator n) ->
  raises_only P (raise_for_enough_arguments operator n).
Proof.
  intros HP st e H. unfold raise_for_enough_arguments in H.
  destruct (_ <? _)%nat; [injection H as <-; exact HP | discriminate].
Qed.

Lemma raises_only_consume_n_arguments (P : Raised -> Prop) (n : nat) :
  P IndexError -> raises_only P (consume_n_arguments n).
Proof.
  intros HP. induction n as [|n IH]; simpl.
  - apply raises_only_ret.
  - apply raises_only_bind;
      [now apply raises_only_pop_argument_type | intros _; exact IH].
Qed.

Lemma raises_only_pop_and_raise (P : Raised -> Prop)
    (expected : GofraType) (operator : Operator) :
  P IndexError ->
  (forall actual, P (InvalidArgumentTypeError expected actual operator)) ->
  raises_only P (pop_and_raise_for_argument_type expected operator).
Proof.
  intros HP Htype. unfold pop_and_raise_for_argument_type.
  apply raises_only_bind; [now apply raises_only_pop_argument_type|].
  intros t. destruct (GofraType_eqb t expected);
    [apply raises_only_ret | now apply raises_only_raise].
Qed.

Lemma raises_only_pop_contract (P : Raised -> Prop)
    (contract : list GofraType) (operator : Operator) :
  P IndexError ->
  (forall expected actual,
      P (InvalidArgumentTypeError expected actual operator)) ->
  raises_only P (pop_contract contract operator).
Proof.
  intros HP Htype. induction contract as [|t contract IH]; simpl.
  - apply raises_only_ret.
  - apply raises_only_bind;
      [now apply raises_only_pop_and_raise | intros _; exact IH].
Qed.

(** Closes a goal [raises_only P m] for a computation built from the
    methods of the context, leaving the exceptions it raises itself. *)
Ltac raises_steps :=
  repeat first
    [ apply raises_only_ret
    | apply raises_only_push_types
    | apply raises_only_pop_argument_type
    | apply raises_only_raise_for_enough_arguments
    | apply raises_only_consume_n_arguments
    | apply raises_only_pop_and_raise
    | apply raises_only_pop_contract
    | apply raises_only_bind
    | apply raises_only_raise
    | match goal with
      | |- forall _, _ => intro
      | |- raises_only _ (if ?b then _ else _) => destruct b eqn:?
      | |- raises_only _ (match ?x with Some _ => _ | None => _ end) =>
          destruct x eqn:?
      | |- raises_only _ (match ?x with [] => _ | _ :: _ => _ end) =>
          destruct x eqn:?
      end ].

(** The exceptions of the check of one operator, with [IndexError] still
    allowed anywhere. *)
Lemma check_operator_raises_only (str_of_Intrinsic : Intrinsic -> string)
    (pc : ProgramContext) (operator : Operator) :
  raises_only
    (fun e => e = IndexError \/ may_raise str_of_Intrinsic pc operator e)
    (check_operator str_of_Intrinsic pc operator).
Proof.
  unfold check_operator.
  destruct (type operator) eqn:Htype.
  all: try solve [raises_steps; solve [now left | now right]].
  - (* INTRINSIC *)
    destruct (operand operator) as [| |i|] eqn:Hoperand;
      try (apply raises_only_raise; right; split;
           [exact Htype | intros j; rewrite Hoperand; discriminate]).
    destruct i; simpl check_intrinsic; raises_steps;
      try solve [now left | now right].
    all: right; simpl.
    all: try (exfalso;
              match goal with
              | H : get_syscall_arguments_count _ = None |- _ =>
                  unfold get_syscall_arguments_count in H;
                  rewrite Hoperand in H; discriminate H
              end).
    all: split; [reflexivity|].
    all: repeat match goal with
           | H : negb _ = true |- _ => apply negb_true_iff in H
           | H : (_ || _)%bool = true |- _ => apply orb_true_iff in H
           | H : GofraType_eqb _ _ = true |- _ => apply GofraType_eqb_eq in H
           end.
    + split; [assumption|]. intros ->. discriminate.
    + split; [assumption|]. intros ->. discriminate.
    + destruct Heqb as [H | H]; apply negb_true_iff in H;
        [right | left]; intros ->; discriminate.
    + destruct Heqb as [H | H]; apply negb_true_iff in H;
        [right | left]; intros ->; discriminate.
    + destruct Heqb as [H | H]; apply negb_true_iff in H;
        [right | left]; intros ->; discriminate.
Qed.

(** What the check of one operator raises, it raises for a reason that
    the operator gives. *)
Lemma check_operator_may_raise (str_of_Intrinsic : Intrinsic -> string)
    (pc : ProgramContext) (operator : Operator) (st : type_stack)
    (e : Raised) :
  check_operator str_of_Intrinsic pc operator st = Raise e ->
  may_raise str_of_Intrinsic pc operator e.
Proof.
  intros H.
  destruct (check_operator_raises_only str_of_Intrinsic pc operator st e H)
    as [-> | Hmay]; [|exact Hmay].
  apply index_error_only_from_swap in H as (Htype & Hoperand & _).
  now split.
Qed.

(** X6: every exception that ends a run of the type-checker over a
    sequence is accounted for by an operator of that sequence.  The
    errors of the type-checker carry that operator; [IndexError] comes
    from a SWAP, [KeyError] from a CALL of a name that is in neither the
    external set nor the function table, [AssertionError] from an
    INTRINSIC whose operand is not an intrinsic; the loop never raises
    [TypeError], [NotImplementedError] or the non-empty-stack error. *)
Theorem check_operators_blame (str_of_Intrinsic : Intrinsic -> string)
    (pc : ProgramContext) (ops : list Operator) (st : type_stack)
    (e : Raised) :
  check_operators str_of_Intrinsic pc ops st = Raise e ->
  exists operator : Operator,
    In operator ops /\ may_raise str_of_Intrinsic pc operator e.
Proof.
  revert st. induction ops as [|operator rest IH]; intros st H.
  - discriminate H.
  - simpl in H. unfold tc_bind in H.
    destruct (check_operator str_of_Intrinsic pc operator st)
      as [[[] st1]|e1] eqn:E.
    + destruct (IH st1 H) as (culprit & Hin & Hmay).
      exists culprit. split; [now right | exact Hmay].
    + injection H as <-. exists operator.
      split; [now left | now apply check_operator_may_raise with st].
Qed.

Lemma check_operators_blame_witness :
  exists operator : Operator,
    In operator integer_plus_pointer
    /\ may_raise qualified_name empty_context operator
         (InvalidArgumentTypeError INTEGER POINTER (intrinsic PLUS)).
Proof.
  apply (check_operators_blame qualified_name empty_context
           integer_plus_pointer []).
  reflexivity.
Defined.

(** ** Where the pointer-arithmetics error comes from *)

(** No arm but the one of PLUS and MINUS raises the pointer-arithmetics
    error. *)
Lemma other_arms_raise_no_pointer_arithmetics
    (str_of_Intrinsic : Intrinsic -> string) (pc : ProgramContext)
    (operator : Operator) :
  (forall i : Intrinsic,
      type operator = INTRINSIC -> operand operator = OIntrinsic i ->
      i <> PLUS /\ i <> MINUS) ->
  raises_only not_pointer_arithmetics
    (check_operator str_of_Intrinsic pc operator).
Proof.
  intros Hother. unfold check_operator.
  destruct (type operator) eqn:Htype.
  all: try solve [raises_steps; exact I].
  destruct (operand operator) as [| |i|] eqn:Hoperand;
    try (apply raises_only_raise; exact I).
  destruct (Hother i eq_refl eq_refl) as [Hplus Hminus].
  destruct i; try (exfalso; congruence);
    simpl check_intrinsic; raises_steps; exact I.
Qed.

(** The pointer-arithmetics error is raised by a PLUS or a MINUS over a
    stack whose lower operand is POINTER and whose upper operand is not
    INTEGER, and it carries these two types and that operator. *)
Lemma pointer_arithmetics_origin
    (str_of_Intrinsic : Intrinsic -> string) (pc : ProgramContext)
    (operator : Operator) (st : type_stack)
    (lhs rhs : GofraType) (blamed : Operator) :
  check_operator str_of_Intrinsic pc operator st
  = Raise (TypecheckInvalidPointerArithmeticsError lhs rhs blamed) ->
  blamed = operator
  /\ type operator = INTRINSIC
  /\ (operand operator = OIntrinsic PLUS
      \/ operand operator = OIntrinsic MINUS)
  /\ lhs = POINTER /\ rhs <> INTEGER
  /\ exists below : type_stack, st = (below ++ [POINTER; rhs])%list.
Proof.
  intros H.
  assert (Harm : exists i : Intrinsic,
             type operator = INTRINSIC /\ operand operator = OIntrinsic i
             /\ (i = PLUS \/ i = MINUS)).
  { destruct (type operator) eqn:Htype;
      destruct (operand operator) as [| |i|] eqn:Hoperand;
      try destruct i;
      try (exists PLUS; now auto); try (exists MINUS; now auto);
      exfalso;
      refine (other_arms_raise_no_pointer_arithmetics str_of_Intrinsic pc
                operator _ st _ H);
      intros j Ht Ho; split; congruence. }
  destruct Harm as (i & Htype & Hoperand & Hi).
  unfold check_operator in H. rewrite Htype, Hoperand in H.
  destruct (Nat.lt_ge_cases (List.length st) 2) as [Hshort | Hdepth].
  - exfalso. destruct Hi as [-> | ->]; simpl check_intrinsic in H;
      unfold tc_bind in H;
      rewrite raise_for_enough_arguments_short in H by assumption;
      discriminate H.
  - destruct (two_top_slots st Hdepth) as (below & a & b & ->).
    rewrite (check_plus_minus operator i below a b Hi) in H.
    destruct a, b; try discriminate H; injection H as <- <- <-.
    all: repeat split;
      try reflexivity; try exact Htype; try discriminate;
      try (now exists below);
      rewrite Hoperand; destruct Hi as [-> | ->]; [now left | now right].
Qed.

(** C5, amended: for a PLUS or MINUS intrinsic applied to a stack whose
    lower operand (popped second) is INTEGER and whose upper operand
    (popped first) is POINTER, the type-checker fails with the
    invalid-argument-type error (expected INTEGER, actual POINTER,
    annotated with the operator).  The pointer-arithmetics error is
    raised when the lower operand is POINTER and the upper one is not
    INTEGER, and only then: whenever the check of any operator on any
    stack ends with it, the operator is a PLUS or a MINUS, the stack
    ends with POINTER below a type that is not INTEGER, and the error
    carries these two types and that operator. *)
Theorem integer_below_pointer_rejected
    (str_of_Intrinsic : Intrinsic -> string)
    (program_context : ProgramContext) (operator : Operator) (i : Intrinsic)
    (rest : type_stack) :
  type operator = INTRINSIC ->
  operand operator = OIntrinsic i ->
  i = PLUS \/ i = MINUS ->
  check_operator str_of_Intrinsic program_context operator
    (rest ++ [INTEGER; POINTER])%list
  = Raise (InvalidArgumentTypeError INTEGER POINTER operator)
  /\ (forall (upper : GofraType) (below : type_stack),
        upper <> INTEGER ->
        check_operator str_of_Intrinsic program_context operator
          (below ++ [POINTER; upper])%list
        = Raise (TypecheckInvalidPointerArithmeticsError POINTER upper
                   operator))
  /\ (forall (any : Operator) (st : type_stack) (lhs rhs : GofraType)
             (blamed : Operator),
        check_operator str_of_Intrinsic program_context any st
        = Raise (TypecheckInvalidPointerArithmeticsError lhs rhs blamed) ->
        blamed = any
        /\ type any = INTRINSIC
        /\ (operand any = OIntrinsic PLUS \/ operand any = OIntrinsic MINUS)
        /\ lhs = POINTER /\ rhs <> INTEGER
        /\ exists below : type_stack, st = (below ++ [POINTER; rhs])%list).
Proof.
  intros Htype Hoperand Hi. split; [|split].
  - unfold check_operator. rewrite Htype, Hoperand.
    now rewrite (check_plus_minus operator i rest INTEGER POINTER Hi).
  - intros upper below Hupper.
    unfold check_operator. rewrite Htype, Hoperand.
    rewrite (check_plus_minus operator i below POINTER upper Hi).
    destruct upper; [now contradiction Hupper | reflexivity | reflexivity].
  - intros any st lhs rhs blamed.
    apply pointer_arithmetics_origin.
Qed.

Lemma integer_below_pointer_rejected_witness :
  check_operator qualified_name empty_context (intrinsic MINUS)
    ([BOOLEAN] ++ [INTEGER; POINTER])%list
  = Raise (InvalidArgumentTypeError INTEGER POINTER (intrinsic MINUS))
  /\ check_operator qualified_name empty_context (intrinsic MINUS)
       ([BOOLEAN] ++ [POINTER; BOOLEAN])%list
     = Raise (TypecheckInvalidPointerArithmeticsError POINTER BOOLEAN
                (intrinsic MINUS)).
Proof.
  destruct (integer_below_pointer_rejected qualified_name empty_context
              (intrinsic MINUS) MINUS [BOOLEAN] eq_refl eq_refl
              (or_intror eq_refl))
    as (Hargument & Hpointer & _).
  split; [exact Hargument|].
  apply Hpointer. discriminate.
Defined.

(** ** Typing rules of the binary intrinsics *)

(** X7: the comparisons and the two memory intrinsics put no constraint
    on the types of their two operands: on any stack of depth at least
    two a comparison is accepted and pushes BOOLEAN, MEMORY_LOAD is
    accepted and pushes INTEGER, MEMORY_STORE is accepted and pushes
    nothing; below depth two they raise the insufficient-operands error
    for two operands. *)
Theorem untyped_binary_rule (str_of_Intrinsic : Intrinsic -> string)
    (pc : ProgramContext) (operator : Operator) (i : Intrinsic)
    (pushed : list GofraType) :
  type operator = INTRINSIC ->
  operand operator = OIntrinsic i ->
  untyped_binary i = Some pushed ->
  (forall (rest : type_stack) (a b : GofraType),
      check_operator str_of_Intrinsic pc operator (rest ++ [a; b])%list
      = Ok (tt, rest ++ pushed)%list)
  /\ (forall st : type_stack,
        List.length st < 2 ->
        check_operator str_of_Intrinsic pc operator st
        = Raise (InsufficientOperandsError operator 2)).
Proof.
  intros Htype Hoperand Hpushed. unfold check_operator.
  rewrite Htype, Hoperand. split.
  - intros rest a b.
    destruct i; try discriminate Hpushed; injection Hpushed as <-;
      simpl check_intrinsic; tc_two_pops; unfold tc_ret, push_types;
      rewrite ?app_nil_r; reflexivity.
  - intros st Hshort.
    destruct i; try discriminate Hpushed; simpl check_intrinsic;
      unfold tc_bind;
      now rewrite raise_for_enough_arguments_short.
Qed.

Lemma untyped_binary_rule_witness :
  check_operator qualified_name empty_context (intrinsic LESS_THAN)
    ([INTEGER] ++ [POINTER; BOOLEAN])%list
  = Ok (tt, [INTEGER] ++ [BOOLEAN])%list.
Proof.
  destruct (untyped_binary_rule qualified_name empty_context
              (intrinsic LESS_THAN) LESS_THAN [BOOLEAN]
              eq_refl eq_refl eq_refl)
    as [Haccepts _].
  exact (Haccepts [INTEGER] POINTER BOOLEAN).
Defined.

(** X8: MULTIPLY, DIVIDE and MODULUS are accepted on two INTEGERs only
    and push INTEGER; any other pair of types is rejected with the
    binary-math error, which carries the lower type as left-hand side and
    the upper type as right-hand side; POINTER operands are not accepted
    on either side. *)
Theorem multiplicative_rule (str_of_Intrinsic : Intrinsic -> string)
    (pc : ProgramContext) (operator : Operator) (i : Intrinsic)
    (rest : type_stack) (a b : GofraType) :
  type operator = INTRINSIC ->
  operand operator = OIntrinsic i ->
  i = MULTIPLY \/ i = DIVIDE \/ i = MODULUS ->
  check_operator str_of_Intrinsic pc operator (rest ++ [a; b])%list
  = if GofraType_eqb a INTEGER && GofraType_eqb b INTEGER
    then Ok (tt, rest ++ [INTEGER])%list
    else Raise (TypecheckInvalidBinaryMathArithmeticsError a b operator).
Proof.
  intros Htype Hoperand Hi. unfold check_operator.
  rewrite Htype, Hoperand.
  destruct Hi as [-> | [-> | ->]]; simpl check_intrinsic; tc_two_pops;
    destruct a, b; reflexivity.
Qed.

Lemma multiplicative_rule_witness :
  check_operator qualified_name empty_context (intrinsic DIVIDE)
    ([] ++ [POINTER; INTEGER])%list
  = if GofraType_eqb POINTER INTEGER && GofraType_eqb INTEGER INTEGER
    then Ok (tt, [] ++ [INTEGER])%list
    else Raise (TypecheckInvalidBinaryMathArithmeticsError POINTER INTEGER
                  (intrinsic DIVIDE)).
Proof.
  apply (multiplicative_rule qualified_name empty_context
           (intrinsic DIVIDE) DIVIDE [] POINTER INTEGER).
  - reflexivity.
  - reflexivity.
  - right; left; reflexivity.
Defined.

(** ** Calls of unknown names *)

(** X9: a CALL whose name is neither in the external set nor in the
    function table ends both passes with Python's [KeyError] on that
    name: the type-checker on any stack, and the backend before it has
    written anything for the operator but its debug comment. *)
Theorem call_of_unknown_name (str_of_Intrinsic : Intrinsic -> string)
    (int_of_Intrinsic : Intrinsic -> option Z)
    (pc : ProgramContext) (debug_comments : bool) (idx : nat)
    (operator : Operator) (function_name : string)
    (st : type_stack) (c : CodegenContext) :
  type operator = CALL ->
  operand operator = OStr function_name ->
  in_extern_functions function_name pc = false ->
  functions_get function_name (functions pc) = None ->
  check_operator str_of_Intrinsic pc operator st
  = Raise (KeyError function_name)
  /\ write_operator int_of_Intrinsic pc debug_comments idx operator c
     = (mkCodegenContext
          (fd c ++ debug_lines debug_comments operator)%list (strings c),
        operator, Raise (KeyError function_name)).
Proof.
  intros Htype Hoperand Hextern Htable. split.
  - unfold check_operator. rewrite Htype, Hoperand.
    cbn [str_of_operand]. now rewrite Hextern, Htable.
  - destruct (debug_operator_comment_ok operator) as [comment Hcomment].
    { rewrite Htype. discriminate. }
    rewrite (write_operator_after_comment _ _ _ _ _ _ _ Hcomment).
    unfold write_operator.
    now rewrite Htype, Hoperand, Htable, Hextern.
Qed.

Lemma call_of_unknown_name_witness :
  check_operator qualified_name empty_context (call "missing") [INTEGER]
  = Raise (KeyError "missing")
  /\ write_operator not_an_integer empty_context false 0 (call "missing")
       (mkCodegenContext [] [])
     = (mkCodegenContext [] [], call "missing", Raise (KeyError "missing")).
Proof.
  apply (call_of_unknown_name qualified_name not_an_integer empty_context
           false 0 (call "missing") "missing" [INTEGER]
           (mkCodegenContext [] []));
    reflexivity.
Defined.

(** * Further properties of the backend *)

(** ** What is written does not depend on what was written before *)

Lemma shifted_shifted (out out' : list asm_line) (c : CodegenContext) :
  shifted out (shifted out' c) = shifted (out ++ out')%list c.
Proof. unfold shifted. simpl. now rewrite app_assoc. Qed.

Lemma cg_local_ret {A : Type} (a : A) : cg_local (cg_ret a).
Proof.
  intros out table. unfold cg_ret, shifted. simpl. now rewrite app_nil_r.
Qed.

Lemma cg_local_raise {A : Type} (e : Raised) : cg_local (@cg_raise A e).
Proof.
  intros out table. unfold cg_raise, shifted. simpl. now rewrite app_nil_r.
Qed.

Lemma cg_local_write (lines : list string) : cg_local (write lines).
Proof. intros out table. reflexivity. Qed.

Lemma cg_local_fd_write (content : string) : cg_local (fd_write content).
Proof. intros out table. reflexivity. Qed.

Lemma cg_local_load_string (payload : string) :
  cg_local (load_string payload).
Proof.
  intros out table. unfold load_string, shifted. simpl.
  now rewrite app_nil_r.
Qed.

Lemma cg_local_bind {A B : Type} (m : CG A) (k : A -> CG B) :
  cg_local m -> (forall a, cg_local (k a)) -> cg_local (cg_bind m k).
Proof.
  intros Hm Hk out table. unfold cg_bind.
  rewrite (Hm out table).
  destruct (m (mkCodegenContext [] table)) as [[out1 table1] [a|e]];
    [|reflexivity].
  unfold shifted at 1. simpl.
  rewrite (Hk a (out ++ out1)%list table1), (Hk a out1 table1).
  destruct (k a (mkCodegenContext [] table1)) as [c2 result].
  now rewrite shifted_shifted.
Qed.

Lemma cg_local_syscall_load_registers (syscall_arguments : nat)
    (injected_args : list (option Z)) (arg_ns : list nat) :
  cg_local (syscall_load_registers syscall_arguments injected_args arg_ns).
Proof.
  induction arg_ns as [|arg_n rest IH]; simpl.
  - apply cg_local_ret.
  - apply cg_local_bind.
    + destruct arg_n; [apply cg_local_ret|].
      destruct (index_from_end injected_args (S arg_n));
        [apply cg_local_ret | apply cg_local_raise].
    + intros [value|];
        (apply cg_local_bind; [|intros _; exact IH]).
      * apply cg_local_write.
      * apply cg_local_bind; [apply cg_local_write|].
        intros _. apply cg_local_write.
Qed.

Lemma cg_local_pop_into_registers (registers : list nat) :
  cg_local (pop_into_registers registers).
Proof.
  induction registers as [|r rest IH]; simpl.
  - apply cg_local_ret.
  - apply cg_local_bind; [apply cg_local_write|]. intros _.
    apply cg_local_bind; [apply cg_local_write|]. intros _. exact IH.
Qed.

Lemma lowering_local_unchanged (operator : Operator) (m : CG unit) :
  cg_local m -> lowering_local (unchanged operator m).
Proof.
  intros Hm out table. unfold unchanged. rewrite (Hm out table).
  now destruct (m (mkCodegenContext [] table)).
Qed.

Lemma lowering_local_raise {B : Type} (lowered : B) (e : Raised) :
  lowering_local (fun c => (c, lowered, Raise e)).
Proof.
  intros out table. unfold shifted. simpl. now rewrite app_nil_r.
Qed.

Lemma lowering_local_write_syscall (operator : Operator) :
  lowering_local (write_syscall operator).
Proof.
  intros out table. unfold write_syscall.
  destruct (get_syscall_arguments_count operator) as [n|];
    [|apply (lowering_local_raise operator AssertionError)].
  destruct (match syscall_optimization_injected_args operator with
            | Some ((_ :: _) as own) => (own, true)
            | _ => (repeat None n, false)
            end) as [injected_args aliased].
  set (tail := cg_bind _ _).
  assert (Htail : cg_local tail).
  { subst tail. apply cg_local_bind;
      [apply cg_local_syscall_load_registers|]. intros _.
    apply cg_local_bind; [apply cg_local_write|]. intros _.
    destruct (negb (syscall_optimization_omit_result operator));
      [apply cg_local_write | apply cg_local_ret]. }
  destruct (last injected_args None); unfold write; cbv beta iota;
    cbn [fd strings];
    rewrite (Htail (out ++ _)%list table);
    match goal with
    | |- context [tail (mkCodegenContext ([] ++ ?w)%list table)] =>
        change ([] ++ w)%list with w; rewrite (Htail w table)
    end;
    destruct (tail (mkCodegenContext [] table)) as [c2 result];
    now rewrite shifted_shifted.
Qed.

Lemma lowering_local_write_intrinsic (operator : Operator) (i : Intrinsic) :
  lowering_local (write_intrinsic operator i).
Proof.
  destruct i; cbn [write_intrinsic];
    first [ apply lowering_local_write_syscall
          | apply lowering_local_unchanged, cg_local_write ].
Qed.

Lemma cg_local_debug_operator_comment (operator : Operator) :
  cg_local (_write_debug_operator_comment operator).
Proof.
  unfold _write_debug_operator_comment.
  destruct (debug_operator_comment operator);
    [apply cg_local_write | apply cg_local_raise].
Qed.

(** With debug comments, the lowering of an operator is its comment
    followed by its lowering without. *)
Lemma write_operator_with_comment
    (int_of_Intrinsic : Intrinsic -> option Z) (pc : ProgramContext)
    (idx : nat) (operator : Operator) (c : CodegenContext) :
  write_operator int_of_Intrinsic pc true idx operator c
  = match _write_debug_operator_comment operator c with
    | (c1, Raise e) => (c1, operator, Raise e)
    | (c1, Ok _) => write_operator int_of_Intrinsic pc false idx operator c1
    end.
Proof.
  unfold write_operator.
  destruct (_write_debug_operator_comment operator c) as [c1 [[]|e]];
    reflexivity.
Qed.

(** Closes a goal [cg_local m] for a step built from writes. *)
Ltac cg_local_steps :=
  repeat first
    [ apply cg_local_ret
    | apply cg_local_raise
    | apply cg_local_write
    | apply cg_local_fd_write
    | apply cg_local_load_string
    | apply cg_local_pop_into_registers
    | apply cg_local_bind
    | match goal with
      | |- forall _, _ => intro
      | |- cg_local (if ?b then _ else _) => destruct b
      | |- cg_local (match ?x with [] => _ | _ :: _ => _ end) => destruct x
      end ].

Lemma lowering_local_write_operator
    (int_of_Intrinsic : Intrinsic -> option Z) (pc : ProgramContext)
    (debug_comments : bool) (idx : nat) (operator : Operator) :
  lowering_local
    (write_operator int_of_Intrinsic pc debug_comments idx operator).
Proof.
  assert (Hbody :
            lowering_local
              (write_operator int_of_Intrinsic pc false idx operator)).
  { unfold write_operator. unfold cg_ret at 1. cbv beta iota.
    destruct (type operator).
    - destruct (match operand operator with
                | OInt n => Some n
                | OIntrinsic i => int_of_Intrinsic i
                | _ => None
                end);
        [apply lowering_local_unchanged, cg_local_write
        |apply lowering_local_raise].
    - destruct (operand operator); try apply lowering_local_raise.
      apply lowering_local_unchanged. cg_local_steps.
    - destruct (operand operator); try apply lowering_local_raise.
      apply lowering_local_write_intrinsic.
    - destruct (jumps_to_operator_idx operator);
        [apply lowering_local_unchanged, cg_local_write
        |apply lowering_local_raise].
    - destruct (jumps_to_operator_idx operator);
        [apply lowering_local_unchanged, cg_local_write
        |apply lowering_local_raise].
    - destruct (jumps_to_operator_idx operator);
        apply lowering_local_unchanged; cg_local_steps.
    - destruct (jumps_to_operator_idx operator);
        apply lowering_local_unchanged; cg_local_steps.
    - destruct (operand operator); try apply lowering_local_raise.
      destruct (functions_get _ _).
      + apply lowering_local_unchanged. cg_local_steps.
      + destruct (in_extern_functions _ _);
          [apply lowering_local_unchanged; cg_local_steps
          |apply lowering_local_raise]. }
  destruct debug_comments; [|exact Hbody].
  intros out table.
  rewrite !write_operator_with_comment.
  rewrite (cg_local_debug_operator_comment operator out table).
  destruct (_write_debug_operator_comment operator
              (mkCodegenContext [] table)) as [[out1 table1] [[]|e]];
    [|reflexivity].
  unfold shifted at 1. cbn [fd strings].
  rewrite (Hbody (out ++ out1)%list table1), (Hbody out1 table1).
  destruct (write_operator int_of_Intrinsic pc false idx operator
              (mkCodegenContext [] table1)) as [[c2 lowered] result].
  now rewrite shifted_shifted.
Qed.

Lemma lowering_local_write_operators_from
    (int_of_Intrinsic : Intrinsic -> option Z) (pc : ProgramContext)
    (debug_comments : bool) (ops : list Operator) :
  forall idx : nat,
    lowering_local
      (write_operators_from int_of_Intrinsic pc debug_comments idx ops).
Proof.
  induction ops as [|operator rest IH]; intros idx out table; simpl.
  - unfold shifted. simpl. now rewrite app_nil_r.
  - rewrite (lowering_local_write_operator int_of_Intrinsic pc
               debug_comments idx operator out table).
    destruct (write_operator int_of_Intrinsic pc debug_comments idx
                operator (mkCodegenContext [] table))
      as [[[out1 table1] operator'] [[]|e]]; [|reflexivity].
    unfold shifted at 1. cbn [fd strings].
    rewrite (IH (S idx) (out ++ out1)%list table1), (IH (S idx) out1 table1).
    destruct (write_operators_from int_of_Intrinsic pc debug_comments
                (S idx) rest (mkCodegenContext [] table1))
      as [[c2 rest'] result].
    now rewrite shifted_shifted.
Qed.

(** X10: the lowering of an operator sequence only appends to the sink,
    also when it raises, and what it appends does not depend on the text
    that is already there: the run is the run on an empty sink with the
    same string table, after the text written before. *)
Theorem body_text_is_appended
    (int_of_Intrinsic : Intrinsic -> option Z) (pc : ProgramContext)
    (debug_comments : bool) (ops : list Operator) (c : CodegenContext) :
  _write_executable_body_instruction_set int_of_Intrinsic pc
    debug_comments ops c
  = let '(c', ops', result) :=
      _write_executable_body_instruction_set int_of_Intrinsic pc
        debug_comments ops (mkCodegenContext [] (strings c)) in
    (mkCodegenContext (fd c ++ fd c')%list (strings c'), ops', result).
Proof.
  unfold _write_executable_body_instruction_set.
  destruct c as [out table].
  exact (lowering_local_write_operators_from int_of_Intrinsic pc
           debug_comments ops 0 out table).
Qed.

(** ** The string table *)

Lemma cg_keeps_strings_ret {A : Type} (a : A) : cg_keeps_strings (cg_ret a).
Proof. intros c. reflexivity. Qed.

Lemma cg_keeps_strings_raise {A : Type} (e : Raised) :
  cg_keeps_strings (@cg_raise A e).
Proof. intros c. reflexivity. Qed.

Lemma cg_keeps_strings_write (lines : list string) :
  cg_keeps_strings (write lines).
Proof. intros c. reflexivity. Qed.

Lemma cg_keeps_strings_fd_write (content : string) :
  cg_keeps_strings (fd_write content).
Proof. intros c. reflexivity. Qed.

Lemma cg_keeps_strings_bind {A B : Type} (m : CG A) (k : A -> CG B) :
  cg_keeps_strings m -> (forall a, cg_keeps_strings (k a)) ->
  cg_keeps_strings (cg_bind m k).
Proof.
  intros Hm Hk c. unfold cg_bind. specialize (Hm c).
  destruct (m c) as [c1 [a|e]]; simpl in *.
  - now rewrite (Hk a c1).
  - exact Hm.
Qed.

Lemma cg_keeps_strings_syscall_load_registers (syscall_arguments : nat)
    (injected_args : list (option Z)) (arg_ns : list nat) :
  cg_keeps_strings
    (syscall_load_registers syscall_arguments injected_args arg_ns).
Proof.
  induction arg_ns as [|arg_n rest IH]; simpl.
  - apply cg_keeps_strings_ret.
  - apply cg_keeps_strings_bind.
    + destruct arg_n; [apply cg_keeps_strings_ret|].
      destruct (index_from_end injected_args (S arg_n));
        [apply cg_keeps_strings_ret | apply cg_keeps_strings_raise].
    + intros [value|];
        (apply cg_keeps_strings_bind; [|intros _; exact IH]).
      * apply cg_keeps_strings_write.
      * apply cg_keeps_strings_bind; [apply cg_keeps_strings_write|].
        intros _. apply cg_keeps_strings_write.
Qed.

Lemma cg_keeps_strings_pop_into_registers (registers : list nat) :
  cg_keeps_strings (pop_into_registers registers).
Proof.
  induction registers as [|r rest IH]; simpl.
  - apply cg_keeps_strings_ret.
  - apply cg_keeps_strings_bind; [apply cg_keeps_strings_write|]. intros _.
    apply cg_keeps_strings_bind; [apply cg_keeps_strings_write|].
    intros _. exact IH.
Qed.

(** Closes a goal [cg_keeps_strings m] for a step built from writes. *)
Ltac cg_keeps_strings_steps :=
  repeat first
    [ apply cg_keeps_strings_ret
    | apply cg_keeps_strings_raise
    | apply cg_keeps_strings_write
    | apply cg_keeps_strings_fd_write
    | apply cg_keeps_strings_pop_into_registers
    | apply cg_keeps_strings_syscall_load_registers
    | apply cg_keeps_strings_bind
    | match goal with
      | |- forall _, _ => intro
      | |- cg_keeps_strings (if ?b then _ else _) => destruct b
      | |- cg_keeps_strings (match ?x with [] => _ | _ :: _ => _ end) =>
          destruct x
      end ].

Lemma unchanged_keeps_strings (operator : Operator) (m : CG unit)
    (c : CodegenContext) :
  cg_keeps_strings m ->
  strings (fst (fst (unchanged operator m c))) = strings c.
Proof.
  intros Hm. unfold unchanged. specialize (Hm c).
  now destruct (m c).
Qed.

Lemma write_syscall_keeps_strings (operator : Operator)
    (c : CodegenContext) :
  strings (fst (fst (write_syscall operator c))) = strings c.
Proof.
  unfold write_syscall.
  destruct (get_syscall_arguments_count operator) as [n|]; [|reflexivity].
  destruct (match syscall_optimization_injected_args operator with
            | Some ((_ :: _) as own) => (own, true)
            | _ => (repeat None n, false)
            end) as [injected_args aliased].
  set (tail := cg_bind _ _).
  assert (Htail : cg_keeps_strings tail)
    by (subst tail; cg_keeps_strings_steps).
  destruct (last injected_args None); unfold write; cbv beta iota;
    match goal with
    | |- context [tail ?c1] =>
        specialize (Htail c1); destruct (tail c1) as [c2 result]
    end; exact Htail.
Qed.

(** The string table after the lowering of one operator, whatever the
    outcome: one more entry for a string literal, under the next label,
    and the same table for anything else. *)
Lemma write_operator_strings
    (int_of_Intrinsic : Intrinsic -> option Z) (pc : ProgramContext)
    (debug_comments : bool) (idx : nat) (operator : Operator)
    (c : CodegenContext) :
  strings
    (fst (fst (write_operator int_of_Intrinsic pc debug_comments idx
                 operator c)))
  = (strings c
       ++ intern_all (List.length (strings c)) (interned_by operator))%list.
Proof.
  assert (Hbody : forall c0,
             strings
               (fst (fst (write_operator int_of_Intrinsic pc false idx
                            operator c0)))
             = (strings c0
                  ++ intern_all (List.length (strings c0))
                       (interned_by operator))%list).
  { intros c0. unfold write_operator, interned_by.
    unfold cg_ret at 1. cbv beta iota.
    destruct (type operator).
    all: repeat first
      [ rewrite app_nil_r
      | reflexivity
      | apply write_syscall_keeps_strings
      | apply unchanged_keeps_strings; solve [cg_keeps_strings_steps]
      | match goal with
        | |- context [jumps_to_operator_idx ?o] =>
            destruct (jumps_to_operator_idx o)
        | |- context [functions_get ?n ?t] => destruct (functions_get n t)
        | |- context [in_extern_functions ?n ?p] =>
            destruct (in_extern_functions n p)
        | |- context [write_intrinsic ?o ?i] =>
            destruct i; cbn [write_intrinsic]
        | |- context [match ?x with Some _ => _ | None => _ end] =>
            destruct x
        | |- context [operand ?o] => destruct (operand o)
        end ]. }
  destruct debug_comments; [|apply Hbody].
  rewrite write_operator_with_comment.
  unfold _write_debug_operator_comment.
  destruct (debug_operator_comment operator) as [comment|e] eqn:Hcomment.
  - unfold write. cbv beta iota. rewrite Hbody. reflexivity.
  - unfold cg_raise. cbv beta iota. cbn [fst strings].
    unfold debug_operator_comment in Hcomment. unfold interned_by.
    destruct (type operator); try discriminate Hcomment;
      now rewrite app_nil_r.
Qed.

Lemma intern_all_app (start : nat) (first second : list string) :
  intern_all start (first ++ second)%list
  = (intern_all start first
       ++ intern_all (start + List.length first) second)%list.
Proof.
  revert start. induction first as [|p first IH]; intros start; simpl.
  - now rewrite Nat.add_0_r.
  - rewrite IH. do 3 f_equal. lia.
Qed.

Lemma length_intern_all (start : nat) (payloads : list string) :
  List.length (intern_all start payloads) = List.length payloads.
Proof.
  revert start. induction payloads as [|p rest IH]; intros start; simpl.
  - reflexivity.
  - now rewrite IH.
Qed.

Lemma string_label_inj (n m : nat) : string_label n = string_label m -> n = m.
Proof.
  unfold string_label. intros H.
  apply append_inv_head in H. now apply fmt_nat_inj.
Qed.

Lemma intern_all_labels (start : nat) (payloads : list string) :
  map fst (intern_all start payloads)
  = map string_label (seq start (List.length payloads)).
Proof.
  revert start. induction payloads as [|p rest IH]; intros start; simpl.
  - reflexivity.
  - now rewrite IH.
Qed.

Lemma intern_all_labels_NoDup (start : nat) (payloads : list string) :
  NoDup (map fst (intern_all start payloads)).
Proof.
  rewrite intern_all_labels.
  generalize (List.length payloads) as len. intros len. revert start.
  induction len as [|len IH]; intros start; simpl.
  - constructor.
  - constructor; [|apply IH].
    intros Hin. apply in_map_iff in Hin as (n & Hlabel & Hn).
    apply string_label_inj in Hlabel as ->.
    apply in_seq in Hn. lia.
Qed.

(** The string table after the lowering of a sequence that has not
    raised. *)
Lemma write_operators_from_strings
    (int_of_Intrinsic : Intrinsic -> option Z) (pc : ProgramContext)
    (debug_comments : bool) (ops : list Operator) :
  forall (idx : nat) (c c' : CodegenContext) (ops' : list Operator),
    write_operators_from int_of_Intrinsic pc debug_comments idx ops c
    = (c', ops', Ok tt) ->
    strings c'
    = (strings c
         ++ intern_all (List.length (strings c))
              (flat_map interned_by ops))%list.
Proof.
  induction ops as [|operator rest IH]; intros idx c c' ops' H; simpl in H.
  - injection H as <- _. simpl. now rewrite app_nil_r.
  - pose proof (write_operator_strings int_of_Intrinsic pc debug_comments
                  idx operator c) as Hone.
    destruct (write_operator int_of_Intrinsic pc debug_comments idx
                operator c) as [[c1 operator'] [[]|e]];
      [|discriminate H].
    simpl in Hone.
    destruct (write_operators_from int_of_Intrinsic pc debug_comments
                (S idx) rest c1) as [[c2 rest'] result] eqn:Hrest.
    injection H as <- _ ->.
    rewrite (IH _ _ _ _ Hrest), Hone.
    simpl flat_map. rewrite intern_all_app, length_app, length_intern_all.
    now rewrite <- app_assoc.
Qed.

(** X11: when the lowering of a sequence has not raised, the string
    table has gained one entry for every PUSH_STRING of the sequence, in
    the order of the sequence: the label is [str_n] for the [n] entries
    the table held at that moment, the payload is the token text without
    its first and last character.  Identical literals are not shared, and
    on a table that started empty the labels are pairwise distinct. *)
Theorem strings_interned_in_order
    (int_of_Intrinsic : Intrinsic -> option Z) (pc : ProgramContext)
    (debug_comments : bool) (ops ops' : list Operator)
    (c c' : CodegenContext) :
  _write_executable_body_instruction_set int_of_Intrinsic pc
    debug_comments ops c
  = (c', ops', Ok tt) ->
  strings c'
  = (strings c
       ++ intern_all (List.length (strings c))
            (flat_map interned_by ops))%list
  /\ (strings c = [] -> NoDup (map fst (strings c'))).
Proof.
  intros H. unfold _write_executable_body_instruction_set in H.
  apply write_operators_from_strings in H. split; [exact H|].
  intros Hempty. rewrite H, Hempty. simpl.
  apply intern_all_labels_NoDup.
Qed.

Lemma strings_interned_in_order_witness :
  let run :=
    _write_executable_body_instruction_set not_an_integer empty_context
      false two_literals (mkCodegenContext [] []) in
  strings (fst (fst run))
  = [("str_0", "hi"); ("str_1", "a\n")]
  /\ NoDup (map fst (strings (fst (fst run)))).
Proof.
  intros run.
  destruct (strings_interned_in_order not_an_integer empty_context false
              two_literals (snd (fst run)) (mkCodegenContext [] [])
              (fst (fst run)) eq_refl)
    as [Htable Hdistinct].
  split; [exact Htable | exact (Hdistinct eq_refl)].
Defined.

(** ** The static segment *)

Lemma write_strings_appends (items : list (string * string))
    (c : CodegenContext) :
  write_strings items c
  = (mkCodegenContext (fd c ++ map string_directive items)%list (strings c),
     Ok tt).
Proof.
  revert c. induction items as [|[key value] rest IH]; intros c; simpl.
  - destruct c; simpl. now rewrite app_nil_r.
  - unfold cg_bind, fd_write. rewrite IH. cbn [fd strings].
    now rewrite <- app_assoc.
Qed.

Lemma write_function_table_strings
    (int_of_Intrinsic : Intrinsic -> option Z) (pc : ProgramContext)
    (debug_comments : bool) (table : list (string * Function)) :
  forall (c c' : CodegenContext) (table' : list (string * Function)),
    write_function_table int_of_Intrinsic pc debug_comments table c
    = (c', table', Ok tt) ->
    strings c'
    = (strings c
         ++ intern_all (List.length (strings c))
              (function_payloads table))%list.
Proof.
  induction table as [|[key f] rest IH]; intros c c' table' H; simpl in H.
  - injection H as <- _. simpl. now rewrite app_nil_r.
  - unfold function_payloads. simpl flat_map.
    fold (function_payloads rest).
    destruct (negb (emit_inline_body f) && negb (is_externally_defined f)).
    + unfold _write_executable_body_instruction_set in H.
      match type of H with
      | context [write_operators_from _ _ _ 0 (source f) ?c0] =>
          destruct (write_operators_from int_of_Intrinsic pc debug_comments
                      0 (source f) c0) as [[c1 body] [[]|e]] eqn:Hbody;
          [|discriminate H]
      end.
      apply write_operators_from_strings in Hbody. cbn [strings] in Hbody.
      match type of H with
      | context [write_function_table _ _ _ rest ?c2] =>
          destruct (write_function_table int_of_Intrinsic pc debug_comments
                      rest c2) as [[c3 rest'] result] eqn:Hrest
      end.
      injection H as <- _ ->.
      apply IH in Hrest. cbn [strings] in Hrest.
      rewrite Hrest, Hbody.
      rewrite intern_all_app, length_app, length_intern_all.
      now rewrite <- app_assoc.
    + destruct (write_function_table int_of_Intrinsic pc debug_comments
                  rest c) as [[c1 rest'] result] eqn:Hrest.
      injection H as <- _ ->.
      now apply IH in Hrest.
Qed.

(** X12: a run of the backend that has not raised ends its text with the
    program epilogue and the static segment: the scratch buffer, then one
    [.string] line for every string literal of the bodies it has declared
    and of the top-level sequence, in that order, each under its own
    label [str_0], [str_1], ... *)
Theorem static_segment_lists_every_literal
    (int_of_Intrinsic : Intrinsic -> option Z) (now : string)
    (pc : ProgramContext) (debug_comments : bool) :
  raised (generate_ARM64_MacOS_backend int_of_Intrinsic now pc
            debug_comments) = None ->
  let table :=
    intern_all 0
      (function_payloads (functions pc)
         ++ flat_map interned_by (operators pc))%list in
  (exists text : list asm_line,
      output (generate_ARM64_MacOS_backend int_of_Intrinsic now pc
                debug_comments)
      = (text ++ epilogue_lines debug_comments
           ++ Raw ("mem_buffer: .space 1000" ++ newline)
           :: map string_directive table)%list)
  /\ NoDup (map fst table).
Proof.
  intros H table. split; [|apply intern_all_labels_NoDup].
  unfold generate_ARM64_MacOS_backend in *.
  destruct ((if debug_comments then _write_debug_header_comment now
             else cg_ret tt) (mkCodegenContext [] [])) as [c0 r0] eqn:Hhead.
  assert (Hc0 : strings c0 = []).
  { destruct debug_comments; injection Hhead as <- _; reflexivity. }
  unfold _write_function_declarations in *.
  destruct (write_function_table int_of_Intrinsic pc debug_comments
              (functions pc) c0) as [[c1 table1] [[]|e]] eqn:Hfunctions;
    [|discriminate H].
  apply write_function_table_strings in Hfunctions.
  rewrite Hc0 in Hfunctions. simpl in Hfunctions.
  unfold _write_entry_header, cg_bind, fd_write in *. cbv beta iota in *.
  cbn [fd strings] in *.
  unfold _write_executable_body_instruction_set in *.
  match type of H with
  | context [write_operators_from _ _ _ 0 (operators pc) ?c2] =>
      destruct (write_operators_from int_of_Intrinsic pc debug_comments 0
                  (operators pc) c2) as [[c3 ops] [[]|e]] eqn:Hbody;
      [|discriminate H]
  end.
  apply write_operators_from_strings in Hbody. cbn [strings] in Hbody.
  rewrite Hfunctions, length_intern_all in Hbody.
  rewrite <- (intern_all_app 0) in Hbody.
  unfold _write_program_epilogue, _write_static_segment, cg_bind, fd_write.
  exists (fd c3).
  destruct debug_comments; unfold write, cg_ret; cbv beta iota;
    cbn [fd strings]; rewrite write_strings_appends; cbn [fd output];
    rewrite Hbody; unfold epilogue_lines; cbn [map app];
    rewrite <- ?app_assoc; reflexivity.
Qed.

Lemma static_segment_lists_every_literal_witness :
  (exists text : list asm_line,
      output (generate_ARM64_MacOS_backend not_an_integer "now"
                program_with_literals false)
      = (text ++ epilogue_lines false
           ++ Raw ("mem_buffer: .space 1000" ++ newline)
           :: map string_directive
                [("str_0", "yo"); ("str_1", "hi"); ("str_2", "a\n")])%list)
  /\ NoDup ["str_0"; "str_1"; "str_2"].
Proof.
  apply (static_segment_lists_every_literal not_an_integer "now"
           program_with_literals false).
  reflexivity.
Defined.

(** ** The stack pointer and the abstract stack *)

Lemma sp_change_app (first second : list asm_line) :
  sp_change (first ++ second)%list
  = (sp_change first + sp_change second)%Z.
Proof.
  unfold sp_change. induction first as [|l first IH]; simpl.
  - reflexivity.
  - rewrite IH. lia.
Qed.

(** A debug comment starts with a slash. *)
Lemma debug_operator_comment_slash (operator : Operator)
    (comment : string) :
  debug_operator_comment operator = Ok comment ->
  exists tail : string, comment = String "/" tail.
Proof.
  unfold debug_operator_comment. intros H.
  destruct (type operator);
    try (destruct (operand operator); try discriminate H);
    injection H as <-;
    destruct (has_optimizations operator);
    try destruct (is_syscall operator);
    eexists; reflexivity.
Qed.

Lemma sp_change_debug_lines (debug_comments : bool) (operator : Operator) :
  sp_change (debug_lines debug_comments operator) = 0%Z.
Proof.
  unfold debug_lines. destruct debug_comments; [|reflexivity].
  destruct (debug_operator_comment operator) as [comment|e] eqn:H;
    [|reflexivity].
  apply debug_operator_comment_slash in H as [tail ->]. reflexivity.
Qed.

(** The depth of the abstract stack after an operator with a balanced
    template. *)
Lemma check_operator_net_slots (str_of_Intrinsic : Intrinsic -> string)
    (pc : ProgramContext) (operator : Operator) (st st' : type_stack) :
  has_balanced_template operator = true ->
  check_operator str_of_Intrinsic pc operator st = Ok (tt, st') ->
  (Z.of_nat (List.length st') - Z.of_nat (List.length st))%Z
  = net_slots operator.
Proof.
  unfold has_balanced_template, net_slots, check_operator.
  destruct (type operator); intros Hkind; try discriminate Hkind.
  - destruct (has_optimizations operator);
      try destruct (infer_type_after_optimization operator);
      intros [= <-]; rewrite length_app; simpl; lia.
  - intros [= <-]. rewrite length_app. simpl. lia.
  - destruct (operand operator) as [| |i|]; try discriminate Hkind.
    destruct i; try discriminate Hkind; simpl check_intrinsic.
    all: unfold tc_bind, raise_for_enough_arguments;
      match goal with
      | |- context [(List.length ?s <? ?k)%nat] =>
          destruct (Nat.ltb_spec (List.length s) k); cbv beta iota;
          [discriminate|]
      end.
    all: try (destruct (two_top_slots st) as (rest & a & b & ->);
              [assumption|];
              rewrite app_two_slots, !pop_argument_type_top;
              try (intros [= <-]; rewrite !length_app; simpl; lia);
              destruct a, b; cbn [GofraType_eqb negb orb]; unfold push_types;
              rewrite ?app_two_slots, ?pop_and_raise_top;
              cbn [GofraType_eqb]; rewrite ?pop_and_raise_top;
              cbn [GofraType_eqb]; try discriminate;
              intros [= <-]; rewrite !length_app; simpl; lia).
    all: destruct (one_top_slot st) as (rest & a & ->); [assumption|];
      rewrite ?pop_and_raise_top, ?pop_argument_type_top.
    all: try (destruct a; cbn [GofraType_eqb]; try discriminate).
    all: try (intros [= <-]; rewrite !length_app; simpl; lia).
    (* SWAP *)
    all: match goal with
         | |- context [pop_argument_type ?r] =>
             destruct (Nat.eq_dec (List.length r) 0) as [Hempty | Hfull];
             [apply length_zero_iff_nil in Hempty; rewrite Hempty;
              simpl; discriminate
             |destruct (one_top_slot r) as (below & b & ->); [lia|]]
         end;
      rewrite pop_argument_type_top;
      intros [= <-]; rewrite !length_app; simpl; lia.
  - unfold tc_bind, raise_for_enough_arguments.
    destruct (Nat.ltb_spec (List.length st) 1); [discriminate|].
    destruct (one_top_slot st) as (rest & a & ->); [assumption|].
    rewrite pop_and_raise_top.
    destruct a; cbn [GofraType_eqb]; try discriminate.
    intros [= <-]. rewrite length_app. simpl. lia.
  - unfold tc_bind, raise_for_enough_arguments.
    destruct (Nat.ltb_spec (List.length st) 1); [discriminate|].
    destruct (one_top_slot st) as (rest & a & ->); [assumption|].
    rewrite pop_and_raise_top.
    destruct a; cbn [GofraType_eqb]; try discriminate.
    intros [= <-]. rewrite length_app. simpl. lia.
  - intros [= <-]. lia.
  - intros [= <-]. lia.
Qed.

(** What the lowering of an operator with a balanced template appends,
    when it does not raise, moves SP by sixteen bytes for every slot. *)
Lemma write_operator_sp_change
    (int_of_Intrinsic : Intrinsic -> option Z) (pc : ProgramContext)
    (debug_comments : bool) (idx : nat) (operator operator' : Operator)
    (c c' : CodegenContext) :
  has_balanced_template operator = true ->
  write_operator int_of_Intrinsic pc debug_comments idx operator c
  = (c', operator', Ok tt) ->
  exists new : list asm_line,
    fd c' = (fd c ++ new)%list
    /\ sp_change new = (- 16 * net_slots operator)%Z.
Proof.
  intros Hkind H.
  destruct (debug_operator_comment_ok operator) as [comment Hcomment].
  { unfold has_balanced_template in Hkind. intros Htype.
    rewrite Htype in Hkind.
    destruct (operand operator) as [| |i|]; try discriminate Hkind.
    now exists i. }
  rewrite (write_operator_after_comment _ _ _ _ _ _ _ Hcomment) in H.
  assert (Hgoal : forall template : list asm_line,
             sp_change template = (- 16 * net_slots operator)%Z ->
             fd c' = ((fd c ++ debug_lines debug_comments operator)
                        ++ template)%list ->
             exists new : list asm_line,
               fd c' = (fd c ++ new)%list
               /\ sp_change new = (- 16 * net_slots operator)%Z).
  { intros template Hsp Hfd.
    exists (debug_lines debug_comments operator ++ template)%list.
    split; [now rewrite app_assoc|].
    now rewrite sp_change_app, sp_change_debug_lines. }
  unfold has_balanced_template in Hkind. unfold net_slots in Hgoal |- *.
  unfold write_operator in H. unfold cg_ret at 1 in H.
  cbv beta iota in H.
  destruct (type operator); try discriminate Hkind.
  - destruct (match operand operator with
              | OInt n => Some n
              | OIntrinsic i => int_of_Intrinsic i
              | _ => None
              end) as [n|]; [|discriminate H].
    rewrite unchanged_write in H. injection H as <- _.
    eapply Hgoal; [|reflexivity]. reflexivity.
  - destruct (operand operator); try discriminate H.
    unfold unchanged, cg_bind, load_string, write in H.
    cbv beta iota in H. cbn [fd strings] in H. injection H as <- _.
    eapply Hgoal; [|reflexivity]. reflexivity.
  - destruct (operand operator) as [| |i|]; try discriminate Hkind.
    destruct i; try discriminate Hkind; cbn [write_intrinsic] in H;
      rewrite unchanged_write in H; injection H as <- _;
      (eapply Hgoal; [|reflexivity]); reflexivity.
  - destruct (jumps_to_operator_idx operator); [|discriminate H].
    rewrite unchanged_write in H. injection H as <- _.
    eapply Hgoal; [|reflexivity]. reflexivity.
  - destruct (jumps_to_operator_idx operator); [|discriminate H].
    rewrite unchanged_write in H. injection H as <- _.
    eapply Hgoal; [|reflexivity]. reflexivity.
  - destruct (jumps_to_operator_idx operator);
      unfold unchanged, cg_bind, fd_write, write in H;
      cbv beta iota in H; cbn [fd strings] in H; injection H as <- _;
      (eapply Hgoal; [|cbn [fd]; rewrite <- ?app_assoc; reflexivity]);
      reflexivity.
  - destruct (jumps_to_operator_idx operator);
      unfold unchanged, cg_bind, fd_write, write in H;
      cbv beta iota in H; cbn [fd strings] in H; injection H as <- _;
      (eapply Hgoal; [|cbn [fd]; rewrite <- ?app_assoc; reflexivity]);
      reflexivity.
Qed.

(** X13: for the pushes, the control-flow operators and every intrinsic
    other than MEMORY_LOAD, MEMORY_STORE and the syscalls, the backend
    and the type-checker agree on the depth of the stack: whenever the
    type-checker accepts the operator and the lowering does not raise,
    the lines that the lowering appends move SP down by sixteen bytes for
    every slot the abstract stack has gained, and up for every slot it
    has lost. *)
Theorem template_matches_checked_depth
    (str_of_Intrinsic : Intrinsic -> string)
    (int_of_Intrinsic : Intrinsic -> option Z) (pc : ProgramContext)
    (debug_comments : bool) (idx : nat) (operator operator' : Operator)
    (st st' : type_stack) (c c' : CodegenContext) :
  has_balanced_template operator = true ->
  check_operator str_of_Intrinsic pc operator st = Ok (tt, st') ->
  write_operator int_of_Intrinsic pc debug_comments idx operator c
  = (c', operator', Ok tt) ->
  exists new : list asm_line,
    fd c' = (fd c ++ new)%list
    /\ sp_change new
       = (16 * (Z.of_nat (List.length st) - Z.of_nat (List.length st')))%Z.
Proof.
  intros Hkind Hcheck Hwrite.
  destruct (write_operator_sp_change _ _ _ _ _ _ _ _ Hkind Hwrite)
    as (new & Hfd & Hsp).
  exists new. split; [exact Hfd|].
  rewrite Hsp, <- (check_operator_net_slots _ _ _ _ _ Hkind Hcheck). lia.
Qed.

Lemma template_matches_checked_depth_witness :
  exists new : list asm_line,
    fd (fst (fst (write_operator not_an_integer empty_context true 7
                    (intrinsic GREATER_THAN) (mkCodegenContext [] []))))
    = (fd (mkCodegenContext [] []) ++ new)%list
    /\ sp_change new
       = (16 * (Z.of_nat (List.length [POINTER; INTEGER; INTEGER])
                - Z.of_nat (List.length [POINTER; BOOLEAN])))%Z.
Proof.
  apply (template_matches_checked_depth qualified_name not_an_integer
           empty_context true 7 (intrinsic GREATER_THAN)
           (intrinsic GREATER_THAN)
           [POINTER; INTEGER; INTEGER] [POINTER; BOOLEAN]
           (mkCodegenContext [] []));
    reflexivity.
Defined.

(** ** Memory intrinsics and syscalls in the backend *)

(** X14: the template of MEMORY_STORE frees one slot of the data stack
    (its only move of SP is one [add SP, SP, #16]) while the
    type-checker takes two slots for it: after a MEMORY_STORE that the
    type-checker has accepted the data stack is one slot deeper than the
    abstract stack says. *)
Theorem memory_store_template_frees_one_slot
    (str_of_Intrinsic : Intrinsic -> string)
    (int_of_Intrinsic : Intrinsic -> option Z)
    (pc : ProgramContext) (debug_comments : bool) (idx : nat)
    (operator : Operator) (rest : type_stack) (a b : GofraType)
    (c : CodegenContext) :
  type operator = INTRINSIC ->
  operand operator = OIntrinsic MEMORY_STORE ->
  let template :=
    ["ldr X0, [SP]"; "add SP, SP, #16"; "ldr X1, [SP]"; "str X0, [X1]"] in
  check_operator str_of_Intrinsic pc operator (rest ++ [a; b])%list
  = Ok (tt, rest)
  /\ write_operator int_of_Intrinsic pc debug_comments idx operator c
     = (mkCodegenContext
          (fd c ++ debug_lines debug_comments operator
             ++ map Ins template)%list
          (strings c),
        operator, Ok tt)
  /\ sp_change (map Ins template) = 16%Z.
Proof.
  intros Htype Hoperand template. repeat split.
  - unfold check_operator. rewrite Htype, Hoperand.
    simpl check_intrinsic. tc_two_pops. reflexivity.
  - destruct (debug_operator_comment_ok operator) as [comment Hcomment].
    { intros _. now exists MEMORY_STORE. }
    rewrite (write_operator_after_comment _ _ _ _ _ _ _ Hcomment).
    unfold write_operator. rewrite Htype, Hoperand.
    cbn [cg_ret write_intrinsic]. rewrite unchanged_write.
    cbn [fd strings]. now rewrite <- app_assoc.
Qed.

Lemma memory_store_template_frees_one_slot_witness :
  check_operator qualified_name empty_context (intrinsic MEMORY_STORE)
    ([BOOLEAN] ++ [POINTER; INTEGER])%list
  = Ok (tt, [BOOLEAN])
  /\ sp_change
       (map Ins ["ldr X0, [SP]"; "add SP, SP, #16"; "ldr X1, [SP]";
                 "str X0, [X1]"])
     = 16%Z.
Proof.
  destruct (memory_store_template_frees_one_slot qualified_name
              not_an_integer empty_context false 0
              (intrinsic MEMORY_STORE) [BOOLEAN] POINTER INTEGER
              (mkCodegenContext [] []) eq_refl eq_refl)
    as (Hchecked & _ & Hsp).
  split; [exact Hchecked | exact Hsp].
Defined.

(** The lowering of a syscall that carries no injected args. *)
Lemma write_syscall_from_stack (operator : Operator) (i : Intrinsic)
    (d : nat) (c : CodegenContext) :
  operand operator = OIntrinsic i ->
  syscall_digit i = Some d ->
  has_injected_args operator = false ->
  write_syscall operator c
  = (mkCodegenContext
       (fd c
          ++ map Ins
               (syscall_lowering_from_stack d
                  (syscall_optimization_omit_result operator)))%list
       (strings c),
     operator, Ok tt).
Proof.
  intros Hoperand Hdigit Hnone.
  unfold write_syscall, get_syscall_arguments_count, has_injected_args in *.
  rewrite Hoperand, Hdigit. cbn [option_map].
  assert (Hfresh : match syscall_optimization_injected_args operator with
                   | Some ((_ :: _) as own) => (own, true)
                   | _ => (repeat None (S d), false)
                   end = (repeat None (S d), false)).
  { destruct (syscall_optimization_injected_args operator) as [[|x l]|];
      [reflexivity | discriminate Hnone | reflexivity]. }
  rewrite Hfresh.
  destruct i; try discriminate Hdigit; injection Hdigit as <-;
    destruct (syscall_optimization_omit_result operator);
    cbn -[fmt_nat]; rewrite <- ?app_assoc; reflexivity.
Qed.

Lemma sp_change_syscall_from_stack (d : nat) (omit_result : bool) :
  d <= 6 ->
  sp_change (map Ins (syscall_lowering_from_stack d omit_result))
  = (16 * Z.of_nat (S d) - (if omit_result then 0 else 16))%Z.
Proof.
  intros Hd.
  do 7 (destruct d as [|d]; [destruct omit_result; reflexivity|]). lia.
Qed.

Lemma syscall_digit_bound (i : Intrinsic) (d : nat) :
  syscall_digit i = Some d -> d <= 6.
Proof. destruct i; intros [= <-]; lia. Qed.

Lemma injected_count_none (operator : Operator) :
  has_injected_args operator = false -> injected_count operator = 0.
Proof.
  unfold has_injected_args, injected_count.
  now destruct (syscall_optimization_injected_args operator) as [[|x l]|].
Qed.

(** The lowering of a syscall without injected args, as an operator. *)
Lemma write_operator_syscall_from_stack
    (int_of_Intrinsic : Intrinsic -> option Z)
    (pc : ProgramContext) (debug_comments : bool) (idx : nat)
    (operator : Operator) (i : Intrinsic) (d : nat) (c : CodegenContext) :
  type operator = INTRINSIC ->
  operand operator = OIntrinsic i ->
  syscall_digit i = Some d ->
  has_injected_args operator = false ->
  write_operator int_of_Intrinsic pc debug_comments idx operator c
  = (mkCodegenContext
       (fd c ++ debug_lines debug_comments operator
          ++ map Ins
               (syscall_lowering_from_stack d
                  (syscall_optimization_omit_result operator)))%list
       (strings c),
     operator, Ok tt).
Proof.
  intros Htype Hoperand Hdigit Hnone.
  destruct (debug_operator_comment_ok operator) as [comment Hcomment].
  { intros _. now exists i. }
  rewrite (write_operator_after_comment _ _ _ _ _ _ _ Hcomment).
  unfold write_operator. rewrite Htype, Hoperand. cbn [cg_ret].
  replace (write_intrinsic operator i) with (write_syscall operator)
    by (destruct i; try discriminate Hdigit; reflexivity).
  rewrite (write_syscall_from_stack operator i d _ Hoperand Hdigit Hnone).
  cbn [fd strings]. now rewrite <- app_assoc.
Qed.

(** Its lines move SP by the slots that the type-checker takes and gives
    back. *)
Lemma syscall_from_stack_matches_depth
    (str_of_Intrinsic : Intrinsic -> string) (pc : ProgramContext)
    (operator : Operator) (i : Intrinsic) (d : nat)
    (st st' : type_stack) :
  type operator = INTRINSIC ->
  operand operator = OIntrinsic i ->
  syscall_digit i = Some d ->
  has_injected_args operator = false ->
  check_operator str_of_Intrinsic pc operator st = Ok (tt, st') ->
  sp_change
    (map Ins
       (syscall_lowering_from_stack d
          (syscall_optimization_omit_result operator)))
  = (16 * (Z.of_nat (List.length st) - Z.of_nat (List.length st')))%Z.
Proof.
  intros Htype Hoperand Hdigit Hnone Hcheck.
  rewrite (check_syscall_unfold _ _ _ _ _ _ Htype Hoperand Hdigit)
    in Hcheck.
  rewrite (injected_count_none operator Hnone) in Hcheck.
  simpl repeat in Hcheck. rewrite app_nil_r in Hcheck.
  rewrite sp_change_syscall_from_stack
    by (now apply syscall_digit_bound with i).
  destruct (Nat.lt_ge_cases (List.length st) (S d)) as [Hshort | Hdepth].
  - unfold tc_bind in Hcheck.
    rewrite raise_for_enough_arguments_short in Hcheck by assumption.
    discriminate Hcheck.
  - pose proof (syscall_pops_after_pushes operator (S d) 0 st
                  (if negb (syscall_optimization_omit_result operator)
                   then push_types [INTEGER] else tc_ret tt)
                  ltac:(lia) ltac:(lia)) as Hpops.
    simpl repeat in Hpops. rewrite app_nil_r in Hpops.
    rewrite Hpops in Hcheck.
    destruct (syscall_optimization_omit_result operator);
      injection Hcheck as <-;
      rewrite ?length_app, length_firstn; simpl List.length; lia.
Qed.

(** X15: a syscall that carries no injected args is lowered to pops of
    every argument: the number into X16, then the registers from
    X(arity-2) down to X0, then the trap and, unless the result is
    omitted, the push of X0; the operator is left as it was.  These
    lines move SP by exactly the slots the type-checker takes and gives
    back for the syscall. *)
Theorem syscall_without_injected_args
    (str_of_Intrinsic : Intrinsic -> string)
    (int_of_Intrinsic : Intrinsic -> option Z)
    (pc : ProgramContext) (debug_comments : bool) (idx : nat)
    (operator : Operator) (i : Intrinsic) (d : nat) (c : CodegenContext) :
  type operator = INTRINSIC ->
  operand operator = OIntrinsic i ->
  syscall_digit i = Some d ->
  has_injected_args operator = false ->
  let lines :=
    map Ins
      (syscall_lowering_from_stack d
         (syscall_optimization_omit_result operator)) in
  write_operator int_of_Intrinsic pc debug_comments idx operator c
  = (mkCodegenContext
       (fd c ++ debug_lines debug_comments operator ++ lines)%list
       (strings c),
     operator, Ok tt)
  /\ (forall st st' : type_stack,
        check_operator str_of_Intrinsic pc operator st = Ok (tt, st') ->
        sp_change lines
        = (16 * (Z.of_nat (List.length st)
                 - Z.of_nat (List.length st')))%Z).
Proof.
  intros Htype Hoperand Hdigit Hnone lines. split.
  - now apply write_operator_syscall_from_stack with i.
  - intros st st'. now apply syscall_from_stack_matches_depth with i.
Qed.

Lemma syscall_without_injected_args_witness :
  write_operator not_an_integer empty_context false 0 (intrinsic SYSCALL3)
    (mkCodegenContext [] [])
  = (mkCodegenContext
       (map Ins ["ldr X16, [SP]"; "add SP, SP, #16";
                 "ldr X2, [SP]"; "add SP, SP, #16";
                 "ldr X1, [SP]"; "add SP, SP, #16";
                 "ldr X0, [SP]"; "add SP, SP, #16";
                 "svc #0"; "sub SP, SP, #16"; "str X0, [SP]"])
       [],
     intrinsic SYSCALL3, Ok tt).
Proof.
  destruct (syscall_without_injected_args qualified_name not_an_integer
              empty_context false 0 (intrinsic SYSCALL3) SYSCALL3 3
              (mkCodegenContext [] []) eq_refl eq_refl eq_refl eq_refl)
    as [Hwritten _].
  exact Hwritten.
Defined.

(** ** The injected-args list in the backend *)

Lemma index_from_end_in_range {A : Type} (l : list A) (k : nat) :
  1 <= k -> k <= List.length l ->
  exists x : A, index_from_end l k = Some x.
Proof.
  intros Hpos Hrange. unfold index_from_end.
  destruct (Nat.leb_spec k (List.length l)); [|lia].
  destruct (nth_error l (List.length l - k)) as [x|] eqn:E;
    [now exists x|].
  apply nth_error_None in E. lia.
Qed.

Lemma index_from_end_out_of_range {A : Type} (l : list A) (k : nat) :
  List.length l < k -> index_from_end l k = None.
Proof.
  intros H. unfold index_from_end.
  destruct (Nat.leb_spec k (List.length l)); [lia | reflexivity].
Qed.

(** One turn of the loop of the syscall arm does not raise when its index
    is within the list. *)
Lemma syscall_load_registers_ok (syscall_arguments : nat)
    (injected_args : list (option Z)) (arg_ns : list nat) :
  (forall arg_n, In arg_n arg_ns -> arg_n <= List.length injected_args) ->
  forall c : CodegenContext,
  exists c' : CodegenContext,
    syscall_load_registers syscall_arguments injected_args arg_ns c
    = (c', Ok tt).
Proof.
  induction arg_ns as [|arg_n rest IH]; intros Hrange c; simpl.
  - now exists c.
  - assert (Hslot : exists slot : option Z,
               match arg_n with
               | O => cg_ret None
               | S _ =>
                   match index_from_end injected_args arg_n with
                   | Some slot => cg_ret slot
                   | None => cg_raise IndexError
                   end
               end c = (c, Ok slot)).
    { destruct arg_n as [|k]; [now exists None|].
      destruct (index_from_end_in_range injected_args (S k)) as [x Hx];
        [lia | apply Hrange; now left |].
      rewrite Hx. now exists x. }
    destruct Hslot as [slot Hslot].
    unfold cg_bind at 1. rewrite Hslot.
    assert (Hrest : forall arg_n0, In arg_n0 rest ->
                                   arg_n0 <= List.length injected_args)
      by (intros a Ha; apply Hrange; now right).
    destruct slot as [value|]; unfold cg_bind, write; cbv beta iota;
      apply IH; exact Hrest.
Qed.

(** The loop raises [IndexError] at the first index that is beyond the
    list. *)
Lemma syscall_load_registers_raises (syscall_arguments : nat)
    (injected_args : list (option Z)) (before after : list nat)
    (bad : nat) :
  (forall arg_n, In arg_n before -> arg_n <= List.length injected_args) ->
  List.length injected_args < bad ->
  forall c : CodegenContext,
  exists c' : CodegenContext,
    syscall_load_registers syscall_arguments injected_args
      (before ++ bad :: after)%list c
    = (c', Raise IndexError).
Proof.
  induction before as [|arg_n rest IH]; intros Hrange Hbad c.
  - simpl. destruct bad as [|k]; [lia|].
    rewrite index_from_end_out_of_range by assumption.
    now exists c.
  - simpl.
    assert (Hslot : exists slot : option Z,
               match arg_n with
               | O => cg_ret None
               | S _ =>
                   match index_from_end injected_args arg_n with
                   | Some slot => cg_ret slot
                   | None => cg_raise IndexError
                   end
               end c = (c, Ok slot)).
    { destruct arg_n as [|k]; [now exists None|].
      destruct (index_from_end_in_range injected_args (S k)) as [x Hx];
        [lia | apply Hrange; now left |].
      rewrite Hx. now exists x. }
    destruct Hslot as [slot Hslot].
    unfold cg_bind at 1. rewrite Hslot.
    assert (Hrest : forall arg_n0, In arg_n0 rest ->
                                   arg_n0 <= List.length injected_args)
      by (intros a Ha; apply Hrange; now right).
    destruct slot as [value|]; unfold cg_bind, write; cbv beta iota;
      apply IH; assumption.
Qed.

Lemma length_removelast_cons {A : Type} (x : A) (l : list A) :
  List.length (removelast (x :: l)) = List.length l.
Proof.
  rewrite removelast_firstn_len, length_firstn. simpl. lia.
Qed.

(** X16: the lowering of a syscall that carries a non-empty injected-args
    list removes the last slot of that list in the operator itself,
    whatever happens next.  With a list of [m] slots and arity [n], the
    lowering succeeds when [m >= n - 1] and ends with Python's
    [IndexError] when [m < n - 1]: a list as long as the arity survives
    two runs of the backend, and for an arity of three or more a third
    run raises. *)
Theorem syscall_lowering_pops_injected_args
    (int_of_Intrinsic : Intrinsic -> option Z)
    (pc : ProgramContext) (debug_comments : bool) (idx : nat)
    (operator : Operator) (i : Intrinsic) (d : nat)
    (slot : option Z) (slots : list (option Z)) (c : CodegenContext) :
  type operator = INTRINSIC ->
  operand operator = OIntrinsic i ->
  syscall_digit i = Some d ->
  syscall_optimization_injected_args operator = Some (slot :: slots) ->
  let popped :=
    set_injected_args operator (Some (removelast (slot :: slots))) in
  (d <= List.length (slot :: slots) ->
   exists c' : CodegenContext,
     write_operator int_of_Intrinsic pc debug_comments idx operator c
     = (c', popped, Ok tt))
  /\ (List.length (slot :: slots) < d ->
      exists c' : CodegenContext,
        write_operator int_of_Intrinsic pc debug_comments idx operator c
        = (c', popped, Raise IndexError)).
Proof.
  intros Htype Hoperand Hdigit Hinjected popped.
  destruct (debug_operator_comment_ok operator) as [comment Hcomment].
  { intros _. now exists i. }
  rewrite (write_operator_after_comment _ _ _ _ _ _ _ Hcomment).
  set (c0 := mkCodegenContext _ (strings c)).
  assert (Hlower :
            write_operator int_of_Intrinsic pc false idx operator c0
            = write_syscall operator c0).
  { unfold write_operator. rewrite Htype, Hoperand. cbn [cg_ret].
    destruct i; try discriminate Hdigit; reflexivity. }
  rewrite Hlower. unfold write_syscall, get_syscall_arguments_count.
  rewrite Hoperand, Hdigit, Hinjected. cbn [option_map].
  fold popped.
  replace (S d - 1) with d by lia.
  set (c1 := fst (match last (slot :: slots) None with
                  | Some number => write ["mov X16, #" ++ fmt_Z number] c0
                  | None => write ["ldr X16, [SP]"; "add SP, SP, #16"] c0
                  end)).
  assert (Hfirst : match last (slot :: slots) None with
                   | Some number => write ["mov X16, #" ++ fmt_Z number] c0
                   | None => write ["ldr X16, [SP]"; "add SP, SP, #16"] c0
                   end = (c1, Ok tt))
    by (subst c1; destruct (last (slot :: slots) None); reflexivity).
  rewrite Hfirst. split; intros Hlength.
  - destruct (syscall_load_registers_ok (S d)
                (removelast (slot :: slots)) (seq 0 d)) with (c := c1)
      as [c2 Hloop].
    { intros arg_n Hin. apply in_seq in Hin.
      rewrite length_removelast_cons. simpl in Hlength. lia. }
    unfold cg_bind at 1. rewrite Hloop.
    destruct (negb (syscall_optimization_omit_result operator));
      eexists; reflexivity.
  - set (m := List.length slots).
    assert (Hsplit : seq 0 d
                     = (seq 0 (S m) ++ S m :: seq (S (S m)) (d - S (S m)))
                         %list).
    { simpl in Hlength. fold m in Hlength.
      replace d with (S m + S (d - S (S m))) at 1 by lia.
      rewrite seq_app. simpl. reflexivity. }
    destruct (syscall_load_registers_raises (S d)
                (removelast (slot :: slots)) (seq 0 (S m))
                (seq (S (S m)) (d - S (S m))) (S m)) with (c := c1)
      as [c2 Hloop].
    { intros arg_n Hin. apply in_seq in Hin.
      rewrite length_removelast_cons. fold m. lia. }
    { rewrite length_removelast_cons. fold m. lia. }
    rewrite Hsplit. unfold cg_bind at 1. rewrite Hloop.
    eexists; reflexivity.
Qed.

Lemma syscall_lowering_pops_injected_args_witness :
  exists c' : CodegenContext,
    write_operator not_an_integer empty_context false 0
      (optimized_syscall SYSCALL3 true [Some 4%Z])
      (mkCodegenContext [] [])
    = (c',
       set_injected_args (optimized_syscall SYSCALL3 true [Some 4%Z])
         (Some (removelast [Some 4%Z])),
       Raise IndexError).
Proof.
  destruct (syscall_lowering_pops_injected_args not_an_integer
              empty_context false 0
              (optimized_syscall SYSCALL3 true [Some 4%Z]) SYSCALL3 3
              (Some 4%Z) [] (mkCodegenContext [] [])
              eq_refl eq_refl eq_refl eq_refl)
    as [_ Hraises].
  apply Hraises. simpl. lia.
Defined.

(** ** Function declarations *)

(** The lowering of a sequence appends to the sink. *)
Lemma write_operators_from_appends
    (int_of_Intrinsic : Intrinsic -> option Z) (pc : ProgramContext)
    (debug_comments : bool) (idx : nat) (ops ops' : list Operator)
    (c c' : CodegenContext) (result : outcome unit) :
  write_operators_from int_of_Intrinsic pc debug_comments idx ops c
  = (c', ops', result) ->
  exists new : list asm_line, fd c' = (fd c ++ new)%list.
Proof.
  destruct c as [out table]. intros H.
  rewrite (lowering_local_write_operators_from int_of_Intrinsic pc
             debug_comments ops idx out table) in H.
  destruct (write_operators_from int_of_Intrinsic pc debug_comments idx
              ops (mkCodegenContext [] table)) as [[c0 ops0] r0].
  injection H as <- _ _. now exists (fd c0).
Qed.

(** X17: when the declarations have been written without a raise, the
    text they have added is one block for every function of the table
    that is neither inline nor externally defined, in the order of the
    table, and nothing else.  Each block is the line [name:], the text
    of the lowering of the source of the function, and [ret]; the text
    of a body does not depend on the text before it, only on the string
    table that the bodies before it have left.  A table of inline and
    externally defined functions only adds nothing. *)
Theorem declarations_are_blocks
    (int_of_Intrinsic : Intrinsic -> option Z) (pc : ProgramContext)
    (debug_comments : bool) (table table' : list (string * Function))
    (c c' : CodegenContext) :
  write_function_table int_of_Intrinsic pc debug_comments table c
  = (c', table', Ok tt) ->
  fd c'
  = (fd c
       ++ declarations_text int_of_Intrinsic pc debug_comments
            (declared_functions table) (strings c))%list
  /\ (declared_functions table = [] -> fd c' = fd c).
Proof.
  intros H.
  assert (Hblocks :
            fd c'
            = (fd c
                 ++ declarations_text int_of_Intrinsic pc debug_comments
                      (declared_functions table) (strings c))%list).
  { revert c c' table' H.
    induction table as [|[key f] rest IH]; intros c c' table' H;
      simpl in H.
    - injection H as <- _. simpl. now rewrite app_nil_r.
    - unfold declared_functions. simpl map. simpl filter.
      fold (declared_functions rest).
      destruct (negb (emit_inline_body f)
                && negb (is_externally_defined f)).
      + unfold _write_executable_body_instruction_set, fd_write in H.
        cbv beta iota in H.
        match type of H with
        | context [write_operators_from _ _ _ 0 (source f)
                     (mkCodegenContext ?out ?strs)] =>
            rewrite (lowering_local_write_operators_from int_of_Intrinsic
                       pc debug_comments (source f) 0 out strs) in H
        end.
        simpl declarations_text.
        unfold body_text, body_strings,
          _write_executable_body_instruction_set.
        destruct (write_operators_from int_of_Intrinsic pc debug_comments
                    0 (source f) (mkCodegenContext [] (strings c)))
          as [[[body_out body_table] body] [[]|e]];
          [|discriminate H].
        unfold shifted in H. cbn [fd strings fst] in H |- *.
        match type of H with
        | context [write_function_table _ _ _ rest ?c2] =>
            destruct (write_function_table int_of_Intrinsic pc
                        debug_comments rest c2)
              as [[c3 rest'] result] eqn:Hrest
        end.
        injection H as <- _ ->.
        apply IH in Hrest. cbn [fd strings] in Hrest.
        rewrite Hrest. unfold declaration_block.
        simpl. rewrite <- !app_assoc. reflexivity.
      + destruct (write_function_table int_of_Intrinsic pc debug_comments
                    rest c) as [[c1 rest'] result] eqn:Hrest.
        injection H as <- _ ->.
        now apply IH in Hrest. }
  split; [exact Hblocks|].
  intros Hnone. rewrite Hblocks, Hnone. simpl. now rewrite app_nil_r.
Qed.

Lemma declarations_are_blocks_witness :
  fd (fst (fst (write_function_table not_an_integer empty_context false
                  table_of_three (mkCodegenContext [] []))))
  = ((Raw ("greet:" ++ newline)
      :: map Ins ["sub SP, SP, #16"; "adr X0, str_0"; "str X0, [SP]";
                  "sub SP, SP, #16"; "mov X0, #2"; "str X0, [SP]";
                  "add SP, SP, #16"; "add SP, SP, #16"; "ret"])
     ++ Raw ("add:" ++ newline)
        :: map Ins ["ldr X0, [SP]"; "add SP, SP, #16"; "ldr X1, [SP]";
                    "add SP, SP, #16"; "add X0, X1, X0"; "sub SP, SP, #16";
                    "str X0, [SP]"; "ret"])%list.
Proof.
  destruct (declarations_are_blocks not_an_integer empty_context false
              table_of_three
              (snd (fst (write_function_table not_an_integer empty_context
                           false table_of_three (mkCodegenContext [] []))))
              (mkCodegenContext [] [])
              (fst (fst (write_function_table not_an_integer empty_context
                           false table_of_three (mkCodegenContext [] []))))
              eq_refl)
    as [Htext _].
  rewrite Htext. reflexivity.
Defined.

(** ** Debug comments *)

Lemma code_lines_app (first second : list asm_line) :
  code_lines (first ++ second)%list
  = (code_lines first ++ code_lines second)%list.
Proof. apply filter_app. Qed.

Lemma debug_operator_comment_is_comment (operator : Operator)
    (comment : string) :
  debug_operator_comment operator = Ok comment ->
  is_comment (Ins comment) = true.
Proof.
  unfold debug_operator_comment. intros H.
  destruct (type operator);
    try (destruct (operand operator); try discriminate H);
    injection H as <-;
    destruct (has_optimizations operator);
    try destruct (is_syscall operator);
    reflexivity.
Qed.

(** The comment of an operator can only fail the assertion of the
    intrinsic arm, which then fails without the comment as well. *)
Lemma debug_operator_comment_raises
    (int_of_Intrinsic : Intrinsic -> option Z) (pc : ProgramContext)
    (idx : nat) (operator : Operator) (e : Raised) (c : CodegenContext) :
  debug_operator_comment operator = Raise e ->
  e = AssertionError
  /\ write_operator int_of_Intrinsic pc false idx operator c
     = (c, operator, Raise AssertionError).
Proof.
  unfold debug_operator_comment, write_operator. intros H.
  destruct (type operator); try discriminate H.
  destruct (operand operator); try discriminate H;
    injection H as <-; split; reflexivity.
Qed.

(** The lowering of one operator with and without debug comments, from
    contexts that agree on the string table and, comments apart, on the
    text. *)
Lemma write_operator_comments_apart
    (int_of_Intrinsic : Intrinsic -> option Z) (pc : ProgramContext)
    (idx : nat) (operator : Operator) (ca cb : CodegenContext) :
  strings ca = strings cb ->
  code_lines (fd ca) = code_lines (fd cb) ->
  let '(ca', lowered_a, result_a) :=
    write_operator int_of_Intrinsic pc true idx operator ca in
  let '(cb', lowered_b, result_b) :=
    write_operator int_of_Intrinsic pc false idx operator cb in
  result_a = result_b /\ lowered_a = lowered_b
  /\ strings ca' = strings cb'
  /\ code_lines (fd ca') = code_lines (fd cb').
Proof.
  intros Hstrings Hcode.
  rewrite write_operator_with_comment.
  unfold _write_debug_operator_comment.
  destruct (debug_operator_comment operator) as [comment|e] eqn:Hcomment.
  - apply debug_operator_comment_is_comment in Hcomment.
    unfold write. cbv beta iota.
    destruct ca as [out_a table], cb as [out_b table_b].
    simpl in Hstrings, Hcode. subst table_b. cbn [fd strings map].
    rewrite (lowering_local_write_operator int_of_Intrinsic pc false idx
               operator (out_a ++ [Ins comment])%list table).
    rewrite (lowering_local_write_operator int_of_Intrinsic pc false idx
               operator out_b table).
    destruct (write_operator int_of_Intrinsic pc false idx operator
                (mkCodegenContext [] table)) as [[c0 lowered] result].
    unfold shifted. cbn [fd strings].
    repeat split.
    assert (Hdropped : code_lines [Ins comment] = [])
      by (unfold code_lines; cbn [filter]; now rewrite Hcomment).
    now rewrite !code_lines_app, Hcode, Hdropped, app_nil_r.
  - destruct (debug_operator_comment_raises int_of_Intrinsic pc idx
                operator e cb Hcomment) as [-> Hplain].
    rewrite Hplain. unfold cg_raise. cbv beta iota.
    repeat split; assumption.
Qed.

Lemma write_operators_from_comments_apart
    (int_of_Intrinsic : Intrinsic -> option Z) (pc : ProgramContext)
    (ops : list Operator) :
  forall (idx : nat) (ca cb : CodegenContext),
    strings ca = strings cb ->
    code_lines (fd ca) = code_lines (fd cb) ->
    let '(ca', lowered_a, result_a) :=
      write_operators_from int_of_Intrinsic pc true idx ops ca in
    let '(cb', lowered_b, result_b) :=
      write_operators_from int_of_Intrinsic pc false idx ops cb in
    result_a = result_b /\ lowered_a = lowered_b
    /\ strings ca' = strings cb'
    /\ code_lines (fd ca') = code_lines (fd cb').
Proof.
  induction ops as [|operator rest IH]; intros idx ca cb Hstrings Hcode;
    simpl.
  - repeat split; assumption.
  - pose proof (write_operator_comments_apart int_of_Intrinsic pc idx
                  operator ca cb Hstrings Hcode) as Hone.
    destruct (write_operator int_of_Intrinsic pc true idx operator ca)
      as [[ca1 lowered_a] result_a].
    destruct (write_operator int_of_Intrinsic pc false idx operator cb)
      as [[cb1 lowered_b] result_b].
    destruct Hone as (<- & <- & Hstrings1 & Hcode1).
    destruct result_a as [[]|e]; [|repeat split; assumption].
    pose proof (IH (S idx) ca1 cb1 Hstrings1 Hcode1) as Hrest.
    destruct (write_operators_from int_of_Intrinsic pc true (S idx) rest
                ca1) as [[ca2 rest_a] result_a].
    destruct (write_operators_from int_of_Intrinsic pc false (S idx) rest
                cb1) as [[cb2 rest_b] result_b].
    destruct Hrest as (<- & <- & Hstrings2 & Hcode2).
    repeat split; assumption.
Qed.

(** ** Control-flow labels *)

Lemma write_operator_appends
    (int_of_Intrinsic : Intrinsic -> option Z) (pc : ProgramContext)
    (debug_comments : bool) (idx : nat) (operator operator' : Operator)
    (c c' : CodegenContext) (result : outcome unit) :
  write_operator int_of_Intrinsic pc debug_comments idx operator c
  = (c', operator', result) ->
  exists new : list asm_line, fd c' = (fd c ++ new)%list.
Proof.
  destruct c as [out table]. intros H.
  rewrite (lowering_local_write_operator int_of_Intrinsic pc
             debug_comments idx operator out table) in H.
  destruct (write_operator int_of_Intrinsic pc debug_comments idx
              operator (mkCodegenContext [] table)) as [[c0 op0] r0].
  injection H as <- _ _. now exists (fd c0).
Qed.

(** In a lowering that has not raised, the operator at position [k] of
    the sequence has been lowered under the index [idx + k], and what it
    has written is still in the text at the end. *)
Lemma lowered_at_position
    (int_of_Intrinsic : Intrinsic -> option Z) (pc : ProgramContext)
    (debug_comments : bool) (ops : list Operator) :
  forall (idx : nat) (c c' : CodegenContext) (ops' : list Operator)
         (k : nat) (operator : Operator),
    write_operators_from int_of_Intrinsic pc debug_comments idx ops c
    = (c', ops', Ok tt) ->
    nth_error ops k = Some operator ->
    exists (ck ck' : CodegenContext) (operator' : Operator)
           (new after : list asm_line),
      write_operator int_of_Intrinsic pc debug_comments (idx + k)
        operator ck
      = (ck', operator', Ok tt)
      /\ fd ck' = (fd ck ++ new)%list
      /\ fd c' = (fd ck' ++ after)%list.
Proof.
  induction ops as [|head rest IH];
    intros idx c c' ops' k operator H Hk.
  - destruct k; discriminate Hk.
  - simpl in H.
    destruct (write_operator int_of_Intrinsic pc debug_comments idx head c)
      as [[c1 head'] [[]|e]] eqn:Hhead; [|discriminate H].
    destruct (write_operators_from int_of_Intrinsic pc debug_comments
                (S idx) rest c1) as [[c2 rest'] result] eqn:Hrest.
    injection H as <- _ ->.
    destruct k as [|k]; simpl in Hk.
    + injection Hk as <-.
      destruct (write_operator_appends _ _ _ _ _ _ _ _ _ Hhead)
        as [new Hnew].
      destruct (write_operators_from_appends _ _ _ _ _ _ _ _ _ Hrest)
        as [after Hafter].
      exists c, c1, head', new, after.
      rewrite Nat.add_0_r. now repeat split.
    + destruct (IH (S idx) c1 c2 rest' k operator Hrest Hk)
        as (ck & ck' & operator' & new & after & Hlowered & Hnew & Hafter).
      exists ck, ck', operator', new, after.
      rewrite Nat.add_succ_r. now repeat split.
Qed.

(** What a control-flow operator has written when its lowering has not
    raised. *)
Lemma write_control_flow
    (int_of_Intrinsic : Intrinsic -> option Z) (pc : ProgramContext)
    (debug_comments : bool) (idx : nat) (operator operator' : Operator)
    (c c' : CodegenContext) :
  write_operator int_of_Intrinsic pc debug_comments idx operator c
  = (c', operator', Ok tt) ->
  match type operator, jumps_to_operator_idx operator with
  | (END | WHILE), None =>
      In (Raw (".ctx_" ++ fmt_nat idx ++ ":" ++ newline)) (fd c')
  | (END | WHILE), Some target =>
      In (Ins ("b .ctx_" ++ fmt_Z target)) (fd c')
      /\ In (Raw (".ctx_" ++ fmt_nat idx ++ "_over:" ++ newline)) (fd c')
  | IF, Some target => In (Ins ("bne .ctx_" ++ fmt_Z target)) (fd c')
  | DO, Some target =>
      In (Ins ("bne .ctx_" ++ fmt_Z target ++ "_over")) (fd c')
  | (IF | DO), None => False
  | _, _ => True
  end.
Proof.
  intros H.
  destruct (debug_operator_comment operator) as [comment|e] eqn:Hcomment.
  - rewrite (write_operator_after_comment _ _ _ _ _ _ _ Hcomment) in H.
    unfold write_operator in H. unfold cg_ret at 1 in H.
    cbv beta iota in H.
    destruct (type operator); try exact I;
      destruct (jumps_to_operator_idx operator) as [target|];
      try discriminate H;
      unfold unchanged, cg_bind, write, fd_write in H;
      cbv beta iota in H; cbn [fd strings map] in H;
      injection H as <- _; cbn [fd];
      repeat split; rewrite ?in_app_iff; simpl; tauto.
  - unfold debug_operator_comment in Hcomment.
    destruct (type operator); try discriminate Hcomment. exact I.
Qed.

(** X19: the labels of a body come from the positions of its operators.
    When the lowering of a sequence has not raised, an END or WHILE at
    position [k] without a link has written the label [.ctx_k:], and one
    with a link to [t] has written the branch [b .ctx_t] and the label
    [.ctx_k_over:]; an IF or DO always has a link, and has written the
    conditional branch to [.ctx_t] or to [.ctx_t_over]. *)
Theorem labels_come_from_positions
    (int_of_Intrinsic : Intrinsic -> option Z) (pc : ProgramContext)
    (debug_comments : bool) (ops ops' : list Operator)
    (c c' : CodegenContext) (k : nat) (operator : Operator) :
  _write_executable_body_instruction_set int_of_Intrinsic pc
    debug_comments ops c
  = (c', ops', Ok tt) ->
  nth_error ops k = Some operator ->
  match type operator, jumps_to_operator_idx operator with
  | (END | WHILE), None =>
      In (Raw (".ctx_" ++ fmt_nat k ++ ":" ++ newline)) (fd c')
  | (END | WHILE), Some target =>
      In (Ins ("b .ctx_" ++ fmt_Z target)) (fd c')
      /\ In (Raw (".ctx_" ++ fmt_nat k ++ "_over:" ++ newline)) (fd c')
  | IF, Some target => In (Ins ("bne .ctx_" ++ fmt_Z target)) (fd c')
  | DO, Some target =>
      In (Ins ("bne .ctx_" ++ fmt_Z target ++ "_over")) (fd c')
  | (IF | DO), None => False
  | _, _ => True
  end.
Proof.
  unfold _write_executable_body_instruction_set. intros H Hk.
  destruct (lowered_at_position _ _ _ _ _ _ _ _ _ _ H Hk)
    as (ck & ck' & operator' & new & after & Hlowered & _ & Hafter).
  apply write_control_flow in Hlowered. simpl in Hlowered.
  rewrite Hafter.
  destruct (type operator); try exact I;
    destruct (jumps_to_operator_idx operator);
    rewrite ?in_app_iff; tauto.
Qed.

Lemma labels_come_from_positions_witness :
  let run :=
    _write_executable_body_instruction_set not_an_integer empty_context
      false loop_then_if (mkCodegenContext [] []) in
  In (Ins "b .ctx_0") (fd (fst (fst run)))
  /\ In (Raw (".ctx_4_over:" ++ newline)) (fd (fst (fst run))).
Proof.
  intros run.
  exact (labels_come_from_positions not_an_integer empty_context false
           loop_then_if (snd (fst run)) (mkCodegenContext [] [])
           (fst (fst run)) 4 (linked END (Some 0%Z)) eq_refl eq_refl).
Defined.

(** X20: a link that points at the position of an END or WHILE is
    resolved: when the lowering of a sequence has not raised, the label
    that an operator branches to is a label that the operator at the
    linked position has written.  An IF, END or WHILE linked to the
    position [j] of an END or WHILE without a link branches to [.ctx_j],
    which is defined there; a DO linked to the position [j] of an END or
    WHILE with a link branches to [.ctx_j_over], which is defined
    there. *)
Theorem linked_labels_are_defined
    (int_of_Intrinsic : Intrinsic -> option Z) (pc : ProgramContext)
    (debug_comments : bool) (ops ops' : list Operator)
    (c c' : CodegenContext) (i j : nat) (branch target : Operator) :
  _write_executable_body_instruction_set int_of_Intrinsic pc
    debug_comments ops c
  = (c', ops', Ok tt) ->
  nth_error ops i = Some branch ->
  nth_error ops j = Some target ->
  jumps_to_operator_idx branch = Some (Z.of_nat j) ->
  type target = END \/ type target = WHILE ->
  match type branch, jumps_to_operator_idx target with
  | IF, None =>
      In (Ins ("bne .ctx_" ++ fmt_nat j)) (fd c')
      /\ In (Raw (".ctx_" ++ fmt_nat j ++ ":" ++ newline)) (fd c')
  | (END | WHILE), None =>
      In (Ins ("b .ctx_" ++ fmt_nat j)) (fd c')
      /\ In (Raw (".ctx_" ++ fmt_nat j ++ ":" ++ newline)) (fd c')
  | DO, Some _ =>
      In (Ins ("bne .ctx_" ++ fmt_nat j ++ "_over")) (fd c')
      /\ In (Raw (".ctx_" ++ fmt_nat j ++ "_over:" ++ newline)) (fd c')
  | _, _ => True
  end.
Proof.
  unfold _write_executable_body_instruction_set.
  intros H Hi Hj Hlink Htarget.
  destruct (lowered_at_position _ _ _ _ _ _ _ _ _ _ H Hi)
    as (ci & ci' & branch' & new_i & after_i & Hbranch & _ & Hafter_i).
  destruct (lowered_at_position _ _ _ _ _ _ _ _ _ _ H Hj)
    as (cj & cj' & target' & new_j & after_j & Hlabel & _ & Hafter_j).
  apply write_control_flow in Hbranch, Hlabel.
  simpl in Hbranch, Hlabel. rewrite Hlink in Hbranch.
  unfold fmt_nat in *.
  destruct (jumps_to_operator_idx target) as [back|];
    destruct Htarget as [Htype | Htype]; rewrite Htype in Hlabel;
    destruct (type branch); try exact I;
    split;
    first [ rewrite Hafter_i, in_app_iff; tauto
          | rewrite Hafter_j, in_app_iff; tauto ].
Qed.

Lemma linked_labels_are_defined_witness :
  let run :=
    _write_executable_body_instruction_set not_an_integer empty_context
      false loop_then_if (mkCodegenContext [] []) in
  In (Ins "bne .ctx_4_over") (fd (fst (fst run)))
  /\ In (Raw (".ctx_4_over:" ++ newline)) (fd (fst (fst run))).
Proof.
  intros run.
  exact (linked_labels_are_defined not_an_integer empty_context false
           loop_then_if (snd (fst run)) (mkCodegenContext [] [])
           (fst (fst run)) 2 4 (linked DO (Some 4%Z))
           (linked END (Some 0%Z)) eq_refl eq_refl eq_refl eq_refl
           (or_introl eq_refl)).
Defined.

(** ** Plain string literals and external calls *)

Lemma string_length_append (s t : string) :
  String.length (s ++ t) = String.length s + String.length t.
Proof. induction s as [|ch s IH]; simpl; [reflexivity | now rewrite IH]. Qed.

Lemma substring_prefix (s t : string) :
  substring 0 (String.length s) (s ++ t) = s.
Proof.
  induction s as [|ch s IH]; simpl.
  - now destruct t.
  - now rewrite IH.
Qed.

(** Python's [text[1:-1]] on a text between two delimiters, and on a text
    too short to have two. *)
Lemma strip_first_last_between (opening closing : ascii) (s : string) :
  strip_first_last (String opening (s ++ String closing EmptyString)) = s.
Proof.
  unfold strip_first_last. simpl String.length.
  rewrite string_length_append. simpl String.length.
  replace (S (String.length s + 1) - 2) with (String.length s) by lia.
  simpl. apply substring_prefix.
Qed.

Lemma strip_first_last_short (text : string) :
  String.length text < 2 -> strip_first_last text = EmptyString.
Proof.
  unfold strip_first_last. intros H.
  destruct text as [|a [|b text]]; simpl in *; try reflexivity. lia.
Qed.

(** X21: a PUSH_STRING interns the token text without its first and
    last character and pushes the length of the operand.  When the token
    text is the operand between two delimiters (a literal without
    escapes), the payload is the operand itself, so that the length
    pushed is the length of the payload.  When the token text has fewer
    than two characters, the payload is empty, whatever the operand is,
    and the length pushed is still the length of the operand. *)
Theorem plain_literal_payload_is_operand
    (int_of_Intrinsic : Intrinsic -> option Z)
    (pc : ProgramContext) (debug_comments : bool) (idx : nat)
    (operator : Operator) (value : string) (c : CodegenContext) :
  type operator = PUSH_STRING ->
  operand operator = OStr value ->
  let label := string_label (List.length (strings c)) in
  let written (payload : string) :=
    (mkCodegenContext
       (fd c ++ debug_lines debug_comments operator
          ++ map Ins
               ["sub SP, SP, #16"; ("adr X0, " ++ label)%string;
                "str X0, [SP]"; "sub SP, SP, #16";
                ("mov X0, #" ++ fmt_nat (String.length value))%string;
                "str X0, [SP]"])%list
       (strings c ++ [(label, payload)])%list,
     operator, @Ok unit tt) in
  (forall opening closing : ascii,
      text (token operator)
      = String opening (value ++ String closing EmptyString) ->
      write_operator int_of_Intrinsic pc debug_comments idx operator c
      = written value)
  /\ (String.length (text (token operator)) < 2 ->
      write_operator int_of_Intrinsic pc debug_comments idx operator c
      = written EmptyString).
Proof.
  intros Htype Hoperand label written.
  assert (Hwritten :
            write_operator int_of_Intrinsic pc debug_comments idx operator c
            = written (strip_first_last (text (token operator)))).
  { destruct (debug_operator_comment_ok operator) as [comment Hcomment].
    { rewrite Htype. discriminate. }
    rewrite (write_operator_after_comment _ _ _ _ _ _ _ Hcomment).
    unfold write_operator. rewrite Htype, Hoperand.
    cbn [cg_ret]. unfold unchanged, cg_bind, load_string.
    rewrite write_appends. cbn [fd strings].
    unfold written. now rewrite <- app_assoc. }
  split.
  - intros opening closing Htext. rewrite Hwritten.
    now rewrite Htext, strip_first_last_between.
  - intros Hshort. rewrite Hwritten.
    now rewrite strip_first_last_short.
Qed.

Lemma plain_literal_payload_is_operand_witness :
  write_operator not_an_integer empty_context false 0
    (push_string (quote ++ "hi" ++ quote) "hi") (mkCodegenContext [] [])
  = (mkCodegenContext
       (map Ins ["sub SP, SP, #16"; "adr X0, str_0"; "str X0, [SP]";
                 "sub SP, SP, #16"; "mov X0, #2"; "str X0, [SP]"])
       [("str_0", "hi")],
     push_string (quote ++ "hi" ++ quote) "hi", Ok tt)
  /\ write_operator not_an_integer empty_context false 0
       (push_string "x" "abc") (mkCodegenContext [] [])
     = (mkCodegenContext
          (map Ins ["sub SP, SP, #16"; "adr X0, str_0"; "str X0, [SP]";
                    "sub SP, SP, #16"; "mov X0, #3"; "str X0, [SP]"])
          [("str_0", EmptyString)],
        push_string "x" "abc", Ok tt).
Proof.
  split.
  - destruct (plain_literal_payload_is_operand not_an_integer empty_context
                false 0 (push_string (quote ++ "hi" ++ quote) "hi") "hi"
                (mkCodegenContext [] []) eq_refl eq_refl)
      as [Hplain _].
    exact (Hplain (ascii_of_nat 34) (ascii_of_nat 34) eq_refl).
  - destruct (plain_literal_payload_is_operand not_an_integer empty_context
                false 0 (push_string "x" "abc") "abc"
                (mkCodegenContext [] []) eq_refl eq_refl)
      as [_ Hshort].
    apply Hshort. simpl. lia.
Defined.

(** X22: a CALL of a name that is in the external set and not in the
    function table uses the single-argument convention in both passes:
    the type-checker takes one INTEGER and gives one INTEGER back, and
    the backend pops X0, branches with [bl], and pushes X0, which leaves
    SP where it was. *)
Theorem call_of_external_name
    (str_of_Intrinsic : Intrinsic -> string)
    (int_of_Intrinsic : Intrinsic -> option Z)
    (pc : ProgramContext) (debug_comments : bool) (idx : nat)
    (operator : Operator) (function_name : string)
    (rest : type_stack) (c : CodegenContext) :
  type operator = CALL ->
  operand operator = OStr function_name ->
  in_extern_functions function_name pc = true ->
  functions_get function_name (functions pc) = None ->
  check_operator str_of_Intrinsic pc operator (rest ++ [INTEGER])%list
  = Ok (tt, rest ++ [INTEGER])%list
  /\ write_operator int_of_Intrinsic pc debug_comments idx operator c
     = (mkCodegenContext
          (fd c ++ debug_lines debug_comments operator
             ++ map Ins (call_lowering_of_extern function_name))%list
          (strings c),
        operator, Ok tt)
  /\ sp_change (map Ins (call_lowering_of_extern function_name)) = 0%Z.
Proof.
  intros Htype Hoperand Hextern Htable. repeat split.
  - unfold check_operator. rewrite Htype, Hoperand.
    cbn [str_of_operand]. rewrite Hextern. unfold tc_bind.
    rewrite raise_for_enough_arguments_ok
      by (rewrite length_app; simpl; lia).
    now rewrite pop_and_raise_top.
  - destruct (debug_operator_comment_ok operator) as [comment Hcomment].
    { rewrite Htype. discriminate. }
    rewrite (write_operator_after_comment _ _ _ _ _ _ _ Hcomment).
    unfold write_operator. rewrite Htype, Hoperand, Htable, Hextern.
    cbn [cg_ret]. unfold unchanged, cg_bind, write. cbv beta iota.
    cbn [fd strings map]. unfold call_lowering_of_extern.
    cbn [map]. now rewrite <- !app_assoc.
Qed.

Lemma call_of_external_name_witness :
  check_operator qualified_name program_with_external (call "puts")
    ([] ++ [INTEGER])%list
  = Ok (tt, [] ++ [INTEGER])%list
  /\ write_operator not_an_integer program_with_external false 1
       (call "puts") (mkCodegenContext [] [])
     = (mkCodegenContext
          (map Ins ["ldr X0, [SP]"; "add SP, SP, #16"; "bl puts";
                    "sub SP, SP, #16"; "str X0, [SP]"])
          [],
        call "puts", Ok tt).
Proof.
  destruct (call_of_external_name qualified_name not_an_integer
              program_with_external false 1 (call "puts") "puts" []
              (mkCodegenContext [] []) eq_refl eq_refl eq_refl eq_refl)
    as (Hchecked & Hwritten & _).
  split; [exact Hchecked | exact Hwritten].
Defined.

(** ** Without debug comments no comment is written *)

Lemma writes_only_ret {A : Type} (P : asm_line -> Prop) (a : A) :
  writes_only P (cg_ret a).
Proof. intros c. exists []. simpl. now rewrite app_nil_r. Qed.

Lemma writes_only_raise {A : Type} (P : asm_line -> Prop) (e : Raised) :
  writes_only P (@cg_raise A e).
Proof. intros c. exists []. simpl. now rewrite app_nil_r. Qed.

Lemma writes_only_write (P : asm_line -> Prop) (lines : list string) :
  Forall P (map Ins lines) -> writes_only P (write lines).
Proof. intros H c. now exists (map Ins lines). Qed.

Lemma writes_only_fd_write (P : asm_line -> Prop) (content : string) :
  P (Raw content) -> writes_only P (fd_write content).
Proof. intros H c. exists [Raw content]. split; [reflexivity|]. now constructor. Qed.

Lemma writes_only_load_string (P : asm_line -> Prop) (payload : string) :
  writes_only P (load_string payload).
Proof. intros c. exists []. simpl. now rewrite app_nil_r. Qed.

Lemma writes_only_bind {A B : Type} (P : asm_line -> Prop)
    (m : CG A) (k : A -> CG B) :
  writes_only P m -> (forall a, writes_only P (k a)) ->
  writes_only P (cg_bind m k).
Proof.
  intros Hm Hk c. unfold cg_bind.
  destruct (Hm c) as (new1 & Hfd1 & HP1).
  destruct (m c) as [c1 [a|e]]; simpl in Hfd1.
  - destruct (Hk a c1) as (new2 & Hfd2 & HP2).
    exists (new1 ++ new2)%list. split.
    + now rewrite Hfd2, Hfd1, app_assoc.
    + now apply Forall_app.
  - now exists new1.
Qed.

(** Closes a goal [writes_only is_code m] for a step built from writes of
    instructions. *)
Ltac writes_code_steps :=
  repeat first
    [ apply writes_only_ret
    | apply writes_only_raise
    | apply writes_only_load_string
    | apply writes_only_bind
    | apply writes_only_write; repeat constructor
    | apply writes_only_fd_write; reflexivity
    | match goal with
      | |- forall _, _ => intro
      | |- writes_only _ (if ?b then _ else _) => destruct b
      | |- writes_only _ (match ?x with [] => _ | _ :: _ => _ end) =>
          destruct x
      | |- writes_only _ (match ?x with Some _ => _ | None => _ end) =>
          destruct x
      | |- writes_only _ (match ?x with O => _ | S _ => _ end) =>
          destruct x
      end ].

Lemma writes_code_syscall_load_registers (syscall_arguments : nat)
    (injected_args : list (option Z)) (arg_ns : list nat) :
  writes_only is_code
    (syscall_load_registers syscall_arguments injected_args arg_ns).
Proof.
  induction arg_ns as [|arg_n rest IH]; simpl.
  - apply writes_only_ret.
  - apply writes_only_bind; [writes_code_steps|].
    intros [value|]; (apply writes_only_bind; [|intros _; exact IH]);
      writes_code_steps.
Qed.

Lemma writes_code_pop_into_registers (registers : list nat) :
  writes_only is_code (pop_into_registers registers).
Proof.
  induction registers as [|r rest IH]; simpl.
  - apply writes_only_ret.
  - apply writes_only_bind; [writes_code_steps|]. intros _.
    apply writes_only_bind; [writes_code_steps|]. intros _. exact IH.
Qed.

Lemma lowering_writes_only_unchanged (P : asm_line -> Prop)
    (operator : Operator) (m : CG unit) :
  writes_only P m -> lowering_writes_only P (unchanged operator m).
Proof.
  intros Hm c. destruct (Hm c) as (new & Hfd & HP).
  exists new. unfold unchanged. now destruct (m c).
Qed.

Lemma lowering_writes_only_raise {B : Type} (P : asm_line -> Prop)
    (lowered : B) (e : Raised) :
  lowering_writes_only P (fun c => (c, lowered, Raise e)).
Proof. intros c. exists []. simpl. now rewrite app_nil_r. Qed.

Lemma writes_code_write_syscall (operator : Operator) :
  lowering_writes_only is_code (write_syscall operator).
Proof.
  intros c. unfold write_syscall.
  destruct (get_syscall_arguments_count operator) as [n|];
    [|apply (lowering_writes_only_raise is_code operator AssertionError)].
  destruct (match syscall_optimization_injected_args operator with
            | Some ((_ :: _) as own) => (own, true)
            | _ => (repeat None n, false)
            end) as [injected_args aliased].
  set (tail := cg_bind _ _).
  assert (Htail : writes_only is_code tail).
  { subst tail. apply writes_only_bind;
      [apply writes_code_syscall_load_registers|]. intros _.
    writes_code_steps. }
  destruct (last injected_args None); unfold write; cbv beta iota;
    match goal with
    | |- context [tail ?c1] =>
        destruct (Htail c1) as (new & Hfd & Hcode);
        destruct (tail c1) as [c2 result]
    end;
    cbn [fst fd] in *;
    eexists; (split; [rewrite Hfd, <- app_assoc; reflexivity|]);
    (apply Forall_app; split; [repeat constructor | exact Hcode]).
Qed.

(** Without debug comments, the lowering of an operator writes no comment
    line. *)
Lemma writes_code_write_operator
    (int_of_Intrinsic : Intrinsic -> option Z) (pc : ProgramContext)
    (idx : nat) (operator : Operator) :
  lowering_writes_only is_code
    (write_operator int_of_Intrinsic pc false idx operator).
Proof.
  unfold write_operator. unfold cg_ret at 1. cbv beta iota.
  destruct (type operator).
  1: destruct (match operand operator with
               | OInt n => Some n
               | OIntrinsic i => int_of_Intrinsic i
               | _ => None
               end);
       [apply lowering_writes_only_unchanged; writes_code_steps
       |apply lowering_writes_only_raise].
  all: repeat first
    [ apply lowering_writes_only_raise
    | apply writes_code_write_syscall
    | apply lowering_writes_only_unchanged;
        solve [writes_code_steps
              | apply writes_only_bind;
                  [writes_code_steps; apply writes_code_pop_into_registers
                  |writes_code_steps] ]
    | match goal with
      | |- context [jumps_to_operator_idx ?o] =>
          destruct (jumps_to_operator_idx o)
      | |- context [functions_get ?n ?t] => destruct (functions_get n t)
      | |- context [in_extern_functions ?n ?p] =>
          destruct (in_extern_functions n p)
      | |- context [write_intrinsic ?o ?i] =>
          destruct i; cbn [write_intrinsic]
      | |- lowering_writes_only _
             (match ?x with Some _ => _ | None => _ end) => destruct x
      | |- context [operand ?o] => destruct (operand o)
      end ].
Qed.

Lemma writes_code_write_operators_from
    (int_of_Intrinsic : Intrinsic -> option Z) (pc : ProgramContext)
    (ops : list Operator) :
  forall idx : nat,
    lowering_writes_only is_code
      (write_operators_from int_of_Intrinsic pc false idx ops).
Proof.
  induction ops as [|operator rest IH]; intros idx c; simpl.
  - exists []. simpl. split; [now rewrite app_nil_r | constructor].
  - destruct (writes_code_write_operator int_of_Intrinsic pc idx operator c)
      as (new1 & Hfd1 & Hcode1).
    destruct (write_operator int_of_Intrinsic pc false idx operator c)
      as [[c1 operator'] [[]|e]]; simpl in Hfd1.
    + destruct (IH (S idx) c1) as (new2 & Hfd2 & Hcode2).
      destruct (write_operators_from int_of_Intrinsic pc false (S idx)
                  rest c1) as [[c2 rest'] result]; simpl in Hfd2.
      exists (new1 ++ new2)%list. simpl. split.
      * now rewrite Hfd2, Hfd1, app_assoc.
      * now apply Forall_app.
    + now exists new1.
Qed.

Lemma code_lines_of_code (out : list asm_line) :
  Forall is_code out -> code_lines out = out.
Proof.
  induction 1 as [|l out Hl _ IH]; simpl.
  - reflexivity.
  - unfold is_code in Hl. rewrite Hl. simpl. now rewrite IH.
Qed.

(** X18: debug comments change nothing but the comments.  The lowering of
    a sequence with debug comments and the lowering without them end in
    the same way (the same success or the same exception), leave the
    same operators and the same string table, and the text written
    without debug comments is the text written with them once its
    comment lines are taken out. *)
Theorem debug_comments_change_comments_only
    (int_of_Intrinsic : Intrinsic -> option Z) (pc : ProgramContext)
    (ops : list Operator) (c : CodegenContext) :
  let '(c_debug, ops_debug, result_debug) :=
    _write_executable_body_instruction_set int_of_Intrinsic pc true ops c in
  let '(c_plain, ops_plain, result_plain) :=
    _write_executable_body_instruction_set int_of_Intrinsic pc false ops c in
  result_debug = result_plain
  /\ ops_debug = ops_plain
  /\ strings c_debug = strings c_plain
  /\ exists new_debug new_plain : list asm_line,
       fd c_debug = (fd c ++ new_debug)%list
       /\ fd c_plain = (fd c ++ new_plain)%list
       /\ code_lines new_debug = new_plain.
Proof.
  unfold _write_executable_body_instruction_set.
  pose proof (write_operators_from_comments_apart int_of_Intrinsic pc ops
                0 c c eq_refl eq_refl) as Hsame.
  pose proof (writes_code_write_operators_from int_of_Intrinsic pc ops 0 c)
    as (new_plain & Hplain & Hcode).
  destruct (write_operators_from int_of_Intrinsic pc true 0 ops c)
    as [[c_debug ops_debug] result_debug] eqn:Hdebug.
  destruct (write_operators_from int_of_Intrinsic pc false 0 ops c)
    as [[c_plain ops_plain] result_plain].
  destruct Hsame as (Hresult & Hops & Hstrings & Htext).
  repeat split; try assumption.
  apply write_operators_from_appends in Hdebug as [new_debug Hnew].
  simpl in Hplain. exists new_debug, new_plain.
  repeat split; try assumption.
  rewrite Hnew, Hplain, !code_lines_app in Htext.
  apply app_inv_head in Htext.
  now rewrite Htext, code_lines_of_code.
Qed.

(** ** The stack pointer over a sequence *)

Lemma is_syscall_inv (operator : Operator) :
  is_syscall operator = true ->
  type operator = INTRINSIC
  /\ exists (i : Intrinsic) (d : nat),
       operand operator = OIntrinsic i /\ syscall_digit i = Some d.
Proof.
  unfold is_syscall. intros H.
  destruct (type operator); try discriminate H.
  destruct (operand operator) as [| |i|]; try discriminate H.
  destruct (syscall_digit i) as [d|] eqn:Hdigit; [|discriminate H].
  split; [reflexivity|]. now exists i, d.
Qed.

(** The text of a straight-line operator with a balanced template holds
    no branch and no label. *)
Lemma falls_through_write_operator
    (int_of_Intrinsic : Intrinsic -> option Z) (pc : ProgramContext)
    (debug_comments : bool) (idx : nat) (operator : Operator) :
  straight_line operator = true ->
  has_balanced_template operator = true ->
  lowering_writes_only falls_through
    (write_operator int_of_Intrinsic pc debug_comments idx operator).
Proof.
  intros Hline Hbalanced.
  assert (Hbody :
            lowering_writes_only falls_through
              (write_operator int_of_Intrinsic pc false idx operator)).
  { unfold write_operator. unfold cg_ret at 1. cbv beta iota.
    unfold straight_line in Hline.
    unfold has_balanced_template in Hbalanced.
    destruct (type operator); try discriminate Hline.
    - destruct (match operand operator with
                | OInt n => Some n
                | OIntrinsic i => int_of_Intrinsic i
                | _ => None
                end);
        [apply lowering_writes_only_unchanged; writes_code_steps
        |apply lowering_writes_only_raise].
    - destruct (operand operator);
        try apply lowering_writes_only_raise.
      apply lowering_writes_only_unchanged; writes_code_steps.
    - destruct (operand operator) as [| |i|];
        try discriminate Hbalanced.
      destruct i; try discriminate Hbalanced; cbn [write_intrinsic];
        apply lowering_writes_only_unchanged; writes_code_steps. }
  destruct debug_comments; [|exact Hbody].
  intros c. rewrite write_operator_with_comment.
  unfold _write_debug_operator_comment.
  destruct (debug_operator_comment operator) as [comment|e] eqn:Hcomment.
  - apply debug_operator_comment_slash in Hcomment as [tail ->].
    unfold write. cbv beta iota.
    destruct (Hbody (mkCodegenContext
                       (fd c ++ map Ins [String "/" tail])%list
                       (strings c))) as (new & Hfd & Hlines).
    exists (Ins (String "/" tail) :: new). split.
    + rewrite Hfd. cbn [fd map]. now rewrite <- app_assoc.
    + constructor; [reflexivity | exact Hlines].
  - exists []. simpl. split; [now rewrite app_nil_r | constructor].
Qed.

(** Neither does the text of a syscall that takes every argument from
    the stack. *)
Lemma falls_through_pops (registers : list nat) :
  Forall falls_through
    (map Ins
       (flat_map (fun r => pop_into ("X" ++ fmt_nat r)%string) registers)).
Proof.
  induction registers as [|r rest IH]; simpl.
  - constructor.
  - repeat (constructor; [reflexivity|]). exact IH.
Qed.

Lemma falls_through_syscall_from_stack (d : nat) (omit_result : bool) :
  Forall falls_through
    (map Ins (syscall_lowering_from_stack d omit_result)).
Proof.
  unfold syscall_lowering_from_stack. rewrite !map_app.
  repeat (apply Forall_app; split).
  - repeat constructor.
  - apply falls_through_pops.
  - repeat constructor.
  - destruct omit_result; repeat constructor.
Qed.

Lemma falls_through_debug_lines (debug_comments : bool)
    (operator : Operator) :
  Forall falls_through (debug_lines debug_comments operator).
Proof.
  unfold debug_lines. destruct debug_comments; [|constructor].
  destruct (debug_operator_comment operator) as [comment|e] eqn:H;
    [|constructor].
  apply debug_operator_comment_slash in H as [tail ->].
  repeat constructor.
Qed.

(** One operator on whose depth the two passes agree: its text. *)
Lemma faithful_operator_falls_through
    (int_of_Intrinsic : Intrinsic -> option Z) (pc : ProgramContext)
    (debug_comments : bool) (idx : nat) (operator operator' : Operator)
    (c c' : CodegenContext) (result : outcome unit) :
  depth_faithful operator = true ->
  write_operator int_of_Intrinsic pc debug_comments idx operator c
  = (c', operator', result) ->
  exists new : list asm_line,
    fd c' = (fd c ++ new)%list /\ Forall falls_through new.
Proof.
  unfold depth_faithful. intros Hkind Hwrite.
  apply andb_true_iff in Hkind as [Hline Hkind].
  apply orb_true_iff in Hkind as [Hbalanced | Hsyscall].
  - destruct (falls_through_write_operator int_of_Intrinsic pc
                debug_comments idx operator Hline Hbalanced c)
      as (new & Hfd & Hlines).
    rewrite Hwrite in Hfd. now exists new.
  - apply andb_true_iff in Hsyscall as [Hsyscall Hnone].
    apply negb_true_iff in Hnone.
    destruct (is_syscall_inv operator Hsyscall)
      as (Htype & i & d & Hoperand & Hdigit).
    rewrite (write_operator_syscall_from_stack _ _ _ _ _ _ _ _
               Htype Hoperand Hdigit Hnone) in Hwrite.
    injection Hwrite as <- _ _.
    eexists. split; [reflexivity|].
    apply Forall_app. split;
      [apply falls_through_debug_lines
      |apply falls_through_syscall_from_stack].
Qed.

Lemma faithful_sequence_falls_through
    (int_of_Intrinsic : Intrinsic -> option Z) (pc : ProgramContext)
    (debug_comments : bool) (ops : list Operator) :
  forallb depth_faithful ops = true ->
  forall (idx : nat) (c c' : CodegenContext) (ops' : list Operator)
         (result : outcome unit),
    write_operators_from int_of_Intrinsic pc debug_comments idx ops c
    = (c', ops', result) ->
    exists new : list asm_line,
      fd c' = (fd c ++ new)%list /\ Forall falls_through new.
Proof.
  induction ops as [|operator rest IH];
    intros Hkinds idx c c' ops' result Hwrite; simpl in Hwrite.
  - injection Hwrite as <- _ _.
    exists []. rewrite app_nil_r. split; [reflexivity | constructor].
  - simpl in Hkinds. apply andb_true_iff in Hkinds as [Hkind Hkinds].
    destruct (write_operator int_of_Intrinsic pc debug_comments idx
                operator c) as [[c1 operator'] result1] eqn:Hwrite1.
    destruct (faithful_operator_falls_through _ _ _ _ _ _ _ _ _
                Hkind Hwrite1) as (new1 & Hfd1 & Hlines1).
    destruct result1 as [[]|e].
    + destruct (write_operators_from int_of_Intrinsic pc debug_comments
                  (S idx) rest c1) as [[c2 rest'] result2] eqn:Hwrite2.
      injection Hwrite as <- _ _.
      destruct (IH Hkinds _ _ _ _ _ Hwrite2) as (new2 & Hfd2 & Hlines2).
      exists (new1 ++ new2)%list. split.
      * now rewrite Hfd2, Hfd1, app_assoc.
      * apply Forall_app. now split.
    + injection Hwrite as <- _ _. now exists new1.
Qed.

(** One operator on whose depth the two passes agree: the stack
    pointer. *)
Lemma faithful_operator_sp_change
    (str_of_Intrinsic : Intrinsic -> string)
    (int_of_Intrinsic : Intrinsic -> option Z) (pc : ProgramContext)
    (debug_comments : bool) (idx : nat) (operator operator' : Operator)
    (st st' : type_stack) (c c' : CodegenContext) :
  depth_faithful operator = true ->
  check_operator str_of_Intrinsic pc operator st = Ok (tt, st') ->
  write_operator int_of_Intrinsic pc debug_comments idx operator c
  = (c', operator', Ok tt) ->
  exists new : list asm_line,
    fd c' = (fd c ++ new)%list
    /\ sp_change new
       = (16 * (Z.of_nat (List.length st) - Z.of_nat (List.length st')))%Z.
Proof.
  unfold depth_faithful. intros Hkind Hcheck Hwrite.
  apply andb_true_iff in Hkind as [_ Hkind].
  apply orb_true_iff in Hkind as [Hbalanced | Hsyscall].
  - destruct (write_operator_sp_change _ _ _ _ _ _ _ _ Hbalanced Hwrite)
      as (new & Hfd & Hsp).
    exists new. split; [exact Hfd|].
    rewrite Hsp, <- (check_operator_net_slots _ _ _ _ _ Hbalanced Hcheck).
    lia.
  - apply andb_true_iff in Hsyscall as [Hsyscall Hnone].
    apply negb_true_iff in Hnone.
    destruct (is_syscall_inv operator Hsyscall)
      as (Htype & i & d & Hoperand & Hdigit).
    rewrite (write_operator_syscall_from_stack _ _ _ _ _ _ _ _
               Htype Hoperand Hdigit Hnone) in Hwrite.
    injection Hwrite as <- _.
    exists (debug_lines debug_comments operator
              ++ map Ins
                   (syscall_lowering_from_stack d
                      (syscall_optimization_omit_result operator)))%list.
    split; [reflexivity|].
    rewrite sp_change_app, sp_change_debug_lines.
    now rewrite (syscall_from_stack_matches_depth _ _ _ _ _ _ _
                   Htype Hoperand Hdigit Hnone Hcheck).
Qed.

Lemma faithful_sequence_sp_change
    (str_of_Intrinsic : Intrinsic -> string)
    (int_of_Intrinsic : Intrinsic -> option Z) (pc : ProgramContext)
    (debug_comments : bool) (ops : list Operator) :
  forallb depth_faithful ops = true ->
  forall (idx : nat) (st st' : type_stack) (c c' : CodegenContext)
         (ops' : list Operator),
    check_operators str_of_Intrinsic pc ops st = Ok (tt, st') ->
    write_operators_from int_of_Intrinsic pc debug_comments idx ops c
    = (c', ops', Ok tt) ->
    exists new : list asm_line,
      fd c' = (fd c ++ new)%list
      /\ sp_change new
         = (16 * (Z.of_nat (List.length st)
                  - Z.of_nat (List.length st')))%Z.
Proof.
  induction ops as [|operator rest IH];
    intros Hkinds idx st st' c c' ops' Hcheck Hwrite;
    simpl in Hcheck, Hwrite.
  - injection Hcheck as <-. injection Hwrite as <- _.
    exists []. rewrite app_nil_r. split; [reflexivity|].
    change (sp_change []) with 0%Z. lia.
  - simpl in Hkinds. apply andb_true_iff in Hkinds as [Hkind Hkinds].
    unfold tc_bind in Hcheck.
    destruct (check_operator str_of_Intrinsic pc operator st)
      as [[[] st1]|e] eqn:Hcheck1; [|discriminate Hcheck].
    destruct (write_operator int_of_Intrinsic pc debug_comments idx
                operator c) as [[c1 operator'] [[]|e]] eqn:Hwrite1;
      [|discriminate Hwrite].
    destruct (write_operators_from int_of_Intrinsic pc debug_comments
                (S idx) rest c1) as [[c2 rest'] result] eqn:Hwrite2.
    injection Hwrite as <- _ ->.
    destruct (faithful_operator_sp_change _ _ _ _ _ _ _ _ _ _ _
                Hkind Hcheck1 Hwrite1) as (new1 & Hfd1 & Hsp1).
    destruct (IH Hkinds _ _ _ _ _ _ Hcheck Hwrite2)
      as (new2 & Hfd2 & Hsp2).
    exists (new1 ++ new2)%list. split.
    + now rewrite Hfd2, Hfd1, app_assoc.
    + rewrite sp_change_app, Hsp1, Hsp2. lia.
Qed.

(** X23: over a sequence of pushes and intrinsics with balanced
    templates and of syscalls without injected args, the text of the
    backend moves SP as the type-checker moves the abstract stack.  The
    lines that the lowering of such a sequence writes hold no branch and
    no label: the text is a straight line.  When the sequence is
    accepted from a stack of depth [n] and leaves depth [n'], the moves
    of SP of these lines add up to [16 * (n - n')] bytes; and for a
    sequence that validation accepts they add up to nothing. *)
Theorem sequence_text_matches_checked_depth
    (str_of_Intrinsic : Intrinsic -> string)
    (int_of_Intrinsic : Intrinsic -> option Z) (pc : ProgramContext)
    (debug_comments : bool) (ops ops' : list Operator)
    (c c' : CodegenContext) :
  forallb depth_faithful ops = true ->
  _write_executable_body_instruction_set int_of_Intrinsic pc
    debug_comments ops c
  = (c', ops', Ok tt) ->
  exists new : list asm_line,
    fd c' = (fd c ++ new)%list
    /\ Forall falls_through new
    /\ (forall st st' : type_stack,
          check_operators str_of_Intrinsic pc ops st = Ok (tt, st') ->
          sp_change new
          = (16 * (Z.of_nat (List.length st)
                   - Z.of_nat (List.length st')))%Z)
    /\ (validate_type_safety str_of_Intrinsic pc ops = Ok tt ->
        sp_change new = 0%Z).
Proof.
  unfold _write_executable_body_instruction_set. intros Hkinds Hwrite.
  destruct (faithful_sequence_falls_through _ _ _ _ Hkinds _ _ _ _ _
              Hwrite) as (new & Hfd & Hlines).
  assert (Hdepth : forall st st' : type_stack,
             check_operators str_of_Intrinsic pc ops st = Ok (tt, st') ->
             sp_change new
             = (16 * (Z.of_nat (List.length st)
                      - Z.of_nat (List.length st')))%Z).
  { intros st st' Hcheck.
    destruct (faithful_sequence_sp_change _ _ _ _ _ Hkinds _ _ _ _ _ _
                Hcheck Hwrite) as (new' & Hfd' & Hsp).
    rewrite Hfd in Hfd'. apply app_inv_head in Hfd'. now subst new'. }
  exists new. repeat split; [exact Hfd | exact Hlines | exact Hdepth |].
  intros Hvalid. unfold validate_type_safety in Hvalid.
  destruct (check_operators str_of_Intrinsic pc ops [])
    as [[[] [|t st]]|e] eqn:Hcheck; try discriminate Hvalid.
  now rewrite (Hdepth [] [] Hcheck).
Qed.

Lemma sequence_text_matches_checked_depth_witness :
  let run :=
    _write_executable_body_instruction_set not_an_integer empty_context
      true sum_program (mkCodegenContext [] []) in
  exists new : list asm_line,
    fd (fst (fst run)) = (fd (mkCodegenContext [] []) ++ new)%list
    /\ Forall falls_through new
    /\ sp_change new = 0%Z.
Proof.
  intros run.
  destruct (sequence_text_matches_checked_depth qualified_name
              not_an_integer empty_context true sum_program
              (snd (fst run)) (mkCodegenContext [] []) (fst (fst run))
              eq_refl eq_refl)
    as (new & Hfd & Hlines & _ & Hvalid).
  exists new. split; [exact Hfd|].
  split; [exact Hlines | exact (Hvalid eq_refl)].
Defined.
